(** * ipp-usb: the USB transport for HTTP

    A shallow embedding of the transport of ipp-usb (the Go file that
    declares [UsbTransport], [usbConn], [usbConnState] and the two body
    wrappers) and the properties of it that the specification states.

    Conventions of the embedding:
    - Go [int], [int64] and [time.Duration] are [Z] with the 64-bit
      wrap-around written out ([wrap64]); [int32] counters use [wrap32].
    - A [*usbConn] is its position in [connList]; dereferencing a position
      that does not exist is a nil dereference and panics.
    - An [http.Header] is a reference into a store of maps, because
      [Request.WithContext] copies the request struct and not the map.
    - Stateful code is written in a small state monad over [World] whose
      outcomes are: returns, panics, or blocks forever; each outcome keeps
      the world as it is at that moment.
    - The world carries a trace of observable events (USB transfers, body
      reads, pool hand-offs); the trace is ghost state used by the theorems.
    - Logging is not modelled: no control flow depends on it. *)

From Stdlib Require Import ZArith Lia Ascii DecimalString DecimalNat.
From stdpp Require Import base option list gmap strings.

Local Open Scope Z_scope.

(** ** Machine integers *)

Definition wrap (bits : Z) (z : Z) : Z :=
  (z + 2 ^ (bits - 1)) mod 2 ^ bits - 2 ^ (bits - 1).

Definition wrap32 : Z -> Z := wrap 32.
Definition wrap64 : Z -> Z := wrap 64.

(** ** Errors *)

Inductive error : Type :=
| io_EOF                      (* io.EOF *)
| io_ErrShortWrite            (* io.ErrShortWrite *)
| ErrShutdown                 (* the transport's shutdown error *)
| context_Canceled            (* context.Canceled *)
| context_DeadlineExceeded    (* context.DeadlineExceeded *)
| ErrUsb (code : Z)           (* an error of the USB layer *)
| ErrHttp (msg : string).     (* an error of the HTTP codec or of a body *)

Inductive result (A : Type) : Type :=
| Ok (a : A)
| Err (e : error).
Arguments Ok {A} a.
Arguments Err {A} e.

(** ** Connection state tracker *)

Record usbConnState : Type := mkConnState {
  alloc : list Z;   (* per-connection "allocated" flag *)
  read  : list Z;   (* per-connection "reading" flag *)
  write : list Z;   (* per-connection "writing" flag *)
}.

Definition newUsbConnState (cnt : nat) : usbConnState :=
  {| alloc := replicate cnt 0; read := replicate cnt 0; write := replicate cnt 0 |}.

(** [atomic.AddInt32(&slice[i], d)]: an index out of range panics ([None]). *)
Definition addInt32 (l : list Z) (i : nat) (d : Z) : option (list Z) :=
  match l !! i with
  | Some v => Some (<[i := wrap32 (v + d)]> l)
  | None => None
  end.

Definition gotConn (state : usbConnState) (index : nat) : option usbConnState :=
  al ← addInt32 (alloc state) index 1;
  Some {| alloc := al; read := read state; write := write state |}.

Definition putConn (state : usbConnState) (index : nat) : option usbConnState :=
  al ← addInt32 (alloc state) index (-1);
  Some {| alloc := al; read := read state; write := write state |}.

Definition beginRead (state : usbConnState) (index : nat) : option usbConnState :=
  rd ← addInt32 (read state) index 1;
  Some {| alloc := alloc state; read := rd; write := write state |}.

Definition doneRead (state : usbConnState) (index : nat) : option usbConnState :=
  rd ← addInt32 (read state) index (-1);
  Some {| alloc := alloc state; read := rd; write := write state |}.

Definition beginWrite (state : usbConnState) (index : nat) : option usbConnState :=
  wr ← addInt32 (write state) index 1;
  Some {| alloc := alloc state; read := read state; write := wr |}.

Definition doneWrite (state : usbConnState) (index : nat) : option usbConnState :=
  wr ← addInt32 (write state) index (-1);
  Some {| alloc := alloc state; read := read state; write := wr |}.

(** [fmt.Sprintf("%d", used)] *)
Definition fmt_d (n : nat) : string := NilEmpty.string_of_uint (Nat.to_uint n).

(** The body of the loop of [String] for one index. *)
Definition String_step (a r w : Z) (buf : string) (used : nat) : string * nat :=
  let buf := if (String.length buf =? 0)%nat then buf else buf +:+ " " in
  if Z.lor (Z.lor a r) w =? 0 then
    (buf +:+ "---", used)
  else
    let used := S used in
    let buf := if negb (a =? 0) then buf +:+ "a" else buf +:+ "-" in
    let buf := if negb (r =? 0) then buf +:+ "r" else buf +:+ "-" in
    let buf := if negb (w =? 0) then buf +:+ "w" else buf +:+ "-" in
    (buf, used).

(** [for i := range state.alloc]; [None] is an index-out-of-range panic. *)
Fixpoint String_loop (state : usbConnState) (idxs : list nat)
    (buf : string) (used : nat) : option (string * nat) :=
  match idxs with
  | [] => Some (buf, used)
  | i :: rest =>
      a ← alloc state !! i;
      r ← read state !! i;
      w ← write state !! i;
      let '(buf, used) := String_step a r w buf used in
      String_loop state rest buf used
  end.

Definition usbConnState_String (state : usbConnState) : option string :=
  '(buf, used) ← String_loop state (seq 0 (length (alloc state))) EmptyString 0%nat;
  Some (fmt_d used +:+ " in use: " +:+ buf).

(** ** USB interfaces and connections *)

(** The outcome of one bulk transfer, given the length of the buffer that
    was handed to the USB layer: the byte count and the error. *)
Definition transfer : Type := Z -> Z * option error.

(** The device side of an interface: the outcomes of the transfers to come.
    When none is left the device is silent and the transfer (which has no
    timeout) never completes. *)
Record UsbInterface : Type := mkIface {
  rx : list transfer;      (* bulk-in transfers to come *)
  tx : list transfer;      (* bulk-out transfers to come *)
  ifClosed : bool;
}.

Record usbConn : Type := mkConn {
  index : nat;             (* connection index *)
  iface : UsbInterface;    (* underlying interface *)
  cntRecv : Z;             (* total bytes received *)
  cntSent : Z;             (* total bytes sent *)
}.

(** ** Readers *)

(** One [Read] call of an [io.ReadCloser] as the reader answers it when the
    buffer is large enough: the bytes and the error returned together. *)
Definition step : Type := list Byte.byte * option error.

Record ReadCloser : Type := mkReadCloser {
  steps : list step;         (* answers to the reads to come *)
  closed : bool;
  closeErr : option error;   (* what Close returns *)
}.

(** [Read] with a buffer of [m] bytes. A reader with nothing left answers
    [(0, io.EOF)]; an answer longer than the buffer is cut and the rest kept. *)
Definition ReadCloser_Read (m : nat) (rc : ReadCloser)
    : (list Byte.byte * option error) * ReadCloser :=
  match steps rc with
  | [] => (([], Some io_EOF), rc)
  | (bs, e) :: rest =>
      if (length bs <=? m)%nat then
        ((bs, e), mkReadCloser rest (closed rc) (closeErr rc))
      else
        ((take m bs, None),
         mkReadCloser ((drop m bs, e) :: rest) (closed rc) (closeErr rc))
  end.

Definition ReadCloser_Close (rc : ReadCloser) : option error * ReadCloser :=
  (closeErr rc, mkReadCloser (steps rc) true (closeErr rc)).

(** ** Body wrappers (data) *)

Record usbRequestBodyWrapper : Type := mkRequestBodyWrapper {
  rqw_session : Z;          (* session *)
  rqw_count : Z;            (* count: total count of received bytes *)
  rqw_body : ReadCloser;    (* body: Request.body *)
  rqw_drained : bool;       (* drained: EOF or error has been seen *)
}.

Record usbResponseBodyWrapper : Type := mkResponseBodyWrapper {
  rsw_session : Z;          (* session *)
  rsw_body : ReadCloser;    (* body: Response.body *)
  rsw_conn : nat;           (* conn: underlying USB connection *)
  rsw_count : Z;            (* count: total count of received bytes *)
  rsw_drained : bool;       (* drained: EOF or error has been seen *)
}.

(** What [Request.Body] holds once the round trip has touched it. *)
Inductive outBody : Type :=
| Wrapped (wrap : usbRequestBodyWrapper)     (* &usbRequestBodyWrapper{...} *)
| Buffered (buf : list Byte.byte).           (* ioutil.NopCloser(&bytes.Buffer) *)

(** ** Requests and responses *)

(** A context: [None] while not done, [Some e] once done with [Err() = e]. *)
Definition Context : Type := option error.

Definition context_Background : Context := None.

(** The fields of [http.Request] the transport reads or writes; [B] is the
    dynamic type of the body. [Header] is a reference to a map in the store;
    a reference the store does not hold is a nil map. *)
Record Request (B : Type) : Type := mkRequest {
  ctx : Context;
  Cancel : option bool;        (* the Cancel channel: None is nil *)
  Header : nat;
  Close : bool;
  ContentLength : Z;
  Body : option B;
}.
Arguments mkRequest {B}.
Arguments ctx {B}.
Arguments Cancel {B}.
Arguments Header {B}.
Arguments Close {B}.
Arguments ContentLength {B}.
Arguments Body {B}.

Record Response (B : Type) : Type := mkResponse {
  StatusCode : Z;
  RespBody : B;                (* Body *)
}.
Arguments mkResponse {B}.
Arguments StatusCode {B}.
Arguments RespBody {B}.

(** How [Request.Write] delimits the body, by the contract of net/http: a
    request without body has none; a positive [ContentLength] is sent as a
    [Content-Length] header; a body whose [ContentLength] is not positive is
    sent with [Transfer-Encoding: chunked] and without [Content-Length]. *)
Inductive framing : Type :=
| NoBodyFraming
| LengthFraming (n : Z)
| ChunkedFraming.

Definition outgoingFraming {B} (r : Request B) : framing :=
  match Body r with
  | None => NoBodyFraming
  | Some _ =>
      if ContentLength r >? 0 then LengthFraming (ContentLength r)
      else ChunkedFraming
  end.

(** The request as [Request.Write] sees it when it starts serializing. *)
Record wire : Type := mkWire {
  wire_header : gmap string (list string);
  wire_close : bool;
  wire_length : Z;
  wire_framing : framing;
}.

(** ** Events, tasks and the world *)

Inductive event : Type :=
| EvRecv (i : nat) (wanted got : Z)     (* iface.Recv returned *)
| EvSend (i : nat) (wanted sent : Z)    (* iface.Send returned *)
| EvClearHalt (i : nat)                 (* iface.ClearHalt(true) *)
| EvSleep (d : Z)                       (* time.Sleep(d) *)
| EvAllocated (p : nat)                 (* received from connPool *)
| EvReaderReset (p : nat)               (* conn.reader.Reset(conn) *)
| EvReleased (p : nat)                  (* sent to connPool *)
| EvSignal                              (* connReleased signal delivered *)
| EvDestroy (p : nat)                   (* conn.destroy() *)
| EvBodyRead (n : Z)                    (* a read of the request body *)
| EvBodyClose                           (* the request body closed *)
| EvRespBodyRead (p : nat) (n : Z)      (* a read of the response body *)
| EvRespBodyClose (p : nat)             (* the response body closed *)
| EvWriteRequest (p : nat) (rq : wire). (* outreq.Write(conn) starts *)

Definition is_usb_io (ev : event) : bool :=
  match ev with
  | EvRecv _ _ _ | EvSend _ _ _ | EvClearHalt _ | EvWriteRequest _ _ => true
  | _ => false
  end.

(** A goroutine started with [go] and not yet run. *)
Inductive task : Type :=
| DrainResponse (wrap : usbResponseBodyWrapper).

Record UsbTransport : Type := mkTransport {
  connPool : list nat;          (* idle connections, oldest first *)
  connPoolCap : nat;            (* cap(connPool) *)
  connList : list usbConn;      (* all connections *)
  connReleasedWaiting : bool;   (* a receiver waits on connReleased *)
  shutdown : bool;              (* the shutdown channel is closed *)
  connstate : usbConnState;     (* connections state tracker *)
}.

Record World : Type := mkWorld {
  transport : UsbTransport;
  headers : gmap nat (gmap string (list string));   (* the http.Header maps *)
  goroutines : list task;
  trace : list event;                               (* oldest first *)
}.

(** ** The monad of transport code *)

Inductive outcome (A : Type) : Type :=
| Returns (a : A) (w : World)
| Panics (w : World)
| Blocks (w : World).
Arguments Returns {A} a w.
Arguments Panics {A} w.
Arguments Blocks {A} w.

Definition world_of {A} (o : outcome A) : World :=
  match o with
  | Returns _ w | Panics w | Blocks w => w
  end.

Definition M (A : Type) : Type := World -> outcome A.

Definition ret {A} (a : A) : M A := fun w => Returns a w.

Definition bind {A B} (c : M A) (k : A -> M B) : M B :=
  fun w =>
    match c w with
    | Returns a w' => k a w'
    | Panics w' => Panics w'
    | Blocks w' => Blocks w'
    end.

Notation "'let*' x ':=' c 'in' k" := (bind c (fun x => k))
  (at level 10, x name, c at level 200, k at level 200).
Notation "c ';;' k" := (bind c (fun _ => k))
  (at level 100, k at level 200, right associativity).

Definition panic {A} : M A := fun w => Panics w.
Definition block {A} : M A := fun w => Blocks w.

Definition emit (evs : list event) : M unit :=
  fun w => Returns tt (mkWorld (transport w) (headers w) (goroutines w) (trace w ++ evs)).

Definition go (t : task) : M unit :=
  fun w => Returns tt (mkWorld (transport w) (headers w) (goroutines w ++ [t]) (trace w)).

Definition getTransport : M UsbTransport := fun w => Returns (transport w) w.

Definition setTransport (t : UsbTransport) : M unit :=
  fun w => Returns tt (mkWorld t (headers w) (goroutines w) (trace w)).

(** [*conn]: a position outside [connList] is a nil dereference. *)
Definition getConn (p : nat) : M usbConn :=
  let* t := getTransport in
  match connList t !! p with
  | Some c => ret c
  | None => panic
  end.

Definition setConn (p : nat) (c : usbConn) : M unit :=
  let* t := getTransport in
  setTransport (mkTransport (connPool t) (connPoolCap t) (<[p := c]> (connList t))
                  (connReleasedWaiting t) (shutdown t) (connstate t)).

(** A tracker update; an index out of range panics. *)
Definition updConnState (f : usbConnState -> option usbConnState) : M unit :=
  let* t := getTransport in
  match f (connstate t) with
  | Some s => setTransport (mkTransport (connPool t) (connPoolCap t) (connList t)
                              (connReleasedWaiting t) (shutdown t) s)
  | None => panic
  end.

(** ** usbConn.Read and usbConn.Write *)

Definition Millisecond : Z := 1000000.   (* time.Duration counts nanoseconds *)

(** [if n := len(b); n >= 512 { n &= ^511; b = b[0:n] }]: the length of [b]
    afterwards. *)
Definition alignRead (n : Z) : Z :=
  if n >=? 512 then Z.land n (Z.lnot 511) else n.

(** [backoff *= 2; if backoff > time.Millisecond*1000 { backoff = ... }] *)
Definition nextBackoff (backoff : Z) : Z :=
  let backoff := wrap64 (backoff * 2) in
  if backoff >? Millisecond * 1000 then Millisecond * 1000 else backoff.

(** The [for] loop of [Read], over the transfers the device will answer.
    Yields what the loop returns ([None] when it never returns, the device
    having fallen silent), the transfers left, [cntRecv] and the events. *)
Fixpoint Read_loop (idx : nat) (b : Z) (backoff : Z) (rx : list transfer) (cnt : Z)
    : option (Z * option error) * list transfer * Z * list event :=
  match rx with
  | [] => (None, [], cnt, [])
  | recv :: rx =>
      let '(n, err) := recv b in
      let cnt := wrap64 (cnt + n) in
      if negb (n =? 0) || bool_decide (is_Some err) then
        (Some (n, err), rx, cnt, [EvRecv idx b n])
      else
        let '(r, rx, cnt, evs) := Read_loop idx b (nextBackoff backoff) rx cnt in
        (r, rx, cnt, EvRecv idx b n :: EvClearHalt idx :: EvSleep backoff :: evs)
  end.

Definition usbConn_Read (p : nat) (blen : Z) : M (Z * option error) :=
  let* conn := getConn p in
  updConnState (fun s => beginRead s (index conn));;
  let b := alignRead blen in
  let backoff := Millisecond * 100 in
  let '(r, rx', cnt, evs) :=
    Read_loop (index conn) b backoff (rx (iface conn)) (cntRecv conn) in
  setConn p (mkConn (index conn)
               (mkIface rx' (tx (iface conn)) (ifClosed (iface conn)))
               cnt (cntSent conn));;
  emit evs;;
  match r with
  | None => block
  | Some r =>
      updConnState (fun s => doneRead s (index conn));;
      ret r
  end.

Definition usbConn_Write (p : nat) (blen : Z) : M (Z * option error) :=
  let* conn := getConn p in
  updConnState (fun s => beginWrite s (index conn));;
  match tx (iface conn) with
  | [] => block
  | send :: tx' =>
      let '(n, err) := send blen in
      setConn p (mkConn (index conn)
                   (mkIface (rx (iface conn)) tx' (ifClosed (iface conn)))
                   (cntRecv conn) (wrap64 (cntSent conn + n)));;
      emit [EvSend (index conn) blen n];;
      updConnState (fun s => doneWrite s (index conn));;
      ret (n, err)
  end.

(** ** The connection pool *)

(** The cases of the [select] of [usbConnGet], in source order. *)
Inductive selectCase : Type :=
| CaseShutdown (* <-transport.shutdown *)
| CaseDone     (* <-ctx.Done() *)
| CaseConn.    (* conn := <-transport.connPool *)

(** The cases that can proceed. *)
Definition readyCases (t : UsbTransport) (c : Context) : list selectCase :=
  (if shutdown t then [CaseShutdown] else []) ++
  (if c is Some _ then [CaseDone] else []) ++
  (if connPool t is _ :: _ then [CaseConn] else []).

(** Go's [select]: blocks while no case can proceed; when several can, one
    of them is chosen by the runtime (uniformly at random). [pick] is the
    runtime's draw. *)
Definition select (pick : nat) (ready : list selectCase) : option selectCase :=
  ready !! (pick mod length ready)%nat.

Definition usbConnGet (pick : nat) (c : Context) : M (result nat) :=
  let* t := getTransport in
  match select pick (readyCases t c) with
  | None => block
  | Some CaseShutdown => ret (Err ErrShutdown)
  | Some CaseDone =>
      match c with
      | Some e => ret (Err e)
      | None => block
      end
  | Some CaseConn =>
      match connPool t with
      | [] => block
      | p :: pool =>
          setTransport (mkTransport pool (connPoolCap t) (connList t)
                          (connReleasedWaiting t) (shutdown t) (connstate t));;
          emit [EvAllocated p];;
          let* conn := getConn p in
          updConnState (fun s => gotConn s (index conn));;
          ret (Ok p)
      end
  end.

(** [conn.put()]. The send to [connPool] blocks while the pool is full; the
    send to [connReleased] is dropped unless a receiver waits. *)
Definition put (p : nat) : M unit :=
  let* conn := getConn p in
  emit [EvReaderReset p];;
  setConn p (mkConn (index conn) (iface conn) 0 0);;
  updConnState (fun s => putConn s (index conn));;
  let* t := getTransport in
  if (length (connPool t) <? connPoolCap t)%nat then
    setTransport (mkTransport (connPool t ++ [p]) (connPoolCap t) (connList t)
                    (connReleasedWaiting t) (shutdown t) (connstate t));;
    emit [EvReleased p];;
    let* t := getTransport in
    if connReleasedWaiting t then
      setTransport (mkTransport (connPool t) (connPoolCap t) (connList t)
                      false (shutdown t) (connstate t));;
      emit [EvSignal]
    else ret tt
  else block.

(** [conn.destroy()] *)
Definition destroy (p : nat) : M unit :=
  let* conn := getConn p in
  setConn p (mkConn (index conn)
               (mkIface (rx (iface conn)) (tx (iface conn)) true)
               (cntRecv conn) (cntSent conn));;
  emit [EvDestroy p].

(** [connInUse] *)
Definition connInUse (t : UsbTransport) : Z :=
  Z.of_nat (connPoolCap t) - Z.of_nat (length (connPool t)).

(** [close(transport.shutdown)], the first statement of [Shutdown]; closing
    a closed channel panics. *)
Definition Shutdown_signal : M unit :=
  let* t := getTransport in
  if shutdown t then panic
  else setTransport (mkTransport (connPool t) (connPoolCap t) (connList t)
                       (connReleasedWaiting t) true (connstate t)).

(** ** http.Header

    [Del] and [Set] canonicalize their key; the keys the transport passes
    ("Expect", "Connection") are canonical already, and the keys of a header
    map are canonical as net/http requires. *)

Definition setHeaders (hs : gmap nat (gmap string (list string))) : M unit :=
  fun w => Returns tt (mkWorld (transport w) hs (goroutines w) (trace w)).

Definition getHeaders : M (gmap nat (gmap string (list string))) :=
  fun w => Returns (headers w) w.

(** [h.Del(key)]: [delete] on a nil map does nothing. *)
Definition Header_Del (h : nat) (key : string) : M unit :=
  let* hs := getHeaders in
  setHeaders (alter (delete key) h hs).

(** [h[key] = values]: assignment to an entry of a nil map panics. *)
Definition Header_assign (h : nat) (key : string) (values : list string) : M unit :=
  let* hs := getHeaders in
  match hs !! h with
  | Some m => setHeaders (<[h := <[key := values]> m]> hs)
  | None => panic
  end.

(** [h.Set(key, value)] *)
Definition Header_Set (h : nat) (key value : string) : M unit :=
  Header_assign h key [value].

(** [_, found := h[key]] *)
Definition Header_index (h : nat) (key : string) : M (option (list string)) :=
  let* hs := getHeaders in
  ret (hs !! h ≫= fun m => m !! key).

(** ** Request body wrapper *)

Definition usbRequestBodyWrapper_Read (m : nat) (wrap : usbRequestBodyWrapper)
    : (list Byte.byte * option error) * usbRequestBodyWrapper :=
  let '((bs, err), body) := ReadCloser_Read m (rqw_body wrap) in
  let count := wrap64 (rqw_count wrap + Z.of_nat (length bs)) in
  match err with
  | Some _ =>
      ((bs, Some io_EOF), mkRequestBodyWrapper (rqw_session wrap) count body true)
  | None =>
      ((bs, None), mkRequestBodyWrapper (rqw_session wrap) count body (rqw_drained wrap))
  end.

Definition usbRequestBodyWrapper_Close (wrap : usbRequestBodyWrapper)
    : option error * usbRequestBodyWrapper :=
  let '(e, body) := ReadCloser_Close (rqw_body wrap) in
  (e, mkRequestBodyWrapper (rqw_session wrap) (rqw_count wrap) body (rqw_drained wrap)).

(** [Read] of whatever [outreq.Body] holds. *)
Definition outBody_Read (m : nat) (b : outBody)
    : (list Byte.byte * option error) * outBody :=
  match b with
  | Wrapped wrap =>
      let '(r, wrap) := usbRequestBodyWrapper_Read m wrap in (r, Wrapped wrap)
  | Buffered buf =>
      match buf with
      | [] => (([], if (m =? 0)%nat then None else Some io_EOF), Buffered [])
      | _ => ((take m buf, None), Buffered (drop m buf))
      end
  end.

(** The number of reads a body can answer without error, plus its bytes. *)
Definition outBody_size (b : outBody) : nat :=
  match b with
  | Wrapped wrap => length (steps (rqw_body wrap))
  | Buffered buf => length buf
  end.

(** [buf.ReadFrom(io.LimitReader(src, n))], the copy that [io.CopyN] runs
    for a [bytes.Buffer]. The limited reader answers [(0, io.EOF)] once its
    count is used up and otherwise asks [src] for at most the remaining
    count; [ReadFrom] stops at the first error and reports it unless it is
    [io.EOF]. [fuel] bounds the iterations. *)
Fixpoint ReadFrom_limited (fuel : nat) (src : outBody) (N : Z)
    (buf : list Byte.byte) (evs : list event)
    : option (list Byte.byte * option error * outBody * list event) :=
  match fuel with
  | O => None
  | S fuel =>
      if N <=? 0 then Some (buf, None, src, evs)
      else
        let '((bs, err), src) := outBody_Read (Z.to_nat N) src in
        let n := Z.of_nat (length bs) in
        let buf := buf ++ bs in
        let evs := evs ++ [EvBodyRead n] in
        match err with
        | Some io_EOF => Some (buf, None, src, evs)
        | Some e => Some (buf, Some e, src, evs)
        | None => ReadFrom_limited fuel src (N - n) buf evs
        end
  end.

(** [io.CopyN(buf, src, n)] into an empty [bytes.Buffer]. *)
Definition io_CopyN (src : outBody) (n : Z)
    : option (list Byte.byte * option error * outBody * list event) :=
  match ReadFrom_limited (S (S (outBody_size src))) src n [] [] with
  | None => None
  | Some (buf, err, src, evs) =>
      let written := Z.of_nat (length buf) in
      if written =? n then Some (buf, None, src, evs)
      else if (written <? n) && bool_decide (err = None) then
        Some (buf, Some io_EOF, src, evs)
      else Some (buf, err, src, evs)
  end.

(** ** The round trip *)

(** [r.WithContext(ctx)]: a shallow copy of the struct with the context
    replaced; the copy refers to the same header map and the same body. *)
Definition WithContext {B} (r : Request B) (c : Context) : Request B :=
  mkRequest c (Cancel r) (Header r) (Close r) (ContentLength r) (Body r).

(** From [outreq := rq.WithContext(...)] to the wrapping of the body. *)
Definition prepare (session : Z) (rq : Request ReadCloser) : M (Request outBody) :=
  let outreq := WithContext rq context_Background in
  let outreq := mkRequest (ctx outreq) None (Header outreq) (Close outreq)
                  (ContentLength outreq) (Body outreq) in
  Header_Del (Header outreq) "Expect";;
  Header_Set (Header outreq) "Connection" "close";;
  let outreq := mkRequest (ctx outreq) (Cancel outreq) (Header outreq) true
                  (ContentLength outreq) (Body outreq) in
  let* found := Header_index (Header outreq) "User-Agent" in
  (if found is None then Header_assign (Header outreq) "User-Agent" ["ipp-usb"]
   else ret tt);;
  ret (mkRequest (ctx outreq) (Cancel outreq) (Header outreq) (Close outreq)
         (ContentLength outreq)
         (match Body outreq with
          | Some body => Some (Wrapped (mkRequestBodyWrapper session 0 body false))
          | None => None
          end)).

(** The [switch] on [outreq.ContentLength]. Reading a nil body panics. *)
Definition shapeBody (outreq : Request outBody) : M (result (Request outBody)) :=
  if ContentLength outreq <=? 0 then
    ret (Ok outreq)
  else if ContentLength outreq <? 16384 then
    match Body outreq with
    | None => panic
    | Some body =>
        match io_CopyN body (ContentLength outreq) with
        | None => block
        | Some (buf, err, body, evs) =>
            emit evs;;
            match err with
            | Some e => ret (Err e)
            | None =>
                emit [EvBodyClose];;
                ret (Ok (mkRequest (ctx outreq) (Cancel outreq) (Header outreq)
                           (Close outreq) (ContentLength outreq)
                           (Some (Buffered buf))))
            end
        end
    end
  else
    ret (Ok (mkRequest (ctx outreq) (Cancel outreq) (Header outreq)
               (Close outreq) (-1) (Body outreq))).

(** What the round trip cannot see in its own code: the draw of the runtime
    in [select], and how the HTTP codec of net/http drives the connection.
    [Request.Write] hands buffers of the lengths [wr_plan] to [conn.Write]
    and returns [wr_result] when they all went through; [http.ReadResponse]
    has the buffered reader call [conn.Read] with buffers of the lengths
    [rd_plan] and returns [rd_result] when none of them failed. *)
Record Env : Type := mkEnv {
  pick : nat;
  wr_plan : list Z;
  wr_result : option error;
  rd_plan : list Z;
  rd_result : result (Response ReadCloser);
}.

Fixpoint writeAll (p : nat) (plan : list Z) (final : option error) : M (option error) :=
  match plan with
  | [] => ret final
  | blen :: plan =>
      let* r := usbConn_Write p blen in
      match r with
      | (_, Some e) => ret (Some e)
      | (n, None) =>
          if n <? blen then ret (Some io_ErrShortWrite)
          else writeAll p plan final
      end
  end.

(** [outreq.Write(conn)] *)
Definition Request_Write (env : Env) (outreq : Request outBody) (p : nat)
    : M (option error) :=
  let* hs := getHeaders in
  emit [EvWriteRequest p (mkWire (default ∅ (hs !! Header outreq)) (Close outreq)
                            (ContentLength outreq) (outgoingFraming outreq))];;
  writeAll p (wr_plan env) (wr_result env).

Fixpoint readAll (p : nat) (plan : list Z) (final : result (Response ReadCloser))
    : M (result (Response ReadCloser)) :=
  match plan with
  | [] => ret final
  | blen :: plan =>
      let* r := usbConn_Read p blen in
      match r with
      | (_, Some e) => ret (Err e)
      | (_, None) => readAll p plan final
      end
  end.

(** [http.ReadResponse(conn.reader, outreq)] *)
Definition ReadResponse (env : Env) (p : nat) : M (result (Response ReadCloser)) :=
  readAll p (rd_plan env) (rd_result env).

(** From the allocation of the connection to the end of the function;
    [c] is [rq.Context()], the context of the caller's request. *)
Definition exchange (env : Env) (session : Z) (c : Context) (outreq : Request outBody)
    : M (result (Response usbResponseBodyWrapper)) :=
  (* Allocate USB connection *)
  let* got := usbConnGet (pick env) c in
  match got with
  | Err e => ret (Err e)
  | Ok conn =>
      (* Send request and receive a response *)
      let* werr := Request_Write env outreq conn in
      match werr with
      | Some e => put conn;; ret (Err e)
      | None =>
          let* got := ReadResponse env conn in
          match got with
          | Err e => put conn;; ret (Err e)
          | Ok resp =>
              (* Wrap response body *)
              ret (Ok (mkResponse (StatusCode resp)
                         (mkResponseBodyWrapper session (RespBody resp) conn 0 false)))
          end
      end
  end.

Definition RoundTripWithSession (env : Env) (session : Z) (rq : Request ReadCloser)
    : M (result (Response usbResponseBodyWrapper)) :=
  let* outreq := prepare session rq in
  let* shaped := shapeBody outreq in
  match shaped with
  | Err e => ret (Err e)
  | Ok outreq => exchange env session (ctx rq) outreq
  end.

(** ** Response body wrapper *)





Definition usbResponseBodyWrapper_Close (wrap : usbResponseBodyWrapper)
    : M (option error * usbResponseBodyWrapper) :=
  if rsw_drained wrap then
    let '(_, body) := ReadCloser_Close (rsw_body wrap) in
    emit [EvRespBodyClose (rsw_conn wrap)];;
    put (rsw_conn wrap);;
    ret (None, mkResponseBodyWrapper (rsw_session wrap) body (rsw_conn wrap)
                 (rsw_count wrap) (rsw_drained wrap))
  else
    go (DrainResponse wrap);;
    ret (None, wrap).

(** * Specification-side definitions *)

(** ** Specification-side definitions for the state tracker *)

(** The three flag characters of one connection, as the specification
    words them. *)
Definition spec_flags (a r w : Z) : string :=
  String (if a =? 0 then "-"%char else "a"%char)
    (String (if r =? 0 then "-"%char else "r"%char)
       (String (if w =? 0 then "-"%char else "w"%char) EmptyString)).

(** The counters of the connections, by index. *)
Definition counters (state : usbConnState) : list (Z * Z * Z) :=
  zip (zip (alloc state) (read state)) (write state).

Definition in_use (c : Z * Z * Z) : bool :=
  negb ((c.1.1 =? 0) && (c.1.2 =? 0) && (c.2 =? 0)).

(** The groups of flags, one per connection. *)
Definition spec_groups (state : usbConnState) : list string :=
  (fun c => spec_flags c.1.1 c.1.2 c.2) <$> counters state.

(** The number of connections whose counters are not all zero. *)
Definition spec_used (state : usbConnState) : nat :=
  length (filter (fun c => in_use c = true) (counters state)).

(** The groups, with one space between neighbours. *)
Fixpoint join_space (groups : list string) : string :=
  match groups with
  | [] => EmptyString
  | [g] => g
  | g :: groups => g +:+ " " +:+ join_space groups
  end.

(** What one turn of the loop appends. *)
Definition append_group (buf g : string) : string :=
  (if (String.length buf =? 0)%nat then buf else buf +:+ " ") +:+ g.

(** ** Specification-side definitions for the read loop *)

(** The backoff before the retry that follows the [i]-th zero-size read
    (counting from 0), in nanoseconds: 100 ms doubled [i] times, at most 1 s. *)
Definition spec_backoff (i : nat) : Z :=
  Z.min (100 * 2 ^ Z.of_nat i) 1000 * Millisecond.

(** What the connection does on the [i]-th zero-size read. *)
Definition zeroRead (idx : nat) (b : Z) (i : nat) : list event :=
  [EvRecv idx b 0; EvClearHalt idx; EvSleep (spec_backoff i)].

Definition sleepTotal (evs : list event) : Z :=
  foldr (fun ev acc => match ev with EvSleep d => d + acc | _ => acc end) 0 evs.

Definition clearHalts (evs : list event) : nat :=
  foldr (fun ev acc => match ev with EvClearHalt _ => S acc | _ => acc end) 0%nat evs.

(** ** Frames: what an operation leaves alone *)

Definition is_transfer (ev : event) : Prop :=
  match ev with
  | EvRecv _ _ _ | EvSend _ _ _ | EvClearHalt _ | EvSleep _ => True
  | _ => False
  end.

Definition is_pool_event (ev : event) : Prop :=
  match ev with
  | EvAllocated _ | EvReaderReset _ | EvReleased _ | EvSignal => True
  | _ => False
  end.

Definition is_body_event (ev : event) : Prop :=
  match ev with
  | EvBodyRead _ | EvBodyClose => True
  | _ => False
  end.

Definition not_write (ev : event) : Prop :=
  match ev with
  | EvWriteRequest _ _ => False
  | _ => True
  end.

(** The trace of [w'] is the trace of [w] followed by events that satisfy [P]. *)
Definition extends (P : event -> Prop) (w w' : World) : Prop :=
  exists evs, trace w' = trace w ++ evs /\ Forall P evs.

(** The header maps are the same and the trace is extended. *)
Definition hdr_frame (P : event -> Prop) (w w' : World) : Prop :=
  headers w' = headers w /\ extends P w w'.

(** What a connection keeps through I/O. *)
Definition conn_id (c : usbConn) : nat * bool := (index c, ifClosed (iface c)).

(** Only the counters and the pending transfers of connections change, and
    the read and write flags of the tracker. *)
Definition conn_frame (P : event -> Prop) (w w' : World) : Prop :=
  headers w' = headers w /\
  goroutines w' = goroutines w /\
  connPool (transport w') = connPool (transport w) /\
  connPoolCap (transport w') = connPoolCap (transport w) /\
  connReleasedWaiting (transport w') = connReleasedWaiting (transport w) /\
  shutdown (transport w') = shutdown (transport w) /\
  alloc (connstate (transport w')) = alloc (connstate (transport w)) /\
  (forall q, conn_id <$> connList (transport w') !! q =
             conn_id <$> connList (transport w) !! q) /\
  extends P w w'.

(** Nothing changes but the trace. *)
Definition trace_frame (P : event -> Prop) (w w' : World) : Prop :=
  transport w' = transport w /\
  headers w' = headers w /\
  goroutines w' = goroutines w /\
  extends P w w'.

(** ** Specification-side definitions for the round trip *)

(** The header map of the outbound request, from the caller's map [m]. *)
Definition spec_header (m : gmap string (list string)) : gmap string (list string) :=
  let m := <["Connection" := ["close"]]> (delete "Expect" m) in
  match m !! "User-Agent" with
  | Some _ => m
  | None => <["User-Agent" := ["ipp-usb"]]> m
  end.

(** The outbound request before its body is shaped. *)
Definition prepared (session : Z) (rq : Request ReadCloser) : Request outBody :=
  mkRequest context_Background None (Header rq) true (ContentLength rq)
    (match Body rq with
     | Some body => Some (Wrapped (mkRequestBodyWrapper session 0 body false))
     | None => None
     end).

(** The bytes a reader delivers before end-of-stream or an error. *)
Fixpoint stream_bytes (sts : list step) : list Byte.byte :=
  match sts with
  | [] => []
  | (bs, None) :: sts => bs ++ stream_bytes sts
  | (bs, Some _) :: _ => bs
  end.

(** The bytes read from the request body, by the trace. *)
Definition bodyBytes (evs : list event) : Z :=
  foldr (fun ev acc => match ev with EvBodyRead n => n + acc | _ => acc end) 0 evs.

(** The bytes read from the response body, by the trace. *)
Definition respBodyBytes (evs : list event) : Z :=
  foldr (fun ev acc => match ev with EvRespBodyRead _ n => n + acc | _ => acc end) 0 evs.

(** How often connection [p] was put back into the pool, by the trace. *)
Definition releases (p : nat) (evs : list event) : nat :=
  foldr (fun ev acc => match ev with
                       | EvReleased q => if decide (q = p) then S acc else acc
                       | _ => acc
                       end) 0%nat evs.

Definition destroys (evs : list event) : nat :=
  foldr (fun ev acc => match ev with EvDestroy _ => S acc | _ => acc end) 0%nat evs.

(** What [Request.Write] sees of [outreq] when the header maps are [hs]. *)
Definition wire_of (hs : gmap nat (gmap string (list string))) (outreq : Request outBody)
    : wire :=
  mkWire (default ∅ (hs !! Header outreq)) (Close outreq) (ContentLength outreq)
    (outgoingFraming outreq).

Definition with_Body (outreq : Request outBody) (b : option outBody) : Request outBody :=
  mkRequest (ctx outreq) (Cancel outreq) (Header outreq) (Close outreq)
    (ContentLength outreq) b.


Definition with_trace (w : World) (evs : list event) : World :=
  mkWorld (transport w) (headers w) (goroutines w) (trace w ++ evs).

Definition with_headers (w : World) (hs : gmap nat (gmap string (list string))) : World :=
  mkWorld (transport w) hs (goroutines w) (trace w).

(** Every request serialized is [outreq] as it stands with header maps [hs]. *)
Definition serializes (hs : gmap nat (gmap string (list string)))
    (outreq : Request outBody) (ev : event) : Prop :=
  match ev with
  | EvWriteRequest _ wr => wr = wire_of hs outreq
  | _ => True
  end.

(** Neither a release nor a destruction. *)
Definition holds_conn (ev : event) : Prop :=
  match ev with
  | EvReleased _ | EvDestroy _ => False
  | _ => True
  end.

(** On the wire: the prepared header map, marked non-keep-alive. *)
Definition wire_prepared (m : gmap string (list string)) (ev : event) : Prop :=
  match ev with
  | EvWriteRequest _ wr => wire_header wr = spec_header m /\ wire_close wr = true
  | _ => True
  end.

(** ** A small transport, for examples

  Two connections; the first receives three zero-size reads before data
  arrives. *)
Module Demo.

Definition zero : transfer := fun _ => (0, None).
Definition data (n : Z) : transfer := fun b => (Z.min n b, None).
Definition fails (code : Z) : transfer := fun _ => (0, Some (ErrUsb code)).

Definition conn0 : usbConn :=
  mkConn 0 (mkIface [zero; zero; zero; data 100] [data 4096] false) 0 0.
Definition conn1 : usbConn :=
  mkConn 1 (mkIface [data 5] [fails 7] false) 0 0.

Definition headers0 : gmap nat (gmap string (list string)) :=
  {[ 7%nat := {[ "Expect" := ["100-continue"]; "Connection" := ["keep-alive"] ]} ]}.

Definition world : World :=
  mkWorld (mkTransport [0; 1]%nat 2 [conn0; conn1] false false (newUsbConnState 2))
    headers0 [] [].


Definition body3 : ReadCloser :=
  mkReadCloser [([Byte.x61; Byte.x62], None); ([Byte.x63], Some (ErrHttp "gone"))]
    false None.

(** A POST of three bytes whose body fails after delivering them. *)
Definition rq3 : Request ReadCloser :=
  mkRequest None None 7%nat false 3 (Some body3).

(** The same body, declared as four bytes. *)
Definition rq4 : Request ReadCloser :=
  mkRequest None None 7%nat false 4 (Some body3).

Definition response : Response ReadCloser :=
  mkResponse 200 (mkReadCloser [([Byte.x6f; Byte.x6b], None)] false None).

(** The codec writes one buffer of 50 bytes and reads with 4096. *)
Definition env : Env := mkEnv 0 [50] None [4096] (Ok response).

(** The codec writes one buffer larger than the device accepts at once. *)
Definition env_short_write : Env := mkEnv 0 [5000] None [4096] (Ok response).

(** The codec cannot parse what the device sent. *)
Definition env_bad_response : Env :=
  mkEnv 0 [50] None [4096] (Err (ErrHttp "malformed HTTP response")).

(** The first connection is in flight. *)
Definition world_in_flight : World :=
  mkWorld (mkTransport [1]%nat 2 [conn0; conn1] false false
             (mkConnState [1; 0] [0; 0] [0; 0]))
    headers0 [] [].

(** A response body read to its end, and one abandoned after two bytes. *)
Definition wrap_drained : usbResponseBodyWrapper :=
  mkResponseBodyWrapper 1 (mkReadCloser [] false None) 0 2 true.

End Demo.

(** * The rest of the transport *)

(** ** The invariant of a transport

    What [NewUsbTransport] establishes and the pool operations keep: the
    connections are numbered by their position, the tracker has one slot per
    connection, and the pool holds each idle connection once. *)
Definition transport_wf (t : UsbTransport) : Prop :=
  length (connList t) = connPoolCap t /\
  (forall p c, connList t !! p = Some c -> index c = p) /\
  length (alloc (connstate t)) = connPoolCap t /\
  length (read (connstate t)) = connPoolCap t /\
  length (write (connstate t)) = connPoolCap t /\
  NoDup (connPool t) /\
  (forall p, p ∈ connPool t -> (p < connPoolCap t)%nat).

(** A counter of the tracker is an [int32]. *)
Definition int32_range (v : Z) : Prop := - 2 ^ 31 <= v < 2 ^ 31.

(** ** Shutdown and Close *)

(** The [for] loop of [Shutdown], from its head. In the [select], the receive
    from [connReleased] can proceed only while a sender is in its send, and
    [put] sends without waiting, so the receive is never ready at once: the
    loop returns the context's error when the context is done, and otherwise
    waits as the receiver on [connReleased]. When [put] delivers its signal
    the loop goes on from its head, that is, [Shutdown_loop] again. *)
Definition Shutdown_loop (c : Context) : M (option error) :=
  let* t := getTransport in
  let n := connInUse t in
  if n =? 0 then ret None
  else
    match c with
    | Some e => ret (Some e)
    | None =>
        setTransport (mkTransport (connPool t) (connPoolCap t) (connList t)
                        true (shutdown t) (connstate t));;
        block
    end.

(** [transport.Shutdown(ctx)] *)
Definition Shutdown (c : Context) : M (option error) :=
  Shutdown_signal;;
  Shutdown_loop c.

(** Calls on the device handle and its interfaces. *)
Inductive devCall : Type :=
| DevReset                 (* dev.Reset() *)
| DevClose                 (* dev.Close() *)
| IfaceClose (i : nat).    (* the interface of connection i closed *)

(** [for _, conn := range transport.connList { conn.destroy() }]. [calls]
    is the log of the calls made so far on the device handle and on the
    interfaces, in the order in which they are made; the [conn.iface.Close()]
    of each [destroy] is added to it when that connection is destroyed. *)
Fixpoint destroyAll (ps : list nat) (calls : list devCall) : M (list devCall) :=
  match ps with
  | [] => ret calls
  | p :: ps =>
      let* conn := getConn p in
      destroy p;;
      destroyAll ps (calls ++ [IfaceClose (index conn)])
  end.

(** [transport.Close()]; returns the log of the calls on the device handle
    and on the interfaces, in the order in which [Close] makes them: the
    reset, if any, then the interface of each connection as it is destroyed,
    then the close of the device. *)
Definition UsbTransport_Close : M (list devCall) :=
  let* t := getTransport in
  let calls := if connInUse t >? 0 then [DevReset] else [] in
  let* calls := destroyAll (seq 0 (length (connList t))) calls in
  ret (calls ++ [DevClose]).

(** ** The send of [put]

    [put] from [transport.connPool <- conn] on. A [put] that waits in this
    send, the pool being full, has done what comes before it; when the send
    can proceed the goroutine goes on from here. *)
Definition put_send (p : nat) : M unit :=
  let* t := getTransport in
  if (length (connPool t) <? connPoolCap t)%nat then
    setTransport (mkTransport (connPool t ++ [p]) (connPoolCap t) (connList t)
                    (connReleasedWaiting t) (shutdown t) (connstate t));;
    emit [EvReleased p];;
    let* t := getTransport in
    if connReleasedWaiting t then
      setTransport (mkTransport (connPool t) (connPoolCap t) (connList t)
                      false (shutdown t) (connstate t));;
      emit [EvSignal]
    else ret tt
  else block.

(** ** NewUsbTransport

    The USB layer is not part of this file: the addresses of the interfaces
    and what opening one yields are parameters, and so are the outcomes of
    [UsbOpenDevice] and [dev.UsbDeviceInfo]. *)
Section NewUsbTransport.

Variable UsbIfAddr : Type.

(** [dev.OpenUsbInterface(ifaddr)] *)
Variable OpenUsbInterface : UsbIfAddr -> result UsbInterface.

(** [transport.openUsbConn(index, ifaddr)]; when the interface does not open
    the connection has no interface, and none is closed. *)
Definition openUsbConn (index : nat) (ifaddr : UsbIfAddr) : result usbConn :=
  match OpenUsbInterface ifaddr with
  | Ok iface => Ok (mkConn index iface 0 0)
  | Err e => Err e
  end.

(** The loop that opens the connections; the new connection is sent to the
    pool and appended to [connList], where its position is its pointer. *)
Fixpoint openConns (i : nat) (IfAddrs : list UsbIfAddr) (t : UsbTransport)
    : UsbTransport * option error :=
  match IfAddrs with
  | [] => (t, None)
  | ifaddr :: IfAddrs =>
      match openUsbConn i ifaddr with
      | Err e => (t, Some e)
      | Ok conn =>
          openConns (S i) IfAddrs
            (mkTransport (connPool t ++ [length (connList t)]) (connPoolCap t)
               (connList t ++ [conn]) (connReleasedWaiting t) (shutdown t)
               (connstate t))
      end
  end.

(** [NewUsbTransport(desc)], given whether [UsbOpenDevice] and
    [dev.UsbDeviceInfo] fail; returns the transport or the error, and the
    calls made to clean up. *)
Definition NewUsbTransport (opened info : option error) (IfAddrs : list UsbIfAddr)
    : result UsbTransport * list devCall :=
  match opened with
  | Some e => (Err e, [])
  | None =>
      let transport :=
        mkTransport [] (length IfAddrs) [] false false
          (newUsbConnState (length IfAddrs)) in
      match info with
      | Some e => (Err e, [DevClose])
      | None =>
          match openConns 0 IfAddrs transport with
          | (transport, None) => (Ok transport, [])
          | (transport, Some e) =>
              (Err e, map (fun conn => IfaceClose (index conn)) (connList transport)
                        ++ [DevClose])
          end
      end
  end.

(** The interfaces that open before the first one that does not. *)
Fixpoint opened_prefix (IfAddrs : list UsbIfAddr) : list UsbInterface :=
  match IfAddrs with
  | [] => []
  | ifaddr :: IfAddrs =>
      match OpenUsbInterface ifaddr with
      | Ok iface => iface :: opened_prefix IfAddrs
      | Err _ => []
      end
  end.

(** The error of the first interface that does not open. *)
Fixpoint first_failure (IfAddrs : list UsbIfAddr) : option error :=
  match IfAddrs with
  | [] => None
  | ifaddr :: IfAddrs =>
      match OpenUsbInterface ifaddr with
      | Ok _ => first_failure IfAddrs
      | Err e => Some e
      end
  end.

End NewUsbTransport.

(** The transport while the connections are being opened, with those of
    [ifaces] open out of [n]. *)
Definition opening (n : nat) (ifaces : list UsbInterface) : UsbTransport :=
  mkTransport (seq 0 (length ifaces)) n
    (imap (fun i iface => mkConn i iface 0 0) ifaces) false false (newUsbConnState n).

(** ** RoundTrip

    [int(atomic.AddInt32(&httpSessionID, 1)-1) % 1000]: the new value of the
    [int32] counter and the session number. The subtraction is on [int32];
    [%] truncates towards zero. *)
Definition nextSession (httpSessionID : Z) : Z * Z :=
  let v := wrap32 (httpSessionID + 1) in
  (v, Z.rem (wrap32 (v - 1)) 1000).

(** [transport.RoundTrip(r)], with the session counter passed through. *)
Definition RoundTrip (env : Env) (httpSessionID : Z) (r : Request ReadCloser)
    : M (Z * result (Response usbResponseBodyWrapper)) :=
  let '(httpSessionID, session) := nextSession httpSessionID in
  let* resp := RoundTripWithSession env session r in
  ret (httpSessionID, resp).

(** ** Specification-side definitions for Shutdown and Close *)

(** The world with the shutdown flag set and the given receiver state. *)
Definition with_shutdown (w : World) (waiting : bool) : World :=
  mkWorld (mkTransport (connPool (transport w)) (connPoolCap (transport w))
             (connList (transport w)) waiting true (connstate (transport w)))
    (headers w) (goroutines w) (trace w).

(** A connection whose interface is closed. *)
Definition close_iface (c : usbConn) : usbConn :=
  mkConn (index c) (mkIface (rx (iface c)) (tx (iface c)) true) (cntRecv c) (cntSent c).

(** The connections with those at positions [i] to [i + k - 1] closed. *)
Definition close_range (i k : nat) (l : list usbConn) : list usbConn :=
  imap (fun q c => if bool_decide (i <= q < i + k)%nat then close_iface c else c) l.

(** * The logger

    The parts of [logger.go] that the transport reaches: the level mask
    ([SetLevels] in [NewUsbTransport], the test in [Add]), the trimming of a
    line when a message is flushed, and the rotation of the log file. *)

(** ** Log levels *)

Definition LogError : Z := 1.
Definition LogInfo : Z := 2.
Definition LogDebug : Z := 4.
Definition LogTraceIPP : Z := 8.
Definition LogTraceESCL : Z := 16.
Definition LogTraceHTTP : Z := 32.
Definition LogTraceUSB : Z := 64.
Definition LogTraceAll : Z :=
  Z.lor (Z.lor (Z.lor LogTraceIPP LogTraceESCL) LogTraceHTTP) LogTraceUSB.
Definition LogAll : Z := Z.lor (Z.lor (Z.lor LogError LogInfo) LogDebug) LogTraceAll.

(** [levels.Adjust()]: the first case of the [switch] that holds. *)
Definition LogLevel_Adjust (levels : Z) : Z :=
  if negb (Z.land levels LogTraceAll =? 0) then
    Z.lor levels (Z.lor (Z.lor LogDebug LogInfo) LogError)
  else if negb (Z.land levels LogDebug =? 0) then
    Z.lor levels (Z.lor LogInfo LogError)
  else if negb (Z.land levels LogInfo =? 0) then
    Z.lor levels LogError
  else levels.

(** The level masks of a [Logger]. *)
Record Logger : Type := mkLogger {
  levels : Z;      (* Levels generated by this logger *)
  ccLevels : Z     (* Sum of Cc's levels *)
}.

(** [NewLogger()] *)
Definition NewLogger : Logger := mkLogger LogAll 0.

(** [l.SetLevels(levels)] *)
Definition Logger_SetLevels (l : Logger) (lv : Z) : Logger :=
  mkLogger (LogLevel_Adjust lv) (ccLevels l).

(** [l.Cc(to)] *)
Definition Logger_Cc (l to : Logger) : Logger :=
  mkLogger (levels l) (Z.lor (ccLevels l) (levels to)).

(** The test of [Add]: [(msg.logger.levels|msg.logger.ccLevels)&level != 0]. *)
Definition generates (l : Logger) (level : Z) : bool :=
  negb (Z.land (Z.lor (levels l) (ccLevels l)) level =? 0).

(** The test of [Flush] for the logger's own output:
    [l.level&msg.logger.levels != 0]. *)
Definition writes (l : Logger) (level : Z) : bool :=
  negb (Z.land level (levels l) =? 0).

(** ** Line buffers *)

(** The bytes that [trim] takes for space:
    ['\t', '\n', '\v', '\f', '\r', ' ', 0x85, 0xA0]. *)
Definition isSpace (c : Byte.byte) : bool :=
  match c with
  | Byte.x09 | Byte.x0a | Byte.x0b | Byte.x0c | Byte.x0d | Byte.x20
  | Byte.x85 | Byte.xa0 => true
  | _ => false
  end.

(** The loop of [trim], from [i]; [i] never exceeds the length, so that
    [bytes[i-1]] is in range. *)
Fixpoint trim_loop (bytes : list Byte.byte) (i : nat) : nat :=
  match i with
  | O => O
  | S j =>
      match bytes !! j with
      | Some c => if isSpace c then trim_loop bytes j else i
      | None => i
      end
  end.

(** [buf.trim()] *)
Definition logLineBuf_trim (buf : list Byte.byte) : list Byte.byte :=
  take (trim_loop buf (length buf)) buf.

(** [buf.empty()] *)
Definition logLineBuf_empty (buf : list Byte.byte) : bool :=
  (length buf =? 0)%nat.

(** ** Rotation of the log file *)

(** Errors of the file operations. *)
Inductive PathError : Type :=
| ErrNotExist
| ErrIO (code : nat).

(** The files are a map from path to content. [os.Remove], [os.Rename] and
    [file.Truncate] as the operating system does them; [rotate] ignores
    their errors. *)
Definition os_Remove (name : string) (fs : gmap string (list Byte.byte))
    : gmap string (list Byte.byte) :=
  delete name fs.

Definition os_Rename (oldpath newpath : string) (fs : gmap string (list Byte.byte))
    : gmap string (list Byte.byte) :=
  match fs !! oldpath with
  | Some data => <[newpath := data]> (delete oldpath fs)
  | None => fs
  end.

Definition file_Truncate (name : string) (fs : gmap string (list Byte.byte))
    : gmap string (list Byte.byte) :=
  <[name := []]> fs.

(** What [gzip] meets besides the files: failures of opening the input and
    of creating the output although the files allow it, the errors of
    [io.Copy], [w.Close] and [ofile.Close], and the compression. *)
Record GzipEnv : Type := mkGzipEnv {
  gz_open : option PathError;
  gz_create : option PathError;
  gz_copy : option PathError;
  gz_wclose : option PathError;
  gz_fclose : option PathError;
  compress : list Byte.byte -> list Byte.byte
}.

(** [l.gzip(ipath, opath)] *)
Definition Logger_gzip (env : GzipEnv) (ipath opath : string)
    (fs : gmap string (list Byte.byte))
    : option PathError * gmap string (list Byte.byte) :=
  (* Open input file *)
  match fs !! ipath, gz_open env with
  | None, _ => (Some ErrNotExist, fs)
  | Some _, Some e => (Some e, fs)
  | Some data, None =>
      (* Open output file *)
      match gz_create env with
      | Some e => (Some e, fs)
      | None =>
          (* gzip ifile->ofile *)
          let fs := <[opath := compress env data]> fs in
          let err := gz_copy env in
          let err2 := gz_wclose env in
          let err3 := gz_fclose env in
          let err :=
            match err, err2, err3 with
            | None, Some e2, _ => Some e2
            | None, None, Some e3 => Some e3
            | _, _, _ => err
            end in
          (* Cleanup and exit *)
          match err with
          | Some e => (Some e, os_Remove opath fs)
          | None => (None, fs)
          end
      end
  end.

(** [fmt.Sprintf("%s.%d.gz", l.path, i)] *)
Definition backupPath (path : string) (i : nat) : string :=
  path +:+ "." +:+ fmt_d i +:+ ".gz".

(** The loop [for i := Conf.LogMaxBackupFiles; i > 0; i--] of [rotate],
    from [i], with [N] for [Conf.LogMaxBackupFiles]. *)
Fixpoint rotate_loop (path : string) (N i : nat) (prevpath : string)
    (fs : gmap string (list Byte.byte))
    : string * gmap string (list Byte.byte) :=
  match i with
  | O => (prevpath, fs)
  | S j =>
      let nextpath := backupPath path j in
      let fs :=
        if (i =? N)%nat then os_Remove nextpath fs
        else os_Rename nextpath prevpath fs in
      rotate_loop path N j nextpath fs
  end.

(** [l.rotate()] for a logger that writes to the file [path]; [isFile] says
    whether [l.out] is an [*os.File], [stat] is the error of [file.Stat()],
    and the size is that of the file. *)
Definition Logger_rotate (LogMaxFileSize : Z) (LogMaxBackupFiles : nat)
    (env : GzipEnv) (isFile : bool) (stat : option PathError) (path : string)
    (fs : gmap string (list Byte.byte)) : gmap string (list Byte.byte) :=
  (* Do we need to rotate? *)
  if negb isFile then fs
  else
    match stat, fs !! path with
    | Some _, _ => fs
    | None, None => fs
    | None, Some data =>
        if Z.of_nat (length data) <=? LogMaxFileSize then fs
        else
          (* Perform rotation *)
          if (0 <? LogMaxBackupFiles)%nat then
            let '(prevpath, fs) :=
              rotate_loop path LogMaxBackupFiles LogMaxBackupFiles EmptyString fs in
            match Logger_gzip env path prevpath fs with
            | (Some _, fs) => fs
            | (None, fs) => file_Truncate path fs
            end
          else file_Truncate path fs
    end.

(** Whether some step of [gzip] fails, given that the input file exists. *)
Definition gzip_fails (env : GzipEnv) : bool :=
  match gz_open env, gz_create env, gz_copy env, gz_wclose env, gz_fclose env with
  | None, None, None, None, None => false
  | _, _, _, _, _ => true
  end.

(** * Proofs *)

(** ** The state tracker *)

Lemma string_app_cons (c : ascii) (s1 s2 : string) :
  String c s1 +:+ s2 = String c (s1 +:+ s2).
Proof. reflexivity. Qed.

Lemma string_app_assoc (s1 s2 s3 : string) : (s1 +:+ s2) +:+ s3 = s1 +:+ (s2 +:+ s3).
Proof.
  induction s1 as [|c s1 IH]; [reflexivity|].
  by rewrite !string_app_cons, IH.
Qed.

Lemma string_app_nil_r (s : string) : s +:+ EmptyString = s.
Proof.
  induction s as [|c s IH]; [reflexivity|].
  by rewrite string_app_cons, IH.
Qed.

Lemma lor3_eq_0 (a r w : Z) :
  Z.lor (Z.lor a r) w = 0 <-> a = 0 /\ r = 0 /\ w = 0.
Proof. rewrite !Z.lor_eq_0_iff. tauto. Qed.

Lemma String_step_spec (a r w : Z) (buf : string) (used : nat) :
  String_step a r w buf used =
    (append_group buf (spec_flags a r w),
     if in_use (a, r, w) then S used else used).
Proof.
  unfold String_step, append_group, spec_flags, in_use; simpl.
  destruct (Z.eqb_spec (Z.lor (Z.lor a r) w) 0) as [H0 | Hn].
  - apply lor3_eq_0 in H0 as (-> & -> & ->). reflexivity.
  - assert (negb ((a =? 0) && (r =? 0) && (w =? 0)) = true) as ->.
    { apply negb_true_iff, not_true_is_false. intros H.
      apply Hn, lor3_eq_0. repeat (apply andb_prop in H as [H ?]). lia. }
    destruct (a =? 0), (r =? 0), (w =? 0); simpl;
      rewrite !string_app_assoc; reflexivity.
Qed.

Lemma String_loop_spec (state : usbConnState) (k i : nat) (buf : string) (used : nat) :
  length (read state) = length (alloc state) ->
  length (write state) = length (alloc state) ->
  (i + k <= length (alloc state))%nat ->
  String_loop state (seq i k) buf used =
    Some (foldl append_group buf (take k (drop i (spec_groups state))),
          (used + length (filter (fun c => in_use c = true)
                            (take k (drop i (counters state)))))%nat).
Proof.
  intros Hr Hw. revert i buf used.
  induction k as [|k IH]; intros i buf used Hik; simpl.
  - by rewrite Nat.add_0_r.
  - destruct (lookup_lt_is_Some_2 (alloc state) i) as [a Ha]; [lia|].
    destruct (lookup_lt_is_Some_2 (read state) i) as [r Hrd]; [lia|].
    destruct (lookup_lt_is_Some_2 (write state) i) as [w Hwr]; [lia|].
    rewrite Ha, Hrd, Hwr; simpl.
    rewrite String_step_spec, IH by lia.
    assert (counters state !! i = Some (a, r, w)) as Hc.
    { unfold counters. rewrite !lookup_zip_with, Ha, Hrd, Hwr. reflexivity. }
    assert (drop i (counters state) = (a, r, w) :: drop (S i) (counters state)) as Hd.
    { by apply drop_S. }
    unfold spec_groups. rewrite <- !fmap_drop, Hd; simpl.
    rewrite filter_cons. f_equal. f_equal.
    destruct (decide (in_use (a, r, w) = true)) as [E | E].
    + rewrite E. simpl. lia.
    + apply not_true_is_false in E. rewrite E. reflexivity.
Qed.

Lemma foldl_append_group_nonempty (groups : list string) (buf : string) :
  buf <> EmptyString ->
  foldl append_group buf groups =
    buf +:+ foldr (fun g acc => " " +:+ g +:+ acc) EmptyString groups.
Proof.
  revert buf. induction groups as [|g groups IH]; intros buf Hbuf; simpl.
  - by rewrite string_app_nil_r.
  - assert (append_group buf g = buf +:+ " " +:+ g) as Hg.
    { unfold append_group. destruct buf; [done|]. simpl.
      by rewrite string_app_assoc. }
    rewrite IH.
    + rewrite Hg. rewrite !string_app_assoc. reflexivity.
    + rewrite Hg. destruct buf; [done|]. rewrite string_app_cons. discriminate.
Qed.

Lemma join_space_cons (g : string) (groups : list string) :
  join_space (g :: groups) = g +:+ foldr (fun g acc => " " +:+ g +:+ acc) EmptyString groups.
Proof.
  revert g. induction groups as [|g' groups IH]; intros g.
  - simpl. by rewrite string_app_nil_r.
  - change (join_space (g :: g' :: groups)) with (g +:+ " " +:+ join_space (g' :: groups)).
    rewrite IH. reflexivity.
Qed.

Lemma foldl_append_group_join (groups : list string) :
  Forall (fun g => g <> EmptyString) groups ->
  foldl append_group EmptyString groups = join_space groups.
Proof.
  destruct groups as [|g groups]; [done|].
  intros Hne. apply Forall_cons in Hne as [Hg _].
  rewrite join_space_cons.
  change (foldl append_group EmptyString (g :: groups))
    with (foldl append_group (append_group EmptyString g) groups).
  assert (append_group EmptyString g = g) as -> by reflexivity.
  by rewrite foldl_append_group_nonempty.
Qed.

(** C8. The string form of the tracker is "<N> in use: <flags>": N is the
    number of connections whose counters are not all zero, printed in
    decimal, and the flags are one group per connection index, in index
    order, each group being exactly the three characters 'a' or '-' (alloc),
    'r' or '-' (read), 'w' or '-' (write); neighbouring groups are
    separated by one space. The three counter slices have one length, as
    [newUsbConnState] makes them. *)
Theorem String_format (state : usbConnState) :
  length (read state) = length (alloc state) ->
  length (write state) = length (alloc state) ->
  usbConnState_String state =
    Some (fmt_d (spec_used state) +:+ " in use: " +:+ join_space (spec_groups state))
  /\ length (spec_groups state) = length (alloc state)
  /\ (forall i g, spec_groups state !! i = Some g ->
        exists a r w,
          alloc state !! i = Some a /\ read state !! i = Some r /\
          write state !! i = Some w /\
          g = String (if a =? 0 then "-"%char else "a"%char)
                (String (if r =? 0 then "-"%char else "r"%char)
                   (String (if w =? 0 then "-"%char else "w"%char) EmptyString)))
  /\ spec_used state =
       length (filter (fun c : Z * Z * Z => ~ (c.1.1 = 0 /\ c.1.2 = 0 /\ c.2 = 0))
                 (counters state)).
Proof.
  intros Hr Hw.
  assert (length (counters state) = length (alloc state)) as Hlen.
  { unfold counters. rewrite !length_zip_with. lia. }
  split; [|split; [|split]].
  - unfold usbConnState_String.
    rewrite (String_loop_spec state (length (alloc state)) 0) by (done || lia).
    simpl. rewrite !drop_0.
    rewrite !firstn_all2 by (unfold spec_groups; rewrite ?length_fmap; lia).
    rewrite foldl_append_group_join; [done|].
    unfold spec_groups. apply Forall_fmap, Forall_forall. intros c _. done.
  - unfold spec_groups. by rewrite length_fmap.
  - intros i g Hg. unfold spec_groups in Hg.
    rewrite list_lookup_fmap in Hg.
    destruct (counters state !! i) as [[[a r] w]|] eqn:Hc; [|done].
    simpl in Hg. injection Hg as <-.
    unfold counters in Hc. rewrite !lookup_zip_with in Hc.
    destruct (alloc state !! i) as [a'|]; [|done]. simpl in Hc.
    destruct (read state !! i) as [r'|]; [|done]. simpl in Hc.
    destruct (write state !! i) as [w'|]; [|done]. simpl in Hc.
    injection Hc as -> -> ->. by exists a, r, w.
  - unfold spec_used. f_equal. apply list_filter_iff. intros [[a r] w]. simpl.
    unfold in_use. simpl.
    rewrite negb_true_iff, andb_false_iff, andb_false_iff, !Z.eqb_neq. lia.
Qed.

Lemma String_format_witness :
  usbConnState_String (mkConnState [0; 1; 0] [0; 0; 2] [0; 1; 0]) =
    Some "2 in use: --- a-w -r-".
Proof.
  pose proof (String_format (mkConnState [0; 1; 0] [0; 0; 2] [0; 1; 0])
                eq_refl eq_refl) as [H _].
  exact H.
Defined.

(** ** usbConn.Read *)

Lemma nextBackoff_capped : nextBackoff (1000 * Millisecond) = 1000 * Millisecond.
Proof. vm_compute. reflexivity. Qed.

Lemma nextBackoff_iter_capped (i : nat) :
  Nat.iter (4 + i) nextBackoff (Millisecond * 100) = 1000 * Millisecond.
Proof.
  induction i as [|i IH].
  - vm_compute. reflexivity.
  - replace (4 + S i)%nat with (S (4 + i)) by lia.
    rewrite Nat.iter_succ, IH. apply nextBackoff_capped.
Qed.

Lemma spec_backoff_capped (i : nat) : spec_backoff (4 + i) = 1000 * Millisecond.
Proof.
  unfold spec_backoff. f_equal. apply Z.min_r.
  rewrite Nat2Z.inj_add, Z.pow_add_r by lia.
  assert (1 <= 2 ^ Z.of_nat i) by (apply Z.pow_le_mono_r with (b := 0); lia).
  change (2 ^ Z.of_nat 4) with 16. nia.
Qed.

Lemma nextBackoff_iter (i : nat) :
  Nat.iter i nextBackoff (Millisecond * 100) = spec_backoff i.
Proof.
  do 4 (destruct i as [|i]; [vm_compute; reflexivity|]).
  change (S (S (S (S i)))) with (4 + i)%nat.
  by rewrite nextBackoff_iter_capped, spec_backoff_capped.
Qed.

Lemma Read_loop_zero_reads (idx : nat) (b : Z) (zs : list transfer) (recv : transfer)
    (rest : list transfer) (n : Z) (err : option error) (j : nat) (cnt : Z) :
  Forall (fun z : transfer => z b = (0, None)) zs ->
  recv b = (n, err) ->
  n <> 0 \/ err <> None ->
  exists cnt',
    Read_loop idx b (Nat.iter j nextBackoff (Millisecond * 100)) (zs ++ recv :: rest) cnt =
      (Some (n, err), rest, cnt',
       flat_map (zeroRead idx b) (seq j (length zs)) ++ [EvRecv idx b n]).
Proof.
  intros Hz Hrecv Hdata. revert j cnt.
  induction Hz as [|z zs Hz0 _ IH]; intros j cnt; simpl.
  - rewrite Hrecv.
    assert (negb (n =? 0) || bool_decide (is_Some err) = true) as ->.
    { destruct Hdata as [Hn | He].
      - apply Z.eqb_neq in Hn. by rewrite Hn.
      - destruct err; [|done]. rewrite bool_decide_true by eauto.
        apply orb_true_r. }
    eauto.
  - rewrite Hz0. simpl.
    destruct (IH (S j) (wrap64 (cnt + 0))) as [cnt' Heq].
    simpl in Heq. rewrite Heq.
    exists cnt'. unfold zeroRead at 1. rewrite nextBackoff_iter. reflexivity.
Qed.

Lemma sleepTotal_app (evs1 evs2 : list event) :
  sleepTotal (evs1 ++ evs2) = sleepTotal evs1 + sleepTotal evs2.
Proof.
  induction evs1 as [|ev evs1 IH]; simpl; [lia|].
  destruct ev; simpl; lia.
Qed.

Lemma spec_backoff_pos (i : nat) : 0 < spec_backoff i.
Proof.
  unfold spec_backoff, Millisecond.
  assert (0 < 2 ^ Z.of_nat i) by (apply Z.pow_pos_nonneg; lia). lia.
Qed.

Lemma sleepTotal_zero_reads_nonneg (idx : nat) (b : Z) (j k : nat) :
  0 <= sleepTotal (flat_map (zeroRead idx b) (seq j k)).
Proof.
  revert j. induction k as [|k IH]; intros j; simpl; [lia|].
  pose proof (spec_backoff_pos j). pose proof (IH (S j)). lia.
Qed.

Lemma clearHalts_zero_reads (idx : nat) (b : Z) (j k : nat) (n : Z) :
  clearHalts (flat_map (zeroRead idx b) (seq j k) ++ [EvRecv idx b n]) = k.
Proof.
  revert j. induction k as [|k IH]; intros j; [reflexivity|].
  simpl. by rewrite IH.
Qed.

(** C5. A Read whose first [k] bulk-in transfers succeed with zero bytes and
    whose next transfer brings data or an error returns exactly that
    transfer's result, after doing, for each zero-size read in turn, a
    clear-halt on the input endpoint and a sleep of the backoff, then the
    retry. The backoff is 100 ms at first, doubles after every zero-size read
    and stays at 1 s once it would exceed it. With [k = 0] the result of the
    transfer is returned at once, with no clear-halt and no sleep; from
    three zero-size reads on, three clear-halts or more were issued and the
    sleeps add up to at least 100 + 200 + 400 ms. *)
Theorem Read_zero_read_recovery (w : World) (p : nat) (conn : usbConn) (v : Z)
    (blen : Z) (zs : list transfer) (recv : transfer) (rest : list transfer)
    (n : Z) (err : option error) :
  connList (transport w) !! p = Some conn ->
  read (connstate (transport w)) !! index conn = Some v ->
  rx (iface conn) = zs ++ recv :: rest ->
  Forall (fun z : transfer => z (alignRead blen) = (0, None)) zs ->
  recv (alignRead blen) = (n, err) ->
  n <> 0 \/ err <> None ->
  exists w' evs,
    usbConn_Read p blen w = Returns (n, err) w' /\
    trace w' = trace w ++ evs /\
    evs = flat_map (zeroRead (index conn) (alignRead blen)) (seq 0 (length zs))
            ++ [EvRecv (index conn) (alignRead blen) n] /\
    clearHalts evs = length zs /\
    (zs = [] -> evs = [EvRecv (index conn) (alignRead blen) n]) /\
    ((3 <= length zs)%nat -> (100 + 200 + 400) * Millisecond <= sleepTotal evs) /\
    spec_backoff 0 = 100 * Millisecond /\
    (forall i, spec_backoff (S i) = Z.min (2 * spec_backoff i) (1000 * Millisecond)).
Proof.
  intros Hconn Hread Hrx Hz Hrecv Hdata.
  destruct (Read_loop_zero_reads (index conn) (alignRead blen) zs recv rest n err
              0 (cntRecv conn) Hz Hrecv Hdata) as [cnt' Hloop].
  simpl in Hloop.
  cbv [usbConn_Read bind getConn getTransport updConnState setConn
         setTransport emit ret panic beginRead doneRead addInt32].
  rewrite Hconn; simpl. rewrite Hread; simpl.
  rewrite Hrx, Hloop; simpl.
  rewrite list_lookup_insert_eq by (by eapply lookup_lt_Some). simpl.
  eexists _, _. split; [reflexivity|]. simpl.
  split; [reflexivity|]. split; [reflexivity|].
  split; [apply clearHalts_zero_reads|].
  split; [by intros ->|]. split; [|split].
  - intros Hk.
    destruct zs as [|z1 [|z2 [|z3 zs]]]; simpl in Hk; try lia.
    change (length (z1 :: z2 :: z3 :: zs)) with (3 + length zs)%nat.
    rewrite seq_app, flat_map_app, <- app_assoc, sleepTotal_app.
    pose proof (sleepTotal_zero_reads_nonneg (index conn) (alignRead blen)
                  (0 + 3) (length zs)).
    rewrite sleepTotal_app. simpl sleepTotal at 3.
    change (sleepTotal (flat_map (zeroRead (index conn) (alignRead blen)) (seq 0 3)))
      with (700 * Millisecond).
    unfold Millisecond in *. lia.
  - reflexivity.
  - intros i. unfold spec_backoff, Millisecond.
    replace (Z.of_nat (S i)) with (Z.of_nat i + 1) by lia.
    rewrite Z.pow_add_r by lia.
    assert (0 < 2 ^ Z.of_nat i) by (apply Z.pow_pos_nonneg; lia). lia.
Qed.

Lemma Read_zero_read_recovery_witness :
  exists w' evs,
    usbConn_Read 0 4096 Demo.world = Returns (100, None) w' /\
    trace w' = evs /\
    clearHalts evs = 3%nat /\
    (100 + 200 + 400) * Millisecond <= sleepTotal evs.
Proof.
  destruct (Read_zero_read_recovery Demo.world 0 Demo.conn0 0 4096
              [Demo.zero; Demo.zero; Demo.zero] (Demo.data 100) [] 100 None
              eq_refl eq_refl eq_refl)
    as (w' & evs & HRead & Htrace & _ & Hhalts & _ & Hsleep & _).
  - repeat constructor.
  - reflexivity.
  - left. lia.
  - exists w', evs. split; [exact HRead|]. split; [exact Htrace|].
    split; [exact Hhalts|]. apply Hsleep. simpl. lia.
Defined.

Lemma alignRead_spec (n : Z) :
  512 <= n -> alignRead n = 512 * (n / 512).
Proof.
  intros Hn. unfold alignRead.
  destruct (Z.geb_spec n 512) as [_ | ?]; [|lia].
  rewrite <- Z.ldiff_land.
  change 511 with (Z.ones 9).
  rewrite Z.ldiff_ones_r by lia.
  rewrite Z.shiftl_mul_pow2, Z.shiftr_div_pow2 by lia.
  change (2 ^ 9) with 512. lia.
Qed.

Lemma alignRead_small (n : Z) : n < 512 -> alignRead n = n.
Proof.
  intros Hn. unfold alignRead.
  destruct (Z.geb_spec n 512) as [? | _]; [lia | reflexivity].
Qed.

(** The events of the loop: zero-size reads, each retried with the same
    buffer, and then the transfer the loop returns with, if it returns. *)
Lemma Read_loop_shape (idx : nat) (b : Z) (rx : list transfer) (j : nat) (cnt : Z) :
  exists k last,
    (Read_loop idx b (Nat.iter j nextBackoff (Millisecond * 100)) rx cnt).2 =
      flat_map (zeroRead idx b) (seq j k) ++ last /\
    match (Read_loop idx b (Nat.iter j nextBackoff (Millisecond * 100)) rx cnt).1.1.1 with
    | Some (n, _) => last = [EvRecv idx b n] /\ (k < length rx)%nat
    | None => last = [] /\ k = length rx
    end.
Proof.
  revert j cnt. induction rx as [|recv rx IH]; intros j cnt; simpl.
  - by exists 0%nat, [].
  - destruct (recv b) as [n err] eqn:Hrecv.
    destruct (negb (n =? 0) || bool_decide (is_Some err)) eqn:Hdata; simpl.
    + exists 0%nat, [EvRecv idx b n]. split; [done|]. split; [done | lia].
    + destruct (IH (S j) (wrap64 (cnt + n))) as (k & last & Hevs & Hlast).
      simpl in Hevs, Hlast.
      destruct (Read_loop idx b _ rx _) as [[[r rx'] cnt'] evs]. simpl in *.
      exists (S k), last. split.
      * apply orb_false_iff in Hdata as [Hn _].
        apply negb_false_iff, Z.eqb_eq in Hn. subst n.
        simpl. unfold zeroRead at 1. rewrite nextBackoff_iter, Hevs. reflexivity.
      * destruct r as [[n' err']|]; destruct Hlast as [Hl Hk]; (split; [done | lia]).
Qed.

(** C6. A Read on a valid connection with a caller buffer of [blen] bytes,
    the device having a transfer pending. The buffer handed to the USB layer
    has [alignRead blen] bytes: for [blen >= 512] that is the largest
    multiple of 512 not exceeding [blen], for [blen < 512] it is [blen]
    itself. The first event of the Read is the receive on this connection
    with that length, and so is every receive of the Read: the events are
    zero-size reads, each retried with the same length, and then, exactly
    when the Read returns, the one receive whose byte count it returns.
    The buffer is cut, not split: when the first transfer brings data or an
    error the Read returns it after this single transfer, and the rest of
    the caller's buffer is not covered by a further one. *)
Theorem Read_alignment (p : nat) (blen : Z) (w : World) (conn : usbConn) (v : Z)
    (recv : transfer) (rest : list transfer) :
  connList (transport w) !! p = Some conn ->
  read (connstate (transport w)) !! index conn = Some v ->
  rx (iface conn) = recv :: rest ->
  (512 <= blen ->
     alignRead blen = 512 * (blen / 512) /\
     512 <= alignRead blen <= blen /\ blen < alignRead blen + 512) /\
  (blen < 512 -> alignRead blen = blen) /\
  (exists evs,
     trace (world_of (usbConn_Read p blen w)) =
       trace w ++ EvRecv (index conn) (alignRead blen) (recv (alignRead blen)).1 :: evs) /\
  (exists k last,
     trace (world_of (usbConn_Read p blen w)) =
       trace w ++ flat_map (zeroRead (index conn) (alignRead blen)) (seq 0 k) ++ last /\
     ((exists n err w',
         usbConn_Read p blen w = Returns (n, err) w' /\
         last = [EvRecv (index conn) (alignRead blen) n] /\ (k <= length rest)%nat) \/
      (exists w',
         usbConn_Read p blen w = Blocks w' /\ last = [] /\ k = S (length rest)))) /\
  ((recv (alignRead blen)).1 <> 0 \/ is_Some (recv (alignRead blen)).2 ->
     exists w',
       usbConn_Read p blen w = Returns (recv (alignRead blen)) w' /\
       trace w' = trace w ++ [EvRecv (index conn) (alignRead blen) (recv (alignRead blen)).1]).
Proof.
  intros Hconn Hread Hrx.
  split; [|split; [|split; [|split]]].
  - intros Hn. rewrite alignRead_spec by done.
    pose proof (Z.div_mod blen 512 ltac:(lia)).
    pose proof (Z.mod_pos_bound blen 512 ltac:(lia)).
    assert (1 <= blen / 512) by (apply Z.div_le_lower_bound; lia).
    lia.
  - apply alignRead_small.
  - cbv [usbConn_Read bind getConn getTransport updConnState setConn
           setTransport emit ret panic block beginRead doneRead addInt32].
    rewrite Hconn. simpl. rewrite Hread. simpl. rewrite Hrx. simpl.
    destruct (recv (alignRead blen)) as [n err]. simpl.
    destruct (negb (n =? 0) || bool_decide (is_Some err)); simpl.
    + rewrite list_lookup_insert_eq by (by eapply lookup_lt_Some). simpl. by exists [].
    + destruct (Read_loop (index conn) (alignRead blen) _ rest _) as [[[r rx'] cnt'] evs].
      destruct r as [r|]; simpl.
      * rewrite list_lookup_insert_eq by (by eapply lookup_lt_Some). simpl. by eexists.
      * by eexists.
  - cbv [usbConn_Read bind getConn getTransport updConnState setConn
           setTransport emit ret panic block beginRead doneRead addInt32].
    rewrite Hconn. simpl. rewrite Hread. simpl.
    destruct (Read_loop_shape (index conn) (alignRead blen) (rx (iface conn)) 0
                (cntRecv conn)) as (k & last & Hevs & Hlast).
    simpl in Hevs, Hlast.
    destruct (Read_loop (index conn) (alignRead blen) (Millisecond * 100)
                (rx (iface conn)) (cntRecv conn)) as [[[r rx'] cnt'] evs].
    simpl in Hevs, Hlast. subst evs. rewrite Hrx in Hlast. simpl in Hlast.
    exists k, last.
    destruct r as [[n err]|]; simpl; destruct Hlast as [-> Hk].
    + rewrite list_lookup_insert_eq by (by eapply lookup_lt_Some). simpl.
      split; [reflexivity|]. left. eexists n, err, _.
      split; [reflexivity|]. split; [done | lia].
    + split; [reflexivity|]. right. eexists. by split.
  - intros Hdata.
    cbv [usbConn_Read bind getConn getTransport updConnState setConn
           setTransport emit ret panic block beginRead doneRead addInt32].
    rewrite Hconn. simpl. rewrite Hread. simpl. rewrite Hrx. simpl.
    destruct (recv (alignRead blen)) as [n err]. simpl in *.
    assert (negb (n =? 0) || bool_decide (is_Some err) = true) as ->.
    { destruct Hdata as [Hn | Herr].
      - destruct (Z.eqb_spec n 0); [done | by simpl].
      - rewrite (bool_decide_true _ Herr). by rewrite orb_true_r. }
    simpl. rewrite list_lookup_insert_eq by (by eapply lookup_lt_Some). simpl.
    by eexists.
Qed.

Lemma Read_alignment_witness :
  (exists w',
     usbConn_Read 1 1000 Demo.world = Returns (5, None) w' /\
     trace w' = [EvRecv 1 512 5]) /\
  (exists evs,
     trace (world_of (usbConn_Read 0 4099 Demo.world)) = EvRecv 0 4096 0 :: evs).
Proof.
  split.
  - destruct (Read_alignment 1 1000 Demo.world Demo.conn1 0 (Demo.data 5) [])
      as (_ & _ & _ & _ & Hone); [reflexivity | reflexivity | reflexivity |].
    destruct Hone as (w' & HRead & Htrace); [left; discriminate|].
    exists w'. split; [exact HRead | exact Htrace].
  - destruct (Read_alignment 0 4099 Demo.world Demo.conn0 0 Demo.zero
                [Demo.zero; Demo.zero; Demo.data 100])
      as (_ & _ & Hfirst & _); [reflexivity | reflexivity | reflexivity |].
    exact Hfirst.
Defined.

(** ** usbConnGet *)


Lemma elem_of_readyCases (t : UsbTransport) (c : Context) (sc : selectCase) :
  sc ∈ readyCases t c ->
  match sc with
  | CaseShutdown => shutdown t = true
  | CaseDone => is_Some c
  | CaseConn => connPool t <> []
  end.
Proof.
  unfold readyCases. intros Hin.
  destruct (shutdown t), c, (connPool t); destruct sc; simpl in Hin;
    try done; try (by eexists);
    repeat (apply elem_of_cons in Hin as [Hin | Hin]; [done|]);
    by apply elem_of_nil in Hin.
Qed.




(** ** Frame lemmas *)

Lemma extends_refl (P : event -> Prop) (w : World) : extends P w w.
Proof. exists []. by rewrite app_nil_r. Qed.

Lemma extends_trans (P : event -> Prop) (w1 w2 w3 : World) :
  extends P w1 w2 -> extends P w2 w3 -> extends P w1 w3.
Proof.
  intros (evs1 & H1 & HP1) (evs2 & H2 & HP2).
  exists (evs1 ++ evs2). split.
  - by rewrite H2, H1, app_assoc.
  - by apply Forall_app.
Qed.

Lemma extends_weaken (P Q : event -> Prop) (w w' : World) :
  (forall ev, P ev -> Q ev) -> extends P w w' -> extends Q w w'.
Proof.
  intros HPQ (evs & H & HP). exists evs. split; [done|].
  eapply Forall_impl; eauto.
Qed.

#[local] Instance hdr_frame_preorder (P : event -> Prop) : PreOrder (hdr_frame P).
Proof.
  split.
  - intros w. split; [done | apply extends_refl].
  - intros w1 w2 w3 [H1 E1] [H2 E2]. split; [congruence|].
    by eapply extends_trans.
Qed.

#[local] Instance conn_frame_preorder (P : event -> Prop) : PreOrder (conn_frame P).
Proof.
  split.
  - intros w. split_and!; try done. apply extends_refl.
  - intros w1 w2 w3 (A1 & B1 & C1 & D1 & E1 & F1 & G1 & H1 & I1)
      (A2 & B2 & C2 & D2 & E2 & F2 & G2 & H2 & I2).
    split_and!; try congruence; try (intros q; by rewrite H2, H1).
    by eapply extends_trans.
Qed.

#[local] Instance trace_frame_preorder (P : event -> Prop) : PreOrder (trace_frame P).
Proof.
  split.
  - intros w. split_and!; try done. apply extends_refl.
  - intros w1 w2 w3 (A1 & B1 & C1 & D1) (A2 & B2 & C2 & D2).
    split_and!; try congruence. by eapply extends_trans.
Qed.

Lemma conn_frame_hdr (P : event -> Prop) (w w' : World) :
  conn_frame P w w' -> hdr_frame P w w'.
Proof. intros (A & _ & _ & _ & _ & _ & _ & _ & I). by split. Qed.

Lemma trace_frame_hdr (P : event -> Prop) (w w' : World) :
  trace_frame P w w' -> hdr_frame P w w'.
Proof. intros (_ & A & _ & I). by split. Qed.

Lemma hdr_frame_weaken (P Q : event -> Prop) (w w' : World) :
  (forall ev, P ev -> Q ev) -> hdr_frame P w w' -> hdr_frame Q w w'.
Proof. intros HPQ [A I]. split; [done|]. by eapply extends_weaken. Qed.

Lemma conn_frame_weaken (P Q : event -> Prop) (w w' : World) :
  (forall ev, P ev -> Q ev) -> conn_frame P w w' -> conn_frame Q w w'.
Proof.
  intros HPQ (A & B & C & D & E & F & G & H & I).
  split_and!; try done. by eapply extends_weaken.
Qed.

(** The rule for sequencing: [k] may rely on [c] having returned. *)
Lemma bind_rel {A B} (R : relation World) `{!Transitive R}
    (c : M A) (k : A -> M B) (w : World) :
  R w (world_of (c w)) ->
  (forall a w1, c w = Returns a w1 -> R w1 (world_of (k a w1))) ->
  R w (world_of (bind c k w)).
Proof.
  intros Hc Hk. unfold bind.
  destruct (c w) as [a w1 | w1 | w1] eqn:E; simpl in *; [|done..].
  etrans; [exact Hc|]. by apply Hk.
Qed.

Ltac solve_extends :=
  eexists; split;
  [ simpl; rewrite <- ?app_assoc; first [reflexivity | symmetry; apply app_nil_r]
  | repeat (apply Forall_cons; split; [exact I|]); try apply Forall_nil; eauto ].

Lemma Read_loop_transfers (idx : nat) (b backoff : Z) (rx : list transfer) (cnt : Z) :
  Forall is_transfer (Read_loop idx b backoff rx cnt).2.
Proof.
  revert backoff cnt. induction rx as [|recv rx IH]; intros backoff cnt; simpl.
  - constructor.
  - destruct (recv b) as [n err].
    destruct (negb (n =? 0) || bool_decide (is_Some err)); simpl.
    + by repeat constructor.
    + specialize (IH (nextBackoff backoff) (wrap64 (cnt + n))).
      destruct (Read_loop idx b _ rx _) as [[[r rx'] cnt'] evs]. simpl in *.
      by repeat constructor.
Qed.

Lemma lookup_insert_conn_id (l : list usbConn) (p q : nat) (c c' : usbConn) :
  l !! p = Some c -> conn_id c' = conn_id c ->
  conn_id <$> (<[p := c']> l) !! q = conn_id <$> l !! q.
Proof.
  intros Hp Hid. destruct (decide (p = q)) as [<- | Hne].
  - rewrite list_lookup_insert_eq by (by eapply lookup_lt_Some).
    rewrite Hp. simpl. by rewrite Hid.
  - by rewrite list_lookup_insert_ne.
Qed.

Lemma usbConn_Read_frame (p : nat) (blen : Z) (w : World) :
  conn_frame is_transfer w (world_of (usbConn_Read p blen w)).
Proof.
  cbv [usbConn_Read bind getConn getTransport updConnState setConn
         setTransport emit ret panic block beginRead doneRead addInt32].
  destruct (connList (transport w) !! p) as [conn|] eqn:Hconn; simpl; [|reflexivity].
  destruct (read (connstate (transport w)) !! index conn) as [v|] eqn:Hread; simpl;
    [|reflexivity].
  pose proof (Read_loop_transfers (index conn) (alignRead blen) (Millisecond * 100)
                (rx (iface conn)) (cntRecv conn)) as Hevs.
  destruct (Read_loop _ _ _ _ _) as [[[r rx'] cnt'] evs]. simpl in Hevs.
  destruct r as [r|]; simpl.
  - rewrite list_lookup_insert_eq by (by eapply lookup_lt_Some). simpl.
    split_and!; try done.
    + intros q. by eapply lookup_insert_conn_id.
    + by exists evs.
  - split_and!; try done.
    + intros q. by eapply lookup_insert_conn_id.
    + by exists evs.
Qed.

Lemma usbConn_Write_frame (p : nat) (blen : Z) (w : World) :
  conn_frame is_transfer w (world_of (usbConn_Write p blen w)).
Proof.
  cbv [usbConn_Write bind getConn getTransport updConnState setConn
         setTransport emit ret panic block beginWrite doneWrite addInt32].
  destruct (connList (transport w) !! p) as [conn|] eqn:Hconn; simpl; [|reflexivity].
  destruct (write (connstate (transport w)) !! index conn) as [v|] eqn:Hwrite; simpl;
    [|reflexivity].
  destruct (tx (iface conn)) as [|send tx']; simpl.
  - split_and!; try done. solve_extends.
  - destruct (send blen) as [n err]. simpl.
    rewrite list_lookup_insert_eq by (by eapply lookup_lt_Some). simpl.
    split_and!; try done.
    + intros q. by eapply lookup_insert_conn_id.
    + solve_extends.
Qed.

Lemma writeAll_frame (p : nat) (plan : list Z) (final : option error) (w : World) :
  conn_frame is_transfer w (world_of (writeAll p plan final w)).
Proof.
  revert w. induction plan as [|blen plan IH]; intros w; simpl; [reflexivity|].
  apply bind_rel; [apply _ | apply usbConn_Write_frame |].
  intros [n [e|]] w1 _; [reflexivity|].
  destruct (n <? blen); [reflexivity | apply IH].
Qed.

Lemma readAll_frame (p : nat) (plan : list Z) (final : result (Response ReadCloser))
    (w : World) :
  conn_frame is_transfer w (world_of (readAll p plan final w)).
Proof.
  revert w. induction plan as [|blen plan IH]; intros w; simpl; [reflexivity|].
  apply bind_rel; [apply _ | apply usbConn_Read_frame |].
  intros [n [e|]] w1 _; [reflexivity | apply IH].
Qed.

Lemma usbConnGet_frame (pick : nat) (c : Context) (w : World) :
  hdr_frame is_pool_event w (world_of (usbConnGet pick c w)).
Proof.
  cbv [usbConnGet bind getTransport setTransport emit getConn updConnState
         gotConn addInt32 ret panic block].
  destruct (select pick _) as [[]|]; try reflexivity.
  - destruct c; reflexivity.
  - destruct (connPool (transport w)) as [|p pool]; [reflexivity|]. simpl.
    destruct (connList (transport w) !! p) as [conn|]; simpl;
      [|split; [done | solve_extends]].
    destruct (alloc (connstate (transport w)) !! index conn); simpl;
      split; try done; solve_extends.
Qed.

Lemma put_frame (p : nat) (w : World) :
  hdr_frame is_pool_event w (world_of (put p w)).
Proof.
  cbv [put bind getConn getTransport updConnState setConn
         setTransport emit ret panic block putConn addInt32].
  destruct (connList (transport w) !! p) as [conn|]; simpl; [|reflexivity].
  destruct (alloc (connstate (transport w)) !! index conn); simpl;
    [|split; [done | solve_extends]].
  destruct (_ <? _)%nat; simpl; [|split; [done | solve_extends]].
  destruct (connReleasedWaiting (transport w)); simpl;
    split; try done; solve_extends.
Qed.

(** ** Preparing the outbound request *)

Lemma insert_over_alter {V} (f : V -> V) (h : nat) (x : V) (hs : gmap nat V) :
  <[h := x]> (alter f h hs) = <[h := x]> hs.
Proof.
  apply map_eq. intros i. destruct (decide (i = h)) as [-> | Hne].
  - by rewrite !lookup_insert_eq.
  - by rewrite !lookup_insert_ne, lookup_alter_ne.
Qed.

Lemma prepare_spec (session : Z) (rq : Request ReadCloser) (w : World)
    (m : gmap string (list string)) :
  headers w !! Header rq = Some m ->
  prepare session rq w =
    Returns (prepared session rq)
      (with_headers w (<[Header rq := spec_header m]> (headers w))).
Proof.
  intros Hm.
  cbv [prepare bind Header_Del Header_Set Header_assign Header_index getHeaders
         setHeaders ret panic WithContext Header ctx Cancel Close ContentLength Body].
  destruct rq as [c cancel h cl L body]. simpl in *.
  rewrite lookup_alter_eq, Hm. simpl.
  rewrite lookup_insert_eq. simpl.
  unfold prepared, with_headers, spec_header. simpl.
  destruct (<["Connection" := ["close"]]> (delete "Expect" m) !! "User-Agent")
    as [ua|] eqn:Hua; simpl.
  - by rewrite insert_over_alter.
  - rewrite lookup_insert_eq. simpl. by rewrite insert_insert_eq, insert_over_alter.
Qed.

Lemma prepare_nil (session : Z) (rq : Request ReadCloser) (w : World) :
  headers w !! Header rq = None ->
  exists w', prepare session rq w = Panics w' /\ trace_frame not_write w w'.
Proof.
  intros Hm.
  cbv [prepare bind Header_Del Header_Set Header_assign Header_index getHeaders
         setHeaders ret panic WithContext Header ctx Cancel Close ContentLength Body].
  destruct rq as [c cancel h cl L body]. simpl in *.
  rewrite lookup_alter_eq, Hm. simpl.
  eexists. split; [reflexivity|].
  split_and!; simpl; try done.
  - apply map_eq. intros i. destruct (decide (i = h)) as [-> | Hne].
    + by rewrite lookup_alter_eq, Hm.
    + by rewrite lookup_alter_ne.
  - solve_extends.
Qed.

Lemma spec_header_Expect (m : gmap string (list string)) :
  spec_header m !! "Expect" = None.
Proof.
  unfold spec_header. case_match.
  - rewrite lookup_insert_ne by done. apply lookup_delete_eq.
  - rewrite !lookup_insert_ne by done. apply lookup_delete_eq.
Qed.

Lemma spec_header_Connection (m : gmap string (list string)) :
  spec_header m !! "Connection" = Some ["close"].
Proof.
  unfold spec_header. case_match.
  - apply lookup_insert_eq.
  - rewrite lookup_insert_ne by done. apply lookup_insert_eq.
Qed.

Lemma spec_header_User_Agent (m : gmap string (list string)) :
  spec_header m !! "User-Agent" = Some (default ["ipp-usb"] (m !! "User-Agent")).
Proof.
  unfold spec_header.
  destruct (<["Connection" := ["close"]]> (delete "Expect" m) !! "User-Agent")
    as [ua|] eqn:Hua.
  - rewrite Hua. rewrite lookup_insert_ne, lookup_delete_ne in Hua by done.
    by rewrite Hua.
  - rewrite lookup_insert_eq. rewrite lookup_insert_ne, lookup_delete_ne in Hua by done.
    by rewrite Hua.
Qed.

Lemma spec_header_other (m : gmap string (list string)) (key : string) :
  key <> "Expect" -> key <> "Connection" -> key <> "User-Agent" ->
  spec_header m !! key = m !! key.
Proof.
  intros H1 H2 H3. unfold spec_header. case_match.
  - by rewrite lookup_insert_ne, lookup_delete_ne.
  - by rewrite !lookup_insert_ne, lookup_delete_ne.
Qed.

(** ** Prefetching the body *)

Lemma bodyBytes_app (evs1 evs2 : list event) :
  bodyBytes (evs1 ++ evs2) = bodyBytes evs1 + bodyBytes evs2.
Proof.
  induction evs1 as [|ev evs1 IH]; simpl; [lia|].
  destruct ev; simpl; lia.
Qed.

Lemma ReadFrom_limited_S (fuel : nat) (src : outBody) (N : Z)
    (buf : list Byte.byte) (evs : list event) :
  ReadFrom_limited (S fuel) src N buf evs =
    if N <=? 0 then Some (buf, None, src, evs)
    else
      let '((bs, err), src) := outBody_Read (Z.to_nat N) src in
      let n := Z.of_nat (length bs) in
      match err with
      | Some io_EOF => Some (buf ++ bs, None, src, evs ++ [EvBodyRead n])
      | Some e => Some (buf ++ bs, Some e, src, evs ++ [EvBodyRead n])
      | None => ReadFrom_limited fuel src (N - n) (buf ++ bs) (evs ++ [EvBodyRead n])
      end.
Proof. reflexivity. Qed.

(** Whatever the body, the copy only reads the body. *)
Lemma ReadFrom_limited_events (fuel : nat) (src : outBody) (N : Z)
    (buf : list Byte.byte) (evs : list event)
    (buf' : list Byte.byte) (err : option error) (src' : outBody) (evs' : list event) :
  ReadFrom_limited fuel src N buf evs = Some (buf', err, src', evs') ->
  exists new, evs' = evs ++ new /\ Forall is_body_event new.
Proof.
  revert src N buf evs. induction fuel as [|fuel IH]; intros src N buf evs; [done|].
  rewrite ReadFrom_limited_S.
  destruct (N <=? 0).
  { intros [= <- <- <- <-]. exists []. by rewrite app_nil_r. }
  destruct (outBody_Read (Z.to_nat N) src) as [[bs e] src1].
  destruct e as [e|].
  - assert (evs' = evs ++ [EvBodyRead (Z.of_nat (length bs))] ->
            exists new, evs' = evs ++ new /\ Forall is_body_event new) as Hdone.
    { intros ->. eexists. split; [done|]. by repeat constructor. }
    destruct e; intros [= <- <- <- <-]; by apply Hdone.
  - intros Hrec. apply IH in Hrec as (new & -> & Hnew).
    exists (EvBodyRead (Z.of_nat (length bs)) :: new). split.
    + by rewrite <- app_assoc.
    + by constructor.
Qed.

(** Through the wrapper the copy never sees an error: it stops at the end
    of the stream or at the limit, with the first [N] bytes of the stream. *)
Lemma ReadFrom_limited_wrapped (sts : list step) :
  forall (fuel : nat) (s cnt : Z) (cl : bool) (ce : option error) (dr : bool)
         (N : Z) (buf : list Byte.byte) (evs : list event),
    (length sts + 2 <= fuel)%nat ->
    exists src' new,
      ReadFrom_limited fuel
        (Wrapped (mkRequestBodyWrapper s cnt (mkReadCloser sts cl ce) dr)) N buf evs =
        Some (buf ++ take (Z.to_nat N) (stream_bytes sts), None, src', evs ++ new) /\
      Forall is_body_event new /\
      bodyBytes new = Z.of_nat (length (take (Z.to_nat N) (stream_bytes sts))).
Proof.
  induction sts as [|[bs e] sts IH]; intros fuel s cnt cl ce dr N buf evs Hfuel;
    (destruct fuel as [|fuel]; [simpl in Hfuel; lia|]);
    rewrite ReadFrom_limited_S;
    (destruct (Z.leb_spec N 0) as [HN | HN];
     [ replace (Z.to_nat N) with 0%nat by lia; rewrite take_0, !app_nil_r;
       eexists _, []; rewrite app_nil_r; split; [reflexivity | by split] |]).
  - (* the reader has nothing left *)
    simpl. rewrite take_nil, app_nil_r.
    eexists _, _. split; [reflexivity|]. split; [by repeat constructor | done].
  - cbv [outBody_Read usbRequestBodyWrapper_Read ReadCloser_Read steps rqw_body
           rqw_count rqw_session rqw_drained closed closeErr].
    destruct (Nat.leb_spec (length bs) (Z.to_nat N)) as [Hfit | Hcut].
    + destruct e as [e|].
      * (* the answer carries an error: end of the stream *)
        simpl stream_bytes. rewrite firstn_all2 by lia.
        eexists _, _. split; [reflexivity|].
        split; [by repeat constructor | simpl; lia].
      * (* a plain answer: on to the next read *)
        simpl in Hfuel.
        destruct (IH fuel s (wrap64 (cnt + Z.of_nat (length bs))) cl ce dr
                    (N - Z.of_nat (length bs)) (buf ++ bs)
                    (evs ++ [EvBodyRead (Z.of_nat (length bs))]) ltac:(lia))
          as (src' & new & Heq & Hnew & Hbytes).
        rewrite Heq. simpl stream_bytes.
        replace (Z.to_nat (N - Z.of_nat (length bs)))
          with (Z.to_nat N - length bs)%nat in * by lia.
        exists src', (EvBodyRead (Z.of_nat (length bs)) :: new).
        split; [|split].
        -- rewrite take_app, (firstn_all2 bs) by lia.
           by rewrite <- !app_assoc.
        -- by constructor.
        -- simpl. rewrite Hbytes, take_app, (firstn_all2 bs) by lia.
           rewrite length_app. lia.
    + (* the answer is cut at the limit; the next turn stops *)
      assert (take (Z.to_nat N) (stream_bytes (@cons step (bs, e) sts))
              = take (Z.to_nat N) bs) as Hcutoff.
      { destruct e; simpl; [done|]. rewrite take_app_le by lia. done. }
      rewrite Hcutoff. clear Hcutoff.
      destruct fuel as [|fuel]; [simpl in Hfuel; lia|].
      rewrite ReadFrom_limited_S.
      rewrite length_take_le by lia.
      destruct (Z.leb_spec (N - Z.of_nat (Z.to_nat N)) 0) as [_ | ?]; [|lia].
      eexists _, _. split; [reflexivity|].
      split; [by repeat constructor|]. simpl. rewrite ?length_take_le by lia. lia.
Qed.

Lemma io_CopyN_wrapped (s cnt : Z) (sts : list step) (cl : bool) (ce : option error)
    (dr : bool) (n : Z) :
  0 <= n ->
  exists src' evs,
    io_CopyN (Wrapped (mkRequestBodyWrapper s cnt (mkReadCloser sts cl ce) dr)) n =
      Some (take (Z.to_nat n) (stream_bytes sts),
            if decide (n <= Z.of_nat (length (stream_bytes sts))) then None
            else Some io_EOF,
            src', evs) /\
    Forall is_body_event evs /\
    bodyBytes evs = Z.of_nat (length (take (Z.to_nat n) (stream_bytes sts))).
Proof.
  intros Hn. unfold io_CopyN.
  destruct (ReadFrom_limited_wrapped sts (S (S (length sts))) s cnt cl ce dr n [] []
              ltac:(simpl; lia)) as (src' & new & Heq & Hnew & Hbytes).
  simpl outBody_size. rewrite Heq. simpl app.
  exists src', new. split; [|done].
  rewrite length_take.
  destruct (decide (n <= Z.of_nat (length (stream_bytes sts)))) as [Hle | Hgt].
  - rewrite Nat.min_l by lia.
    destruct (Z.eqb_spec (Z.of_nat (Z.to_nat n)) n) as [_ | ?]; [done | lia].
  - rewrite Nat.min_r by lia.
    destruct (Z.eqb_spec (Z.of_nat (length (stream_bytes sts))) n) as [? | _]; [lia|].
    destruct (Z.ltb_spec (Z.of_nat (length (stream_bytes sts))) n) as [_ | ?]; [|lia].
    reflexivity.
Qed.

Lemma io_CopyN_events (src : outBody) (n : Z) (buf : list Byte.byte)
    (err : option error) (src' : outBody) (evs : list event) :
  io_CopyN src n = Some (buf, err, src', evs) -> Forall is_body_event evs.
Proof.
  unfold io_CopyN.
  destruct (ReadFrom_limited _ src n [] []) as [[[[buf1 err1] src1] evs1]|] eqn:E;
    [|done].
  apply ReadFrom_limited_events in E as (new & -> & Hnew).
  repeat case_match; intros [= <- <- <- <-]; done.
Qed.

(** ** Shaping the body *)

Lemma shapeBody_frame (outreq : Request outBody) (w : World) :
  trace_frame is_body_event w (world_of (shapeBody outreq w)) /\
  forall outreq' w', shapeBody outreq w = Returns (Ok outreq') w' ->
    Header outreq' = Header outreq /\ Close outreq' = Close outreq.
Proof.
  cbv [shapeBody bind emit ret panic block].
  destruct (ContentLength outreq <=? 0).
  { split; [reflexivity|]. by intros ? ? [= <- <-]. }
  destruct (ContentLength outreq <? 16384).
  2: { split; [reflexivity|]. by intros ? ? [= <- <-]. }
  destruct (Body outreq) as [body|]; [|split; [reflexivity | done]].
  destruct (io_CopyN body (ContentLength outreq)) as [[[[buf err] src'] evs]|] eqn:E;
    [|split; [reflexivity | done]].
  apply io_CopyN_events in E.
  destruct err as [e|]; simpl.
  - split; [|done]. split_and!; try done. by exists evs.
  - split; [|by intros ? ? [= <- <-]].
    split_and!; try done. exists (evs ++ [EvBodyClose]). simpl.
    split; [by rewrite app_assoc|].
    apply Forall_app. split; [done | by repeat constructor].
Qed.



Lemma shapeBody_small (outreq : Request outBody) (w : World)
    (s cnt : Z) (sts : list step) (cl : bool) (ce : option error) (dr : bool) :
  0 < ContentLength outreq < 16384 ->
  Body outreq = Some (Wrapped (mkRequestBodyWrapper s cnt (mkReadCloser sts cl ce) dr)) ->
  exists evs,
    Forall is_body_event evs /\
    bodyBytes evs =
      Z.of_nat (length (take (Z.to_nat (ContentLength outreq)) (stream_bytes sts))) /\
    shapeBody outreq w =
      if decide (ContentLength outreq <= Z.of_nat (length (stream_bytes sts))) then
        Returns
          (Ok (with_Body outreq
                 (Some (Buffered (take (Z.to_nat (ContentLength outreq))
                                    (stream_bytes sts))))))
          (with_trace (with_trace w evs) [EvBodyClose])
      else Returns (Err io_EOF) (with_trace w evs).
Proof.
  intros HL Hbody.
  destruct (io_CopyN_wrapped s cnt sts cl ce dr (ContentLength outreq) ltac:(lia))
    as (src' & evs & Hcopy & Hevs & Hbytes).
  exists evs. split; [done|]. split; [done|].
  cbv [shapeBody bind emit ret panic block].
  destruct (Z.leb_spec (ContentLength outreq) 0) as [? | _]; [lia|].
  destruct (Z.ltb_spec (ContentLength outreq) 16384) as [_ | ?]; [|lia].
  rewrite Hbody, Hcopy.
  by destruct (decide _).
Qed.

(** ** The exchange with the device *)

Lemma Request_Write_frame (env : Env) (outreq : Request outBody) (p : nat) (w : World) :
  conn_frame (fun ev => serializes (headers w) outreq ev /\ holds_conn ev) w
    (world_of (Request_Write env outreq p w)).
Proof.
  unfold Request_Write.
  set (P := fun ev => serializes (headers w) outreq ev /\ holds_conn ev).
  apply (bind_rel (conn_frame P)); [reflexivity|].
  intros hs w1 [= <- <-].
  apply (bind_rel (conn_frame P)).
  - split_and!; try done. exists [EvWriteRequest p (wire_of (headers w) outreq)].
    split; [done|]. by repeat constructor.
  - intros _ w1 _. eapply conn_frame_weaken; [|apply writeAll_frame].
    by intros [].
Qed.

Lemma ReadResponse_frame (env : Env) (p : nat) (w : World) :
  conn_frame is_transfer w (world_of (ReadResponse env p w)).
Proof. apply readAll_frame. Qed.

Lemma returns_world {A} (R : relation World) (c : M A) (w w1 : World) (a : A) :
  R w (world_of (c w)) -> c w = Returns a w1 -> R w w1.
Proof. intros HR E. by rewrite E in HR. Qed.

Lemma exchange_frame (env : Env) (session : Z) (c : Context)
    (outreq : Request outBody) (w : World) :
  hdr_frame (serializes (headers w) outreq) w
    (world_of (exchange env session c outreq w)).
Proof.
  assert (forall P : event -> Prop, (forall ev, P ev -> not_write ev) ->
            forall ev, P ev -> serializes (headers w) outreq ev) as Hweak.
  { intros P HP ev Hev. apply HP in Hev. by destruct ev. }
  set (P := serializes (headers w) outreq) in *.
  unfold exchange.
  apply (bind_rel (hdr_frame P)).
  { eapply hdr_frame_weaken; [|apply usbConnGet_frame].
    apply Hweak. by intros []. }
  intros [p | e] w1 Hget; [|reflexivity].
  pose proof (returns_world _ _ _ _ _ (usbConnGet_frame (pick env) c w) Hget) as [Hh1 _].
  assert (forall w2, hdr_frame P w2 (world_of (put p w2))) as Hput.
  { intros w2. eapply hdr_frame_weaken; [|apply put_frame].
    apply Hweak. by intros []. }
  apply (bind_rel (hdr_frame P)).
  { apply conn_frame_hdr. eapply conn_frame_weaken; [|apply Request_Write_frame].
    rewrite Hh1. by intros ev [? _]. }
  intros [e|] w2 _.
  { apply (bind_rel (hdr_frame P)); [apply Hput | reflexivity]. }
  apply (bind_rel (hdr_frame P)).
  { apply conn_frame_hdr. eapply conn_frame_weaken; [|apply ReadResponse_frame].
    apply Hweak. by intros []. }
  intros [resp | e] w3 _; [reflexivity|].
  apply (bind_rel (hdr_frame P)); [apply Hput | reflexivity].
Qed.

(** ** Acquire and release, exactly *)

Lemma usbConnGet_Ok_inv (pick : nat) (c : Context) (w w1 : World) (p : nat) :
  usbConnGet pick c w = Returns (Ok p) w1 ->
  exists pool conn v,
    connPool (transport w) = p :: pool /\
    connList (transport w) !! p = Some conn /\
    alloc (connstate (transport w)) !! index conn = Some v /\
    connPool (transport w1) = pool /\
    connPoolCap (transport w1) = connPoolCap (transport w) /\
    connList (transport w1) = connList (transport w) /\
    alloc (connstate (transport w1)) =
      <[index conn := wrap32 (v + 1)]> (alloc (connstate (transport w))) /\
    trace w1 = trace w ++ [EvAllocated p].
Proof.
  cbv [usbConnGet bind getTransport setTransport emit getConn updConnState
         gotConn addInt32 ret panic block].
  destruct (select pick _) as [[]|]; try done.
  { by destruct c. }
  destruct (connPool (transport w)) as [|p' pool]; [done|]. simpl.
  destruct (connList (transport w) !! p') as [conn|] eqn:Hconn; simpl; [|done].
  destruct (alloc (connstate (transport w)) !! index conn) as [v|] eqn:Hv; simpl;
    [|done].
  intros [= <- <-]. exists pool, conn, v. by simpl.
Qed.

Lemma put_returns (p : nat) (w : World) (conn : usbConn) (v : Z) :
  connList (transport w) !! p = Some conn ->
  alloc (connstate (transport w)) !! index conn = Some v ->
  (length (connPool (transport w)) < connPoolCap (transport w))%nat ->
  exists w' sig,
    put p w = Returns tt w' /\
    connPool (transport w') = connPool (transport w) ++ [p] /\
    trace w' = trace w ++ EvReaderReset p :: EvReleased p :: sig /\
    (sig = [] \/ sig = [EvSignal]) /\
    headers w' = headers w /\
    goroutines w' = goroutines w /\
    (forall q, conn_id <$> connList (transport w') !! q =
               conn_id <$> connList (transport w) !! q) /\
    connList (transport w') !! p = Some (mkConn (index conn) (iface conn) 0 0) /\
    alloc (connstate (transport w')) =
      <[index conn := wrap32 (v + -1)]> (alloc (connstate (transport w))).
Proof.
  intros Hconn Hv Hroom.
  cbv [put bind getConn getTransport updConnState setConn
         setTransport emit ret panic block putConn addInt32].
  rewrite Hconn. simpl. rewrite Hv. simpl.
  destruct (Nat.ltb_spec (length (connPool (transport w))) (connPoolCap (transport w)))
    as [_ | ?]; [|lia].
  simpl.
  assert (forall q, conn_id <$> (<[p := mkConn (index conn) (iface conn) 0 0]>
                                   (connList (transport w))) !! q
                    = conn_id <$> connList (transport w) !! q) as Hid.
  { intros q. by eapply lookup_insert_conn_id. }
  assert ((<[p := mkConn (index conn) (iface conn) 0 0]> (connList (transport w))) !! p
          = Some (mkConn (index conn) (iface conn) 0 0)) as Hp.
  { apply list_lookup_insert_eq. by eapply lookup_lt_Some. }
  destruct (connReleasedWaiting (transport w)); simpl.
  - eexists _, [EvSignal]. split; [reflexivity|]. simpl.
    split_and!; try done; [by rewrite <- !app_assoc | by right].
  - eexists _, []. split; [reflexivity|]. simpl.
    split_and!; try done; [by rewrite <- !app_assoc | by left].
Qed.

Lemma releases_app (p : nat) (evs1 evs2 : list event) :
  releases p (evs1 ++ evs2) = (releases p evs1 + releases p evs2)%nat.
Proof.
  induction evs1 as [|ev evs1 IH]; simpl; [done|].
  destruct ev; simpl; try done. case_decide; simpl; by rewrite IH.
Qed.

Lemma destroys_app (evs1 evs2 : list event) :
  destroys (evs1 ++ evs2) = (destroys evs1 + destroys evs2)%nat.
Proof.
  induction evs1 as [|ev evs1 IH]; simpl; [done|].
  destruct ev; simpl; by rewrite ?IH.
Qed.

Lemma holds_conn_counts (p : nat) (evs : list event) :
  Forall holds_conn evs -> releases p evs = 0%nat /\ destroys evs = 0%nat.
Proof.
  induction 1 as [|ev evs Hev _ [IH1 IH2]]; [done|].
  destruct ev; simpl in *; done.
Qed.

(** ** The round trip as a whole *)

Lemma RoundTrip_prepared (env : Env) (session : Z) (rq : Request ReadCloser) (w : World)
    (m : gmap string (list string)) :
  headers w !! Header rq = Some m ->
  RoundTripWithSession env session rq w =
    let w0 := with_headers w (<[Header rq := spec_header m]> (headers w)) in
    match shapeBody (prepared session rq) w0 with
    | Returns (Ok outreq) w1 => exchange env session (ctx rq) outreq w1
    | Returns (Err e) w1 => Returns (Err e) w1
    | Panics w1 => Panics w1
    | Blocks w1 => Blocks w1
    end.
Proof.
  intros Hm. unfold RoundTripWithSession, bind at 1.
  rewrite (prepare_spec _ _ _ _ Hm). unfold bind. simpl.
  destruct (shapeBody _ _) as [[outreq | e] w1 | w1 | w1]; reflexivity.
Qed.

Lemma RoundTrip_frame (env : Env) (session : Z) (rq : Request ReadCloser) (w : World)
    (m : gmap string (list string)) :
  headers w !! Header rq = Some m ->
  hdr_frame (wire_prepared m)
    (with_headers w (<[Header rq := spec_header m]> (headers w)))
    (world_of (RoundTripWithSession env session rq w)).
Proof.
  intros Hm. rewrite (RoundTrip_prepared _ _ _ _ _ Hm). simpl.
  set (w0 := with_headers w _).
  destruct (shapeBody_frame (prepared session rq) w0) as [Hfr Hfields].
  assert (hdr_frame (wire_prepared m) w0 (world_of (shapeBody (prepared session rq) w0)))
    as Hshape.
  { eapply hdr_frame_weaken; [|by apply trace_frame_hdr]. by intros []. }
  destruct (shapeBody (prepared session rq) w0) as [[outreq | e] w1 | w1 | w1];
    simpl in *; try done.
  destruct (Hfields outreq w1 eq_refl) as [HH HC]. simpl in HH, HC.
  etrans; [exact Hshape|].
  eapply hdr_frame_weaken; [|apply exchange_frame].
  intros [] Hev; simpl in *; try done. subst rq0.
  destruct Hfr as (_ & Hh1 & _). split; [|done]. simpl.
  rewrite Hh1, HH. unfold w0. simpl. by rewrite lookup_insert_eq.
Qed.

(** C4. Every request that a round trip serializes onto a USB connection
    has no Expect header, has its Connection header set to exactly "close"
    and is marked as closing (not keep-alive), and carries a User-Agent
    header: the caller's, or "ipp-usb" when the caller supplied none. *)
Theorem RoundTrip_outbound_headers (env : Env) (session : Z)
    (rq : Request ReadCloser) (w : World) :
  exists evs,
    trace (world_of (RoundTripWithSession env session rq w)) = trace w ++ evs /\
    forall p wr, In (EvWriteRequest p wr) evs ->
      wire_header wr !! "Expect" = None /\
      wire_header wr !! "Connection" = Some ["close"] /\
      wire_close wr = true /\
      wire_header wr !! "User-Agent" =
        Some (default ["ipp-usb"]
                (headers w !! Header rq ≫= fun m => m !! "User-Agent")).
Proof.
  destruct (headers w !! Header rq) as [m|] eqn:Hm.
  - destruct (RoundTrip_frame env session rq w m Hm) as (_ & evs & Htrace & Hevs).
    exists evs. split; [done|].
    intros p wr Hin. rewrite Forall_forall in Hevs.
    apply list_elem_of_In, Hevs in Hin. destruct Hin as [-> ->]. simpl.
    split_and!; [apply spec_header_Expect | apply spec_header_Connection | done
                | apply spec_header_User_Agent].
  - destruct (prepare_nil session rq w Hm) as (w' & Hprep & _ & _ & _ & evs & Htrace & Hevs).
    unfold RoundTripWithSession, bind. rewrite Hprep. simpl.
    exists evs. split; [done|].
    intros p wr Hin. rewrite Forall_forall in Hevs.
    by apply list_elem_of_In, Hevs in Hin.
Qed.

Lemma RoundTrip_outbound_headers_witness :
  exists evs wr,
    trace (world_of (RoundTripWithSession Demo.env 1 Demo.rq3 Demo.world)) = evs /\
    In (EvWriteRequest 0 wr) evs /\
    wire_header wr !! "Expect" = None /\
    wire_header wr !! "Connection" = Some ["close"] /\
    wire_close wr = true /\
    wire_header wr !! "User-Agent" = Some ["ipp-usb"].
Proof.
  destruct (RoundTrip_outbound_headers Demo.env 1 Demo.rq3 Demo.world)
    as (evs & Htrace & Hwire).
  simpl in Htrace.
  set (wr := mkWire
               (spec_header {[ "Expect" := ["100-continue"];
                               "Connection" := ["keep-alive"] ]})
               true 3 (LengthFraming 3)).
  assert (In (EvWriteRequest 0 wr) evs) as Hin.
  { rewrite <- Htrace. vm_compute. do 4 right. left. reflexivity. }
  exists evs, wr. split; [exact Htrace|]. split; [exact Hin|].
  exact (Hwire 0%nat wr Hin).
Defined.

(** C9. The outbound clone refers to the caller's own header map, so the
    header preprocessing is visible through the original request: whatever
    the outcome of the round trip, the caller's map then has no Expect entry,
    has Connection set to "close", has User-Agent set to the caller's value
    or to "ipp-usb" when there was none, and is otherwise as it was; the maps
    of other requests are untouched. *)
Theorem RoundTrip_mutates_caller_headers (env : Env) (session : Z)
    (rq : Request ReadCloser) (w : World) (m : gmap string (list string)) :
  headers w !! Header rq = Some m ->
  (exists w0, prepare session rq w = Returns (prepared session rq) w0) /\
  Header (prepared session rq) = Header rq /\
  exists m',
    headers (world_of (RoundTripWithSession env session rq w)) !! Header rq = Some m' /\
    m' !! "Expect" = None /\
    m' !! "Connection" = Some ["close"] /\
    m' !! "User-Agent" = Some (default ["ipp-usb"] (m !! "User-Agent")) /\
    (forall key, key <> "Expect" -> key <> "Connection" -> key <> "User-Agent" ->
       m' !! key = m !! key) /\
    (forall h, h <> Header rq ->
       headers (world_of (RoundTripWithSession env session rq w)) !! h = headers w !! h).
Proof.
  intros Hm. split; [|split; [done|]].
  { eexists. by apply prepare_spec. }
  destruct (RoundTrip_frame env session rq w m Hm) as (Hh & _).
  exists (spec_header m). rewrite Hh. simpl.
  split_and!.
  - apply lookup_insert_eq.
  - apply spec_header_Expect.
  - apply spec_header_Connection.
  - apply spec_header_User_Agent.
  - apply spec_header_other.
  - intros h Hne. by rewrite lookup_insert_ne.
Qed.

Lemma RoundTrip_mutates_caller_headers_witness :
  exists m',
    headers (world_of (RoundTripWithSession Demo.env 1 Demo.rq3 Demo.world)) !! 7%nat
      = Some m' /\
    m' !! "Expect" = None /\
    m' !! "Connection" = Some ["close"] /\
    m' !! "User-Agent" = Some ["ipp-usb"].
Proof.
  destruct (RoundTrip_mutates_caller_headers Demo.env 1 Demo.rq3 Demo.world
              {[ "Expect" := ["100-continue"]; "Connection" := ["keep-alive"] ]}
              eq_refl) as (_ & _ & m' & H1 & H2 & H3 & H4 & _).
  exists m'. split_and!; done.
Defined.



(** C10. When the declared content length L satisfies 0 < L < 16384 and the
    caller's body delivers fewer than L bytes before end-of-stream or an
    error, the round trip returns the error io.EOF: the body wrapper turns
    every read error into io.EOF, and io.CopyN reports a short copy as
    io.EOF. It returns before acquiring a connection: the transport (pool,
    connections, tracker) is as it was, and the only events are reads of the
    request body, none of them USB I/O. *)
Theorem RoundTrip_short_body (env : Env) (session : Z) (rq : Request ReadCloser)
    (w : World) (m : gmap string (list string)) (rc : ReadCloser) :
  headers w !! Header rq = Some m ->
  0 < ContentLength rq < 16384 ->
  Body rq = Some rc ->
  Z.of_nat (length (stream_bytes (steps rc))) < ContentLength rq ->
  exists w' evs,
    RoundTripWithSession env session rq w = Returns (Err io_EOF) w' /\
    transport w' = transport w /\
    connPool (transport w') = connPool (transport w) /\
    goroutines w' = goroutines w /\
    trace w' = trace w ++ evs /\
    Forall (fun ev => is_body_event ev /\ is_usb_io ev = false /\
                      forall p, ev <> EvAllocated p) evs /\
    bodyBytes evs = Z.of_nat (length (stream_bytes (steps rc))).
Proof.
  intros Hm HL Hbody Hlen. destruct rc as [sts cl ce]. simpl in Hlen.
  rewrite (RoundTrip_prepared env session rq w m Hm). simpl.
  set (w0 := with_headers w _).
  destruct (shapeBody_small (prepared session rq) w0 session 0 sts cl ce false)
    as (evs & Hevs & Hbytes & Hshape); [done | by (simpl; rewrite Hbody) |].
  simpl ContentLength in *.
  rewrite decide_False in Hshape by lia. rewrite Hshape.
  exists (with_trace w0 evs), evs. split_and!; try done.
  - eapply Forall_impl; [exact Hevs|]. by intros [].
  - rewrite Hbytes, firstn_all2 by lia. done.
Qed.

Lemma RoundTrip_short_body_witness :
  exists w',
    RoundTripWithSession Demo.env 1 Demo.rq4 Demo.world = Returns (Err io_EOF) w' /\
    connPool (transport w') = [0; 1]%nat.
Proof.
  destruct (RoundTrip_short_body Demo.env 1 Demo.rq4 Demo.world
              {[ "Expect" := ["100-continue"]; "Connection" := ["keep-alive"] ]}
              Demo.body3 eq_refl ltac:(simpl; lia) eq_refl ltac:(simpl; lia))
    as (w' & evs & HRT & _ & Hpool & _).
  exists w'. split; [exact HRT | exact Hpool].
Defined.

(** ** Releasing the connection *)

(** After I/O on an acquired connection, [put] puts it back. *)
Lemma put_after_io (P : event -> Prop) (p : nat) (w w1 w2 : World)
    (pool : list nat) (conn : usbConn) (v : Z) :
  (length (connPool (transport w)) <= connPoolCap (transport w))%nat ->
  connPool (transport w) = p :: pool ->
  connList (transport w) !! p = Some conn ->
  alloc (connstate (transport w)) !! index conn = Some v ->
  connPool (transport w1) = pool ->
  connPoolCap (transport w1) = connPoolCap (transport w) ->
  connList (transport w1) = connList (transport w) ->
  alloc (connstate (transport w1)) =
    <[index conn := wrap32 (v + 1)]> (alloc (connstate (transport w))) ->
  conn_frame P w1 w2 ->
  exists w' sig,
    put p w2 = Returns tt w' /\
    connPool (transport w') = pool ++ [p] /\
    trace w' = trace w2 ++ EvReaderReset p :: EvReleased p :: sig /\
    (sig = [] \/ sig = [EvSignal]) /\
    (forall q, conn_id <$> connList (transport w') !! q =
               conn_id <$> connList (transport w) !! q).
Proof.
  intros Hcap Hpool Hconn Hv Hpool1 Hcap1 Hlist1 Halloc1
    (_ & _ & Hpool2 & Hcap2 & _ & _ & Halloc2 & Hid2 & _).
  assert (exists conn2, connList (transport w2) !! p = Some conn2 /\
                        index conn2 = index conn) as (conn2 & Hconn2 & Hidx).
  { specialize (Hid2 p). rewrite Hlist1, Hconn in Hid2. simpl in Hid2.
    destruct (connList (transport w2) !! p) as [conn2|]; [|done].
    exists conn2. split; [done|]. by injection Hid2. }
  destruct (put_returns p w2 conn2 (wrap32 (v + 1))) as (w' & sig & Hput & Hp & Ht & Hs
      & _ & _ & Hid & _).
  - done.
  - rewrite Halloc2, Halloc1, Hidx.
    apply list_lookup_insert_eq. by eapply lookup_lt_Some.
  - rewrite Hpool2, Hcap2, Hpool1, Hcap1. rewrite Hpool in Hcap. simpl in Hcap. lia.
  - exists w', sig. split_and!; try done.
    + by rewrite Hp, Hpool2, Hpool1.
    + intros q. by rewrite Hid, Hid2, Hlist1.
Qed.

(** C7. In a round trip that has acquired a connection [p]: if writing the
    serialized request to the connection fails with [e], or the request is
    written and reading the response fails with [e], then the connection is
    released by [put] (it is re-enqueued at the end of the pool, which so
    holds the connections it held before the acquisition) and the round
    trip returns [e] itself. The connection is released once and is not
    destroyed: no interface is closed. *)
Theorem exchange_failure_releases (env : Env) (session : Z) (c : Context)
    (outreq : Request outBody) (w w1 w2 : World) (p : nat) (e : error) :
  (length (connPool (transport w)) <= connPoolCap (transport w))%nat ->
  usbConnGet (pick env) c w = Returns (Ok p) w1 ->
  (Request_Write env outreq p w1 = Returns (Some e) w2 \/
   exists w1', Request_Write env outreq p w1 = Returns None w1' /\
               ReadResponse env p w1' = Returns (Err e) w2) ->
  exists w' evs,
    exchange env session c outreq w = Returns (Err e) w' /\
    connPool (transport w') = connPool (transport w1) ++ [p] /\
    connPool (transport w') ≡ₚ connPool (transport w) /\
    trace w' = trace w ++ evs /\
    releases p evs = 1%nat /\
    destroys evs = 0%nat /\
    (forall q, conn_id <$> connList (transport w') !! q =
               conn_id <$> connList (transport w) !! q).
Proof.
  intros Hcap Hget Hfail.
  destruct (usbConnGet_Ok_inv _ _ _ _ _ Hget)
    as (pool & conn & v & Hpool & Hconn & Hv & Hpool1 & Hcap1 & Hlist1 & Halloc1 & Htrace1).
  assert (conn_frame holds_conn w1 w2 /\
          forall w', put p w2 = Returns tt w' ->
                     exchange env session c outreq w = Returns (Err e) w') as [Hio Hex].
  { destruct Hfail as [Hw | (w1' & Hw & Hr)].
    - split.
      + pose proof (Request_Write_frame env outreq p w1) as Hfr. rewrite Hw in Hfr.
        eapply conn_frame_weaken; [|exact Hfr]. by intros ev [_ ?].
      + intros w' Hput. unfold exchange, bind.
        by rewrite Hget, Hw, Hput.
    - split.
      + pose proof (Request_Write_frame env outreq p w1) as Hfr. rewrite Hw in Hfr.
        pose proof (ReadResponse_frame env p w1') as Hfr'. rewrite Hr in Hfr'.
        etrans.
        * eapply conn_frame_weaken; [|exact Hfr]. by intros ev [_ ?].
        * eapply conn_frame_weaken; [|exact Hfr']. by intros [].
      + intros w' Hput. unfold exchange, bind.
        by rewrite Hget, Hw, Hr, Hput. }
  destruct (put_after_io holds_conn p w w1 w2 pool conn v)
    as (w' & sig & Hput & Hp & Ht & Hs & Hid); try done.
  destruct Hio as (_ & _ & _ & _ & _ & _ & _ & _ & evs & Htrace2 & Hevs).
  exists w', ([EvAllocated p] ++ evs ++ EvReaderReset p :: EvReleased p :: sig).
  split_and!.
  - by apply Hex.
  - by rewrite Hp, Hpool1.
  - rewrite Hp, Hpool. symmetry. apply Permutation_cons_append.
  - rewrite Ht, Htrace2, Htrace1. by rewrite <- !app_assoc.
  - destruct (holds_conn_counts p evs Hevs) as [Hr _].
    rewrite !releases_app, Hr. simpl. rewrite decide_True by done.
    by destruct Hs as [-> | ->].
  - destruct (holds_conn_counts p evs Hevs) as [_ Hd].
    rewrite !destroys_app, Hd. simpl. by destruct Hs as [-> | ->].
  - done.
Qed.

Lemma exchange_failure_releases_witness :
  (exists w', exchange Demo.env_short_write 1 None (prepared 1 Demo.rq3) Demo.world
              = Returns (Err io_ErrShortWrite) w' /\
              connPool (transport w') = [1; 0]%nat) /\
  (exists w', exchange Demo.env_bad_response 1 None (prepared 1 Demo.rq3) Demo.world
              = Returns (Err (ErrHttp "malformed HTTP response")) w' /\
              connPool (transport w') = [1; 0]%nat).
Proof.
  pose (w1 := world_of (usbConnGet 0 None Demo.world)).
  split.
  - pose (w2 := world_of (Request_Write Demo.env_short_write (prepared 1 Demo.rq3) 0 w1)).
    destruct (exchange_failure_releases Demo.env_short_write 1 None
                (prepared 1 Demo.rq3) Demo.world w1 w2 0 io_ErrShortWrite)
      as (w' & evs & Hex & Hpool & _).
    + simpl. lia.
    + vm_compute. reflexivity.
    + left. vm_compute. reflexivity.
    + exists w'. split; [exact Hex | exact Hpool].
  - pose (w1' := world_of (Request_Write Demo.env_bad_response (prepared 1 Demo.rq3) 0 w1)).
    pose (w2 := world_of (ReadResponse Demo.env_bad_response 0 w1')).
    destruct (exchange_failure_releases Demo.env_bad_response 1 None
                (prepared 1 Demo.rq3) Demo.world w1 w2 0
                (ErrHttp "malformed HTTP response"))
      as (w' & evs & Hex & Hpool & _).
    + simpl. lia.
    + vm_compute. reflexivity.
    + right. exists w1'. split; vm_compute; reflexivity.
    + exists w'. split; [exact Hex | exact Hpool].
Defined.

(** ** Closing the response body *)

Lemma respBodyBytes_app (evs1 evs2 : list event) :
  respBodyBytes (evs1 ++ evs2) = respBodyBytes evs1 + respBodyBytes evs2.
Proof.
  induction evs1 as [|ev evs1 IH]; simpl; [lia|].
  destruct ev; simpl; lia.
Qed.




(** * The rest of the transport: proofs *)

(** * The rest of the transport: proofs *)

(** ** Acquire and release under the invariant *)

Lemma wrap32_inc_dec (v : Z) : int32_range v -> wrap32 (wrap32 (v + 1) + -1) = v.
Proof.
  unfold int32_range, wrap32, wrap. intros Hv.
  change (2 ^ (32 - 1)) with 2147483648 in *. change (2 ^ 32) with 4294967296.
  change (2 ^ 31) with 2147483648 in *.
  destruct (decide (v = 2147483647)) as [-> | Hne]; [reflexivity|].
  rewrite (Z.mod_small (v + 1 + 2147483648)) by lia.
  rewrite Z.mod_small by lia. lia.
Qed.

Lemma wrap32_range (v : Z) : int32_range (wrap32 v).
Proof.
  unfold int32_range, wrap32, wrap.
  change (2 ^ (32 - 1)) with 2147483648. change (2 ^ 32) with 4294967296.
  change (2 ^ 31) with 2147483648.
  pose proof (Z.mod_pos_bound (v + 2147483648) 4294967296 ltac:(lia)). lia.
Qed.

Lemma wf_pool_room (t : UsbTransport) (p : nat) :
  transport_wf t -> (p < connPoolCap t)%nat -> p ∉ connPool t ->
  (length (connPool t) < connPoolCap t)%nat.
Proof.
  intros (_ & _ & _ & _ & _ & Hnd & Hlt) Hp Hnin.
  assert (NoDup (p :: connPool t)) as Hnd' by (by constructor).
  assert (p :: connPool t ⊆+ seq 0 (connPoolCap t)) as Hsub.
  { apply NoDup_submseteq; [done|]. intros q Hq.
    apply elem_of_seq. apply elem_of_cons in Hq as [-> | Hq]; [lia|].
    apply Hlt in Hq. lia. }
  apply submseteq_length in Hsub. rewrite length_seq in Hsub. simpl in Hsub. lia.
Qed.

Lemma usbConnGet_conn (pick : nat) (c : Context) (w : World) (p : nat)
    (pool : list nat) (conn : usbConn) (v : Z) :
  select pick (readyCases (transport w) c) = Some CaseConn ->
  connPool (transport w) = p :: pool ->
  connList (transport w) !! p = Some conn ->
  alloc (connstate (transport w)) !! index conn = Some v ->
  usbConnGet pick c w =
    Returns (Ok p)
      (mkWorld
         (mkTransport pool (connPoolCap (transport w)) (connList (transport w))
            (connReleasedWaiting (transport w)) (shutdown (transport w))
            (mkConnState (<[index conn := wrap32 (v + 1)]> (alloc (connstate (transport w))))
               (read (connstate (transport w))) (write (connstate (transport w)))))
         (headers w) (goroutines w) (trace w ++ [EvAllocated p])).
Proof.
  intros Hsel Hpool Hconn Hv.
  cbv [usbConnGet bind getTransport setTransport emit getConn updConnState
         gotConn addInt32 ret panic block].
  rewrite Hsel, Hpool. simpl. rewrite Hconn. simpl. rewrite Hv. reflexivity.
Qed.

Lemma put_exact (p : nat) (w : World) (conn : usbConn) (v : Z) :
  connList (transport w) !! p = Some conn ->
  alloc (connstate (transport w)) !! index conn = Some v ->
  (length (connPool (transport w)) < connPoolCap (transport w))%nat ->
  put p w =
    Returns tt
      (mkWorld
         (mkTransport (connPool (transport w) ++ [p]) (connPoolCap (transport w))
            (<[p := mkConn (index conn) (iface conn) 0 0]> (connList (transport w)))
            false (shutdown (transport w))
            (mkConnState (<[index conn := wrap32 (v + -1)]> (alloc (connstate (transport w))))
               (read (connstate (transport w))) (write (connstate (transport w)))))
         (headers w) (goroutines w)
         (trace w ++ EvReaderReset p :: EvReleased p ::
            (if connReleasedWaiting (transport w) then [EvSignal] else []))).
Proof.
  intros Hconn Hv Hroom.
  cbv [put bind getConn getTransport updConnState setConn
         setTransport emit ret panic block putConn addInt32].
  rewrite Hconn. simpl. rewrite Hv. simpl.
  destruct (Nat.ltb_spec (length (connPool (transport w))) (connPoolCap (transport w)))
    as [_ | ?]; [|lia].
  simpl. destruct (connReleasedWaiting (transport w)); simpl;
    by rewrite <- !app_assoc.
Qed.

Lemma wf_lookup_conn (t : UsbTransport) (p : nat) :
  transport_wf t -> (p < connPoolCap t)%nat ->
  exists conn v r wr,
    connList t !! p = Some conn /\ index conn = p /\
    alloc (connstate t) !! p = Some v /\
    read (connstate t) !! p = Some r /\
    write (connstate t) !! p = Some wr.
Proof.
  intros (Hlen & Hidx & Ha & Hr & Hw & _) Hp.
  destruct (lookup_lt_is_Some_2 (connList t) p) as [conn Hconn]; [lia|].
  destruct (lookup_lt_is_Some_2 (alloc (connstate t)) p) as [v Hv]; [lia|].
  destruct (lookup_lt_is_Some_2 (read (connstate t)) p) as [r Hrd]; [lia|].
  destruct (lookup_lt_is_Some_2 (write (connstate t)) p) as [wr Hwr]; [lia|].
  exists conn, v, r, wr. split_and!; try done. by apply Hidx.
Qed.

Lemma wf_insert_conn (l : list usbConn) (p : nat) (conn conn' : usbConn) :
  l !! p = Some conn -> index conn' = index conn ->
  (forall q c, l !! q = Some c -> index c = q) ->
  forall q c, <[p := conn']> l !! q = Some c -> index c = q.
Proof.
  intros Hp Hidx Hall q c. destruct (decide (p = q)) as [<- | Hne].
  - rewrite list_lookup_insert_eq by (by eapply lookup_lt_Some).
    intros [= <-]. rewrite Hidx. by apply Hall.
  - rewrite list_lookup_insert_ne by done. apply Hall.
Qed.


(** Taking the head of the pool keeps the invariant. *)
Lemma wf_take (t : UsbTransport) (p : nat) (pool : list nat) (i : nat) (x : Z) :
  transport_wf t -> connPool t = p :: pool ->
  (p < connPoolCap t)%nat /\ (p ∉ pool) /\
  transport_wf
    (mkTransport pool (connPoolCap t) (connList t) (connReleasedWaiting t) (shutdown t)
       (mkConnState (<[i := x]> (alloc (connstate t))) (read (connstate t))
          (write (connstate t)))).
Proof.
  intros (Hlen & Hidx & Ha & Hr & Hw & Hnd & Hlt) Hpool.
  rewrite Hpool in Hnd, Hlt. apply NoDup_cons in Hnd as [Hnin Hnd].
  split_and!; [apply Hlt; by left | done |].
  unfold transport_wf. simpl. split_and!; try done.
  - by rewrite length_insert.
  - intros q Hq. apply Hlt. by right.
Qed.

(** Appending a connection that is out of the pool keeps the invariant. *)
Lemma wf_give (t : UsbTransport) (p : nat) (conn : usbConn) (b : bool) (x : Z) :
  transport_wf t -> (p < connPoolCap t)%nat -> p ∉ connPool t ->
  connList t !! p = Some conn ->
  transport_wf
    (mkTransport (connPool t ++ [p]) (connPoolCap t)
       (<[p := mkConn (index conn) (iface conn) 0 0]> (connList t)) b (shutdown t)
       (mkConnState (<[index conn := x]> (alloc (connstate t))) (read (connstate t))
          (write (connstate t)))).
Proof.
  intros (Hlen & Hidx & Ha & Hr & Hw & Hnd & Hlt) Hp Hnin Hconn.
  unfold transport_wf. simpl. split_and!.
  - by rewrite length_insert.
  - by eapply wf_insert_conn.
  - by rewrite length_insert.
  - done.
  - done.
  - apply NoDup_app. split_and!; [done | | apply NoDup_singleton].
    intros q Hq Hq'. apply list_elem_of_singleton in Hq'. by subst q.
  - intros q Hq. apply elem_of_app in Hq as [Hq | Hq]; [by apply Hlt|].
    apply list_elem_of_singleton in Hq. by subst q.
Qed.

Lemma Demo_world_wf : transport_wf (transport Demo.world).
Proof.
  split_and!; try reflexivity.
  - intros [|[|p]] c; simpl; intros [= <-]; reflexivity.
  - simpl. apply NoDup_cons. split; [|apply NoDup_singleton].
    intros Hin. by apply list_elem_of_singleton in Hin.
  - simpl. intros p Hp. repeat (apply elem_of_cons in Hp as [-> | Hp]; [lia|]).
    by apply elem_of_nil in Hp.
Qed.

Lemma Demo_world_in_flight_wf : transport_wf (transport Demo.world_in_flight).
Proof.
  split_and!; try reflexivity.
  - intros [|[|p]] c; simpl; intros [= <-]; reflexivity.
  - simpl. apply NoDup_singleton.
  - simpl. intros p Hp. apply list_elem_of_singleton in Hp. lia.
Qed.

(** X1. On a well-formed transport [usbConnGet] never panics and keeps the
    invariant. When it returns a connection, that is the oldest idle one: it
    is a valid connection, it has left the pool, and one more connection is
    in use; when it returns an error the world is untouched. *)
Theorem usbConnGet_keeps_wf (pick : nat) (c : Context) (w : World) :
  transport_wf (transport w) ->
  (forall w', usbConnGet pick c w <> Panics w') /\
  transport_wf (transport (world_of (usbConnGet pick c w))) /\
  (forall p w', usbConnGet pick c w = Returns (Ok p) w' ->
     (p < connPoolCap (transport w))%nat /\
     connPool (transport w) = (p :: connPool (transport w')) /\
     (p ∉ connPool (transport w')) /\
     connInUse (transport w') = connInUse (transport w) + 1) /\
  (forall e w', usbConnGet pick c w = Returns (Err e) w' -> w' = w).
Proof.
  intros Hwf.
  destruct (select pick (readyCases (transport w) c)) as [sc|] eqn:Hsel.
  2: { cbv [usbConnGet bind getTransport block]. rewrite Hsel. by split_and!. }
  destruct sc.
  - cbv [usbConnGet bind getTransport ret]. rewrite Hsel. split_and!; try done.
    by intros e w' [= _ <-].
  - cbv [usbConnGet bind getTransport ret block]. rewrite Hsel.
    destruct c; split_and!; try done. by intros e' w' [= _ <-].
  - assert (CaseConn ∈ readyCases (transport w) c) as Hin.
    { unfold select in Hsel. by eapply list_elem_of_lookup_2. }
    apply elem_of_readyCases in Hin.
    destruct (connPool (transport w)) as [|p pool] eqn:Hpool; [done|].
    assert (p < connPoolCap (transport w))%nat as Hp
      by (by destruct (wf_take _ p pool 0%nat 0 Hwf Hpool)).
    destruct (wf_lookup_conn _ p Hwf Hp) as (conn & v & _ & _ & Hconn & Hi & Hv & _).
    rewrite <- Hi in Hv.
    rewrite (usbConnGet_conn pick c w p pool conn v Hsel Hpool Hconn Hv).
    destruct (wf_take _ p pool (index conn) (wrap32 (v + 1)) Hwf Hpool)
      as (_ & Hnin & Hwf').
    split_and!; try done.
    intros p' w' [= <- <-]. simpl. split_and!; try done.
    unfold connInUse. simpl. rewrite Hpool. simpl. lia.
Qed.

Lemma usbConnGet_keeps_wf_witness :
  transport_wf (transport (world_of (usbConnGet 0 None Demo.world))).
Proof.
  apply (usbConnGet_keeps_wf 0 None Demo.world).
  exact Demo_world_wf.
Defined.

(** X2. On a well-formed transport, [put] of a valid connection that is not
    in the pool always returns: it neither panics nor blocks. It appends the
    connection to the pool, clears the connection's byte counters, takes one
    connection out of use and keeps the invariant. *)
Theorem put_keeps_wf (p : nat) (w : World) :
  transport_wf (transport w) ->
  (p < connPoolCap (transport w))%nat ->
  p ∉ connPool (transport w) ->
  exists w',
    put p w = Returns tt w' /\
    transport_wf (transport w') /\
    connPool (transport w') = connPool (transport w) ++ [p] /\
    connInUse (transport w') = connInUse (transport w) - 1 /\
    (exists conn, connList (transport w') !! p = Some conn /\
                  cntRecv conn = 0 /\ cntSent conn = 0) /\
    (forall q, q <> p -> connList (transport w') !! q = connList (transport w) !! q).
Proof.
  intros Hwf Hp Hnin.
  pose proof (wf_pool_room _ p Hwf Hp Hnin) as Hroom.
  destruct (wf_lookup_conn _ p Hwf Hp) as (conn & v & _ & _ & Hconn & Hi & Hv & _).
  rewrite <- Hi in Hv.
  rewrite (put_exact p w conn v Hconn Hv Hroom).
  eexists. split; [reflexivity|]. simpl.
  split; [|split_and!].
  - by apply wf_give.
  - done.
  - unfold connInUse. simpl. rewrite length_app. simpl. lia.
  - exists (mkConn (index conn) (iface conn) 0 0). split; [|done].
    apply list_lookup_insert_eq. by eapply lookup_lt_Some.
  - intros q Hq. by rewrite list_lookup_insert_ne.
Qed.

Lemma put_keeps_wf_witness :
  exists w', put 0 Demo.world_in_flight = Returns tt w' /\
             connPool (transport w') = [1; 0]%nat.
Proof.
  destruct (put_keeps_wf 0 Demo.world_in_flight) as (w' & Hput & _ & Hpool & _).
  - exact Demo_world_in_flight_wf.
  - simpl. lia.
  - simpl. intros Hin. apply list_elem_of_singleton in Hin. lia.
  - exists w'. split; [exact Hput | exact Hpool].
Defined.

(** X3. Acquire followed by release. On a well-formed transport whose
    tracker counters are [int32] values, a connection obtained from
    [usbConnGet] and given back by [put] is at the end of the pool, the
    tracker is exactly as before the acquire, as many connections are in use
    as before, and between the two calls one more was. *)
Theorem acquire_release_round_trip (pick : nat) (c : Context) (w w1 : World) (p : nat) :
  transport_wf (transport w) ->
  Forall int32_range (alloc (connstate (transport w))) ->
  usbConnGet pick c w = Returns (Ok p) w1 ->
  exists w2 pool,
    put p w1 = Returns tt w2 /\
    connPool (transport w) = p :: pool /\
    connPool (transport w2) = pool ++ [p] /\
    connstate (transport w2) = connstate (transport w) /\
    connInUse (transport w1) = connInUse (transport w) + 1 /\
    connInUse (transport w2) = connInUse (transport w) /\
    transport_wf (transport w2).
Proof.
  intros Hwf Hrange Hget.
  destruct (usbConnGet_Ok_inv _ _ _ _ _ Hget)
    as (pool & conn & v & Hpool & Hconn & Hv & _).
  assert (select pick (readyCases (transport w) c) = Some CaseConn) as Hsel.
  { destruct (select pick (readyCases (transport w) c)) as [[]|] eqn:Hsel; try done;
      revert Hget; cbv [usbConnGet bind getTransport ret block]; rewrite Hsel;
      try done; by destruct c. }
  rewrite (usbConnGet_conn pick c w p pool conn v Hsel Hpool Hconn Hv) in Hget.
  injection Hget as <-.
  destruct (wf_take _ p pool (index conn) (wrap32 (v + 1)) Hwf Hpool)
    as (Hp & Hnin & Hwf1).
  set (w1 := mkWorld _ _ _ _) in *.
  assert (connList (transport w1) !! p = Some conn) as Hconn1 by done.
  assert (alloc (connstate (transport w1)) !! index conn = Some (wrap32 (v + 1))) as Hv1.
  { simpl. apply list_lookup_insert_eq. by eapply lookup_lt_Some. }
  assert (length (connPool (transport w1)) < connPoolCap (transport w1))%nat as Hroom
    by (by apply (wf_pool_room _ p)).
  rewrite (put_exact p w1 conn (wrap32 (v + 1)) Hconn1 Hv1 Hroom).
  eexists _, pool. split; [reflexivity|]. simpl.
  assert (int32_range v) as Hvr.
  { rewrite Forall_forall in Hrange. apply Hrange. by eapply list_elem_of_lookup_2. }
  split_and!; try done.
  - rewrite list_insert_insert_eq, wrap32_inc_dec by done.
    rewrite list_insert_id by done. by destruct (connstate (transport w)).
  - unfold connInUse. simpl. rewrite Hpool. simpl. lia.
  - unfold connInUse. simpl. rewrite length_app, Hpool. simpl. lia.
  - by apply (wf_give (transport w1) p conn false).
Qed.

Lemma acquire_release_round_trip_witness :
  exists w2,
    put 0 (world_of (usbConnGet 0 None Demo.world)) = Returns tt w2 /\
    connPool (transport w2) = [1; 0]%nat /\
    connstate (transport w2) = connstate (transport Demo.world).
Proof.
  destruct (acquire_release_round_trip 0 None Demo.world
              (world_of (usbConnGet 0 None Demo.world)) 0)
    as (w2 & pool & Hput & Hpool & Hpool2 & Hstate & _).
  - exact Demo_world_wf.
  - simpl. repeat constructor; unfold int32_range; lia.
  - vm_compute. reflexivity.
  - exists w2. split; [exact Hput|]. split; [|exact Hstate].
    rewrite Hpool2. simpl in Hpool. by injection Hpool as <-.
Defined.

(** ** Transfers under the invariant *)


Lemma usbConn_Read_exact (p : nat) (blen : Z) (w : World) (conn : usbConn) (v : Z)
    (r : option (Z * option error)) (rx' : list transfer) (cnt : Z) (evs : list event) :
  connList (transport w) !! p = Some conn ->
  read (connstate (transport w)) !! index conn = Some v ->
  Read_loop (index conn) (alignRead blen) (Millisecond * 100) (rx (iface conn))
    (cntRecv conn) = (r, rx', cnt, evs) ->
  let w1 rd :=
    mkWorld
      (mkTransport (connPool (transport w)) (connPoolCap (transport w))
         (<[p := mkConn (index conn)
                   (mkIface rx' (tx (iface conn)) (ifClosed (iface conn)))
                   cnt (cntSent conn)]>
            (connList (transport w)))
         (connReleasedWaiting (transport w)) (shutdown (transport w))
         (mkConnState (alloc (connstate (transport w))) rd
            (write (connstate (transport w)))))
      (headers w) (goroutines w) (trace w ++ evs) in
  usbConn_Read p blen w =
    match r with
    | Some r =>
        Returns r (w1 (<[index conn := wrap32 (wrap32 (v + 1) + -1)]>
                         (read (connstate (transport w)))))
    | None =>
        Blocks (w1 (<[index conn := wrap32 (v + 1)]> (read (connstate (transport w)))))
    end.
Proof.
  intros Hconn Hv Hloop.
  cbv [usbConn_Read bind getConn getTransport updConnState setConn
         setTransport emit ret panic block beginRead doneRead addInt32].
  rewrite Hconn. simpl. rewrite Hv. simpl. rewrite Hloop. simpl.
  destruct r as [r|]; simpl; [|done].
  rewrite list_lookup_insert_eq by (by eapply lookup_lt_Some). simpl.
  by rewrite list_insert_insert_eq.
Qed.

Lemma insert_restore (l : list Z) (i : nat) (v : Z) :
  l !! i = Some v -> int32_range v ->
  <[i := wrap32 (wrap32 (v + 1) + -1)]> l = l.
Proof. intros Hv Hr. rewrite wrap32_inc_dec by done. by apply list_insert_id. Qed.



(** X5. [usbConn.Read] on a valid connection of a well-formed transport never
    panics and keeps the invariant and the pool, whether it returns or waits
    for the device forever. When it returns, the tracker is as it was before
    the call; while it waits, the connection's read flag stays raised. *)
Theorem usbConn_Read_keeps_wf (p : nat) (blen : Z) (w : World) :
  transport_wf (transport w) ->
  Forall int32_range (read (connstate (transport w))) ->
  (p < connPoolCap (transport w))%nat ->
  let out := usbConn_Read p blen w in
  (forall w', out <> Panics w') /\
  transport_wf (transport (world_of out)) /\
  connPool (transport (world_of out)) = connPool (transport w) /\
  (forall r w', out = Returns r w' ->
     connstate (transport w') = connstate (transport w)) /\
  (forall w', out = Blocks w' ->
     exists v, read (connstate (transport w)) !! p = Some v /\
               read (connstate (transport w')) !! p = Some (wrap32 (v + 1))).
Proof.
  intros Hwf Hrange Hp out.
  destruct (wf_lookup_conn _ p Hwf Hp) as (conn & _ & v & _ & Hconn & Hi & _ & Hv & _).
  pose proof Hwf as (Hlen & Hidx & Ha & Hr & Hw & Hnd & Hlt).
  assert (int32_range v) as Hvr.
  { rewrite Forall_forall in Hrange. apply Hrange. by eapply list_elem_of_lookup_2. }
  destruct (Read_loop (index conn) (alignRead blen) (Millisecond * 100)
              (rx (iface conn)) (cntRecv conn)) as [[[r rx'] cnt] evs] eqn:Hloop.
  assert (read (connstate (transport w)) !! index conn = Some v) as Hv'
    by (by rewrite Hi).
  subst out.
  rewrite (usbConn_Read_exact p blen w conn v r rx' cnt evs Hconn Hv' Hloop).
  assert (forall rd, length rd = connPoolCap (transport w) ->
            transport_wf (mkTransport (connPool (transport w)) (connPoolCap (transport w))
              (<[p := mkConn (index conn)
                        (mkIface rx' (tx (iface conn)) (ifClosed (iface conn)))
                        cnt (cntSent conn)]> (connList (transport w)))
              (connReleasedWaiting (transport w)) (shutdown (transport w))
              (mkConnState (alloc (connstate (transport w))) rd
                 (write (connstate (transport w)))))) as Hwf'.
  { intros rd Hrd. unfold transport_wf. simpl. split_and!; try done.
    - by rewrite length_insert.
    - eapply wf_insert_conn; [exact Hconn | by simpl | done]. }
  destruct r as [r|]; simpl.
  - split_and!; try done.
    + apply Hwf'. by rewrite length_insert.
    + intros r0 w' [= _ <-]. simpl. rewrite Hi, insert_restore by done.
      by destruct (connstate (transport w)).
  - split_and!; try done.
    + apply Hwf'. by rewrite length_insert.
    + intros w' [= <-]. simpl. exists v. split; [done|]. rewrite Hi.
      apply list_lookup_insert_eq. by eapply lookup_lt_Some.
Qed.

Lemma usbConn_Read_keeps_wf_witness :
  transport_wf (transport (world_of (usbConn_Read 0 4096 Demo.world))) /\
  connPool (transport (world_of (usbConn_Read 0 4096 Demo.world))) = [0; 1]%nat.
Proof.
  destruct (usbConn_Read_keeps_wf 0 4096 Demo.world Demo_world_wf)
    as (_ & Hwf & Hpool & _).
  - simpl. repeat constructor; unfold int32_range; lia.
  - simpl. lia.
  - split; [exact Hwf | exact Hpool].
Defined.

(** ** Shutdown *)

(** X6. The outcomes of [Shutdown] on a transport not yet shut down. With no
    connection in use it returns nil at once. With connections in use it
    returns the context's error when the context is done, and otherwise
    waits as the receiver of the release signal. In every case the shutdown
    flag is set and nothing else changes: no connection is touched and no
    event happens. *)
Theorem Shutdown_outcomes (c : Context) (w : World) :
  shutdown (transport w) = false ->
  (connInUse (transport w) = 0 ->
     Shutdown c w = Returns None (with_shutdown w (connReleasedWaiting (transport w)))) /\
  (connInUse (transport w) <> 0 ->
     forall e, c = Some e ->
       Shutdown c w =
         Returns (Some e) (with_shutdown w (connReleasedWaiting (transport w)))) /\
  (connInUse (transport w) <> 0 -> c = None ->
     Shutdown c w = Blocks (with_shutdown w true)) /\
  shutdown (transport (world_of (Shutdown c w))) = true /\
  trace (world_of (Shutdown c w)) = trace w /\
  connPool (transport (world_of (Shutdown c w))) = connPool (transport w) /\
  connList (transport (world_of (Shutdown c w))) = connList (transport w).
Proof.
  intros Hsh.
  cbv [Shutdown Shutdown_signal Shutdown_loop bind getTransport setTransport
         ret panic block].
  rewrite Hsh. simpl.
  destruct (Z.eqb_spec (connInUse (transport w)) 0) as [Hn | Hn].
  - unfold connInUse in *. simpl. 
    destruct (Z.eqb_spec (Z.of_nat (connPoolCap (transport w))
                          - Z.of_nat (length (connPool (transport w)))) 0); [|lia].
    split_and!; try done.
  - unfold connInUse in *. simpl.
    destruct (Z.eqb_spec (Z.of_nat (connPoolCap (transport w))
                          - Z.of_nat (length (connPool (transport w)))) 0); [lia|].
    destruct c as [e|]; split_and!; try done.
    by intros _ e' [= <-].
Qed.

Lemma Shutdown_outcomes_witness :
  Shutdown None Demo.world = Returns None (with_shutdown Demo.world false) /\
  Shutdown (Some context_DeadlineExceeded) Demo.world_in_flight =
    Returns (Some context_DeadlineExceeded) (with_shutdown Demo.world_in_flight false) /\
  Shutdown None Demo.world_in_flight = Blocks (with_shutdown Demo.world_in_flight true).
Proof.
  destruct (Shutdown_outcomes None Demo.world eq_refl) as (H1 & _).
  destruct (Shutdown_outcomes (Some context_DeadlineExceeded) Demo.world_in_flight eq_refl)
    as (_ & H2 & _).
  destruct (Shutdown_outcomes None Demo.world_in_flight eq_refl) as (_ & _ & H3 & _).
  split_and!.
  - apply H1. reflexivity.
  - apply H2; [discriminate | reflexivity].
  - apply H3; [discriminate | reflexivity].
Defined.

(** X7. [Shutdown] may be called once: on a transport whose shutdown flag is
    set it panics (it closes a closed channel), and the flag is set by every
    call, however that call ended. So a second [Shutdown] always panics. *)
Theorem Shutdown_twice_panics (c c' : Context) (w : World) :
  (shutdown (transport w) = true -> Shutdown c w = Panics w) /\
  (shutdown (transport w) = false ->
     Shutdown c' (world_of (Shutdown c w)) = Panics (world_of (Shutdown c w))).
Proof.
  assert (forall w0, shutdown (transport w0) = true -> Shutdown c' w0 = Panics w0 /\
                                                      Shutdown c w0 = Panics w0) as Hp.
  { intros w0 Hsh.
    cbv [Shutdown Shutdown_signal Shutdown_loop bind getTransport setTransport
           ret panic block].
    by rewrite Hsh. }
  split.
  - intros Hsh. by apply Hp.
  - intros Hsh. apply Hp.
    cbv [Shutdown Shutdown_signal Shutdown_loop bind getTransport setTransport
           ret panic block].
    rewrite Hsh. simpl. destruct (_ =? 0); [done|]. by destruct c.
Qed.

Lemma Shutdown_twice_panics_witness :
  Shutdown None (world_of (Shutdown None Demo.world))
    = Panics (with_shutdown Demo.world false).
Proof.
  destruct (Shutdown_twice_panics None None Demo.world) as (_ & H).
  exact (H eq_refl).
Defined.

(** X8. Release wakes the waiting [Shutdown]. When [Shutdown] waits for the
    release signal and the last connection in use is put back, [put]
    delivers the signal, and the loop of [Shutdown], going on from its head,
    returns nil. When nobody waits, [put] drops the signal. *)
Theorem put_wakes_Shutdown (p : nat) (w : World) (c : Context) :
  transport_wf (transport w) ->
  (p < connPoolCap (transport w))%nat ->
  p ∉ connPool (transport w) ->
  exists w',
    put p w = Returns tt w' /\
    connReleasedWaiting (transport w') = false /\
    trace w' = trace w ++ EvReaderReset p :: EvReleased p ::
                 (if connReleasedWaiting (transport w) then [EvSignal] else []) /\
    (connInUse (transport w) = 1 -> Shutdown_loop c w' = Returns None w') /\
    (connInUse (transport w) <> 1 -> forall e, c = Some e ->
       Shutdown_loop c w' = Returns (Some e) w').
Proof.
  intros Hwf Hp Hnin.
  pose proof (wf_pool_room _ p Hwf Hp Hnin) as Hroom.
  destruct (wf_lookup_conn _ p Hwf Hp) as (conn & v & _ & _ & Hconn & Hi & Hv & _).
  rewrite <- Hi in Hv.
  rewrite (put_exact p w conn v Hconn Hv Hroom).
  eexists. split; [reflexivity|]. simpl. split_and!; try done.
  - intros Hn. cbv [Shutdown_loop bind getTransport ret]. unfold connInUse in *. simpl.
    rewrite length_app. simpl.
    destruct (Z.eqb_spec (Z.of_nat (connPoolCap (transport w))
                - Z.of_nat (length (connPool (transport w)) + 1)) 0); [done | lia].
  - intros Hn e ->. cbv [Shutdown_loop bind getTransport ret]. unfold connInUse in *.
    simpl. rewrite length_app. simpl.
    destruct (Z.eqb_spec (Z.of_nat (connPoolCap (transport w))
                - Z.of_nat (length (connPool (transport w)) + 1)) 0); [lia | done].
Qed.

Lemma put_wakes_Shutdown_witness :
  exists w',
    put 0 (world_of (Shutdown None Demo.world_in_flight)) = Returns tt w' /\
    trace w' = [EvReaderReset 0; EvReleased 0; EvSignal] /\
    Shutdown_loop None w' = Returns None w'.
Proof.
  destruct (put_wakes_Shutdown 0 (world_of (Shutdown None Demo.world_in_flight)) None)
    as (w' & Hput & _ & Htrace & Hloop & _).
  - exact Demo_world_in_flight_wf.
  - simpl. lia.
  - simpl. intros Hin. apply list_elem_of_singleton in Hin. lia.
  - exists w'. split; [exact Hput|]. split; [exact Htrace|]. apply Hloop. reflexivity.
Defined.

(** ** Close *)

Lemma close_range_step (i k : nat) (l : list usbConn) (conn : usbConn) :
  l !! i = Some conn ->
  close_range (S i) k (<[i := close_iface conn]> l) = close_range i (S k) l.
Proof.
  intros Hi. apply list_eq. intros q. unfold close_range.
  rewrite !list_lookup_imap.
  destruct (decide (q = i)) as [-> | Hne].
  - rewrite list_lookup_insert_eq by (by eapply lookup_lt_Some). rewrite Hi. simpl.
    rewrite bool_decide_false by lia. by rewrite bool_decide_true by lia.
  - rewrite list_lookup_insert_ne by done.
    destruct (l !! q) as [c|]; [|done]. simpl.
    destruct (decide (S i <= q < S i + k)%nat).
    + rewrite bool_decide_true by done. by rewrite bool_decide_true by lia.
    + rewrite bool_decide_false by done. by rewrite bool_decide_false by lia.
Qed.

Lemma close_range_none (i : nat) (l : list usbConn) : close_range i 0 l = l.
Proof.
  apply list_eq. intros q. unfold close_range. rewrite list_lookup_imap.
  destruct (l !! q); [|done]. simpl. by rewrite bool_decide_false by lia.
Qed.

Lemma close_range_all (l : list usbConn) :
  close_range 0 (length l) l = close_iface <$> l.
Proof.
  apply list_eq. intros q. unfold close_range.
  rewrite list_lookup_imap, list_lookup_fmap.
  destruct (l !! q) as [c|] eqn:Hq; [|done]. simpl.
  apply lookup_lt_Some in Hq. by rewrite bool_decide_true by lia.
Qed.

Lemma destroyAll_spec (k : nat) :
  forall (i : nat) (calls : list devCall) (w : World),
    (i + k <= length (connList (transport w)))%nat ->
    destroyAll (seq i k) calls w =
      Returns
        (calls ++ map (fun c => IfaceClose (index c))
                    (take k (drop i (connList (transport w)))))
        (mkWorld
           (mkTransport (connPool (transport w)) (connPoolCap (transport w))
              (close_range i k (connList (transport w)))
              (connReleasedWaiting (transport w)) (shutdown (transport w))
              (connstate (transport w)))
           (headers w) (goroutines w) (trace w ++ map EvDestroy (seq i k))).
Proof.
  induction k as [|k IH]; intros i calls w Hik.
  - simpl. unfold ret. rewrite close_range_none, !app_nil_r.
    by destruct w as [[] ? ? ?].
  - simpl.
    destruct (lookup_lt_is_Some_2 (connList (transport w)) i) as [conn Hconn]; [lia|].
    cbv [bind destroy getConn getTransport setConn setTransport emit ret panic].
    rewrite Hconn. simpl. rewrite Hconn. simpl.
    rewrite IH by (simpl; rewrite length_insert; lia). simpl.
    rewrite <- !app_assoc. simpl.
    change (mkConn (index conn) (mkIface (rx (iface conn)) (tx (iface conn)) true)
              (cntRecv conn) (cntSent conn)) with (close_iface conn).
    rewrite (close_range_step i k _ conn Hconn).
    rewrite drop_insert_lt by lia.
    by rewrite (drop_S _ _ _ Hconn).
Qed.

(** X9. [Close] always returns. On the device handle and the interfaces it
    makes these calls, in this order: Reset, exactly when a connection is
    still in use; then the close of the interface of every connection, once
    each and in the order of the connection list; then the close of the
    device. Destroying a connection closes its interface and changes nothing
    else of it; the pool and the tracker are left alone, and [Close] does
    not wait for the connections in use. On a well-formed transport the
    interfaces are closed in index order. *)
Theorem Close_destroys_all (w : World) :
  exists w',
    UsbTransport_Close w =
      Returns ((if connInUse (transport w) >? 0 then [DevReset] else []) ++
               map (fun c => IfaceClose (index c)) (connList (transport w)) ++
               [DevClose]) w' /\
    trace w' = trace w ++ map EvDestroy (seq 0 (length (connList (transport w)))) /\
    connList (transport w') = close_iface <$> connList (transport w) /\
    (forall p c, connList (transport w') !! p = Some c -> ifClosed (iface c) = true) /\
    connPool (transport w') = connPool (transport w) /\
    connstate (transport w') = connstate (transport w) /\
    ((length (connPool (transport w)) < connPoolCap (transport w))%nat <->
       (connInUse (transport w) >? 0) = true) /\
    (transport_wf (transport w) ->
       map (fun c => IfaceClose (index c)) (connList (transport w)) =
         map IfaceClose (seq 0 (connPoolCap (transport w)))).
Proof.
  cbv [UsbTransport_Close bind getTransport ret].
  rewrite (destroyAll_spec (length (connList (transport w))) 0 _ w) by lia.
  eexists. split.
  { rewrite drop_0, firstn_all, <- app_assoc. reflexivity. }
  simpl. rewrite close_range_all.
  split_and!; try done.
  - intros p c Hc. rewrite list_lookup_fmap in Hc.
    destruct (connList (transport w) !! p); [|done]. by injection Hc as <-.
  - unfold connInUse. destruct (Z.gtb_spec
      (Z.of_nat (connPoolCap (transport w)) - Z.of_nat (length (connPool (transport w)))) 0);
      split; try done; lia.
  - intros (Hlen & Hidx & _). rewrite <- Hlen.
    apply list_eq. intros q. rewrite !list_lookup_fmap.
    destruct (connList (transport w) !! q) as [c|] eqn:Hq; simpl.
    + rewrite lookup_seq_lt by (by eapply lookup_lt_Some). simpl.
      by rewrite (Hidx q c Hq).
    + rewrite lookup_seq_ge; [done|]. by apply lookup_ge_None.
Qed.

Lemma Close_destroys_all_witness :
  exists w',
    UsbTransport_Close Demo.world_in_flight =
      Returns [DevReset; IfaceClose 0; IfaceClose 1; DevClose] w' /\
    trace w' = [EvDestroy 0; EvDestroy 1] /\
    connPool (transport w') = [1]%nat.
Proof.
  destruct (Close_destroys_all Demo.world_in_flight)
    as (w' & HClose & Htrace & _ & _ & Hpool & _).
  exists w'. split; [exact HClose|]. split; [exact Htrace | exact Hpool].
Defined.

(** ** NewUsbTransport *)

Lemma openConns_spec (UsbIfAddr : Type)
    (OpenUsbInterface : UsbIfAddr -> result UsbInterface)
    (IfAddrs : list UsbIfAddr) :
  forall (n : nat) (ifaces : list UsbInterface),
    openConns UsbIfAddr OpenUsbInterface (length ifaces) IfAddrs (opening n ifaces) =
      (opening n (ifaces ++ opened_prefix UsbIfAddr OpenUsbInterface IfAddrs),
       first_failure UsbIfAddr OpenUsbInterface IfAddrs).
Proof.
  induction IfAddrs as [|ifaddr IfAddrs IH]; intros n ifaces; simpl.
  - by rewrite app_nil_r.
  - unfold openUsbConn. destruct (OpenUsbInterface ifaddr) as [iface | e]; simpl.
    + assert (mkTransport (seq 0 (length ifaces) ++ [length (imap (fun i iface0 =>
                  mkConn i iface0 0 0) ifaces)]) n
                (imap (fun i iface0 => mkConn i iface0 0 0) ifaces ++
                 [mkConn (length ifaces) iface 0 0]) false false (newUsbConnState n)
              = opening n (ifaces ++ [iface])) as ->.
      { unfold opening. rewrite length_imap, length_app. simpl.
        rewrite Nat.add_1_r, seq_S. simpl.
        rewrite imap_app. simpl. by rewrite Nat.add_0_r. }
      replace (S (length ifaces)) with (length (ifaces ++ [iface]))
        by (rewrite length_app; simpl; lia).
      rewrite IH. by rewrite <- app_assoc.
    + by rewrite app_nil_r.
Qed.

Lemma opening_wf (n : nat) (ifaces : list UsbInterface) :
  length ifaces = n -> transport_wf (opening n ifaces).
Proof.
  intros Hn. unfold transport_wf, opening, newUsbConnState. simpl.
  rewrite length_imap, !length_replicate. split_and!; try done.
  - intros p c Hc. rewrite list_lookup_imap in Hc.
    destruct (ifaces !! p); [|done]. by injection Hc as <-.
  - apply NoDup_seq.
  - intros p Hp. apply elem_of_seq in Hp. lia.
Qed.

Lemma first_failure_None (UsbIfAddr : Type)
    (OpenUsbInterface : UsbIfAddr -> result UsbInterface)
    (IfAddrs : list UsbIfAddr) :
  first_failure UsbIfAddr OpenUsbInterface IfAddrs = None <->
  length (opened_prefix UsbIfAddr OpenUsbInterface IfAddrs) = length IfAddrs.
Proof.
  induction IfAddrs as [|ifaddr IfAddrs IH]; simpl; [done|].
  destruct (OpenUsbInterface ifaddr); simpl.
  - rewrite IH. lia.
  - split; [done | lia].
Qed.

Lemma opened_prefix_length (UsbIfAddr : Type)
    (OpenUsbInterface : UsbIfAddr -> result UsbInterface)
    (IfAddrs : list UsbIfAddr) :
  (length (opened_prefix UsbIfAddr OpenUsbInterface IfAddrs) <= length IfAddrs)%nat.
Proof.
  induction IfAddrs as [|ifaddr IfAddrs IH]; simpl; [done|].
  destruct (OpenUsbInterface ifaddr); simpl; lia.
Qed.

(** X10. [NewUsbTransport] succeeds exactly when the device opens, its info
    is read and every interface opens. The transport it returns has one
    connection per interface address, numbered in order with zeroed byte
    counters, all of them idle in the pool in index order, a zeroed
    tracker, no shutdown signalled, and it satisfies the invariant; nothing
    was closed. *)
Theorem NewUsbTransport_ok (UsbIfAddr : Type)
    (OpenUsbInterface : UsbIfAddr -> result UsbInterface)
    (opened info : option error) (IfAddrs : list UsbIfAddr) :
  let ifaces := opened_prefix UsbIfAddr OpenUsbInterface IfAddrs in
  let n := length IfAddrs in
  (opened = None /\ info = None /\
   first_failure UsbIfAddr OpenUsbInterface IfAddrs = None <->
   exists t, NewUsbTransport UsbIfAddr OpenUsbInterface opened info IfAddrs = (Ok t, [])) /\
  forall t calls,
    NewUsbTransport UsbIfAddr OpenUsbInterface opened info IfAddrs = (Ok t, calls) ->
    calls = [] /\
    transport_wf t /\
    connPoolCap t = n /\
    connPool t = seq 0 n /\
    connInUse t = 0 /\
    connList t = imap (fun i iface => mkConn i iface 0 0) ifaces /\
    length (connList t) = n /\
    connstate t = newUsbConnState n /\
    shutdown t = false.
Proof.
  intros ifaces n.
  pose proof (openConns_spec UsbIfAddr OpenUsbInterface IfAddrs n []) as Hopen. simpl in Hopen.
  change (opening n []) with
    (mkTransport [] n [] false false (newUsbConnState n)) in Hopen.
  unfold NewUsbTransport. fold n.
  destruct opened as [e|]; [split; [split; [by intros [? _] | by intros [? ?]] | done]|].
  destruct info as [e|]; [split; [split; [by intros (_ & ? & _) | by intros [? ?]] | done]|].
  rewrite Hopen. fold ifaces.
  destruct (first_failure UsbIfAddr OpenUsbInterface IfAddrs) as [e|] eqn:Hfail.
  { split; [split; [by intros (_ & _ & ?) | by intros [? ?]] | done]. }
  apply first_failure_None in Hfail. fold ifaces n in Hfail.
  split; [split; [by eexists | done]|].
  intros t calls [= <- <-]. unfold opening. simpl.
  split_and!; try done.
  - by apply opening_wf.
  - by rewrite Hfail.
  - unfold connInUse. simpl. rewrite length_seq. lia.
  - by rewrite length_imap.
Qed.

(** X11. When [NewUsbTransport] fails, the error is that of the first step
    that failed (device open, device info, then the interfaces in order),
    and what had been opened is released: nothing if the device did not
    open; the device if its info could not be read; otherwise every
    interface opened so far, each once and in index order, and then the
    device. *)
Theorem NewUsbTransport_failure (UsbIfAddr : Type)
    (OpenUsbInterface : UsbIfAddr -> result UsbInterface)
    (opened info : option error) (IfAddrs : list UsbIfAddr)
    (e : error) (calls : list devCall) :
  NewUsbTransport UsbIfAddr OpenUsbInterface opened info IfAddrs = (Err e, calls) ->
  let k := length (opened_prefix UsbIfAddr OpenUsbInterface IfAddrs) in
  (opened = Some e /\ calls = []) \/
  (opened = None /\ info = Some e /\ calls = [DevClose]) \/
  (opened = None /\ info = None /\
   first_failure UsbIfAddr OpenUsbInterface IfAddrs = Some e /\
   (k < length IfAddrs)%nat /\
   calls = map IfaceClose (seq 0 k) ++ [DevClose]).
Proof.
  pose proof (openConns_spec UsbIfAddr OpenUsbInterface IfAddrs (length IfAddrs) [])
    as Hopen. simpl in Hopen.
  change (opening (length IfAddrs) []) with
    (mkTransport [] (length IfAddrs) [] false false (newUsbConnState (length IfAddrs)))
    in Hopen.
  unfold NewUsbTransport.
  destruct opened as [e0|]; [intros [= <- <-]; by left|].
  destruct info as [e0|]; [intros [= <- <-]; right; by left|].
  rewrite Hopen.
  destruct (first_failure UsbIfAddr OpenUsbInterface IfAddrs) as [e0|] eqn:Hfail; [|done].
  intros [= <- <-].
  set (k := length (opened_prefix UsbIfAddr OpenUsbInterface IfAddrs)).
  right. right. split_and!; try done.
  - pose proof (opened_prefix_length UsbIfAddr OpenUsbInterface IfAddrs).
    destruct (decide (k = length IfAddrs)) as [Heq | ?]; [|lia].
    apply first_failure_None in Heq. congruence.
  - f_equal. unfold k.
    generalize (opened_prefix UsbIfAddr OpenUsbInterface IfAddrs). intros l.
    apply list_eq. intros q.
    rewrite !list_lookup_fmap, list_lookup_imap.
    destruct (l !! q) as [iface|] eqn:Hq; simpl.
    + rewrite lookup_seq_lt by (by eapply lookup_lt_Some). done.
    + rewrite lookup_seq_ge; [done|]. by apply lookup_ge_None.
Qed.

Lemma NewUsbTransport_failure_witness :
  NewUsbTransport bool (fun ok => if ok then Ok (mkIface [] [] false) else Err (ErrUsb 3))
    None None [true; true; false; true] =
    (Err (ErrUsb 3), [IfaceClose 0; IfaceClose 1; DevClose]).
Proof.
  destruct (NewUsbTransport_failure bool
              (fun ok => if ok then Ok (mkIface [] [] false) else Err (ErrUsb 3))
              None None [true; true; false; true] (ErrUsb 3)
              [IfaceClose 0; IfaceClose 1; DevClose] eq_refl)
    as [[H _] | [(_ & H & _) | (_ & _ & _ & _ & H)]]; try discriminate.
  reflexivity.
Defined.

(** ** RoundTrip *)

(** X12. The session number that [RoundTrip] passes on is the old value of
    the session counter modulo 1000 for as long as the counter is not
    negative: successive round trips get 0, 1, ..., 999, 0, ... Once the
    [int32] counter has wrapped around, the remainder truncates towards zero
    and the session number is between -999 and 0. *)
Theorem RoundTrip_session (httpSessionID : Z) :
  int32_range httpSessionID ->
  nextSession httpSessionID = (wrap32 (httpSessionID + 1), Z.rem httpSessionID 1000) /\
  (0 <= httpSessionID ->
     (nextSession httpSessionID).2 = httpSessionID mod 1000 /\
     0 <= (nextSession httpSessionID).2 < 1000) /\
  (httpSessionID < 2 ^ 31 - 1 -> (nextSession httpSessionID).1 = httpSessionID + 1) /\
  (httpSessionID = 2 ^ 31 - 1 -> (nextSession httpSessionID).1 = - 2 ^ 31) /\
  (httpSessionID < 0 -> - 1000 < (nextSession httpSessionID).2 <= 0) /\
  forall env r w,
    RoundTrip env httpSessionID r w =
      match RoundTripWithSession env (Z.rem httpSessionID 1000) r w with
      | Returns resp w' => Returns (wrap32 (httpSessionID + 1), resp) w'
      | Panics w' => Panics w'
      | Blocks w' => Blocks w'
      end.
Proof.
  intros Hr.
  assert (nextSession httpSessionID
          = (wrap32 (httpSessionID + 1), Z.rem httpSessionID 1000)) as Hnext.
  { unfold nextSession. f_equal. f_equal.
    replace (wrap32 (httpSessionID + 1) - 1) with (wrap32 (httpSessionID + 1) + -1) by lia.
    by apply wrap32_inc_dec. }
  split_and!.
  - done.
  - intros Hpos. rewrite Hnext. simpl. rewrite Z.rem_mod_nonneg by lia.
    split; [done|]. apply Z.mod_pos_bound. lia.
  - intros Hlt. rewrite Hnext. simpl. unfold int32_range, wrap32, wrap in *.
    change (2 ^ (32 - 1)) with 2147483648. change (2 ^ 32) with 4294967296.
    change (2 ^ 31) with 2147483648 in *.
    rewrite Z.mod_small by lia. lia.
  - intros ->. reflexivity.
  - intros Hneg. rewrite Hnext. simpl.
    pose proof (Z.rem_bound_abs httpSessionID 1000) as Hb.
    pose proof (Z.rem_nonpos httpSessionID 1000). lia.
  - intros env r w. unfold RoundTrip. rewrite Hnext. unfold bind, ret.
    by destruct (RoundTripWithSession env (Z.rem httpSessionID 1000) r w).
Qed.

Lemma RoundTrip_session_witness :
  nextSession 1999 = (2000, 999) /\ nextSession 2147483647 = (-2147483648, 647) /\
  nextSession (-5) = (-4, -5).
Proof.
  destruct (RoundTrip_session 1999 ltac:(unfold int32_range; lia)) as (H1 & _).
  destruct (RoundTrip_session 2147483647 ltac:(unfold int32_range; lia)) as (H2 & _).
  destruct (RoundTrip_session (-5) ltac:(unfold int32_range; lia)) as (H3 & _).
  split_and!; [exact H1 | exact H2 | exact H3].
Defined.

Lemma NewUsbTransport_ok_witness :
  exists t,
    NewUsbTransport bool (fun ok => if ok then Ok (mkIface [] [] false) else Err (ErrUsb 3))
      None None [true; true] = (Ok t, []) /\
    transport_wf t /\ connPool t = [0; 1]%nat.
Proof.
  destruct (NewUsbTransport_ok bool
              (fun ok => if ok then Ok (mkIface [] [] false) else Err (ErrUsb 3))
              None None [true; true]) as [[Hex _] Hok].
  destruct Hex as [t Ht]; [by split_and!|].
  destruct (Hok t [] Ht) as (_ & Hwf & _ & Hpool & _).
  exists t. split; [exact Ht|]. split; [exact Hwf | exact Hpool].
Defined.

(** ** Closing a response body twice *)

Lemma put_full (p : nat) (w : World) (conn : usbConn) (v : Z) :
  connList (transport w) !! p = Some conn ->
  alloc (connstate (transport w)) !! index conn = Some v ->
  (connPoolCap (transport w) <= length (connPool (transport w)))%nat ->
  put p w =
    Blocks
      (mkWorld
         (mkTransport (connPool (transport w)) (connPoolCap (transport w))
            (<[p := mkConn (index conn) (iface conn) 0 0]> (connList (transport w)))
            (connReleasedWaiting (transport w)) (shutdown (transport w))
            (mkConnState (<[index conn := wrap32 (v + -1)]> (alloc (connstate (transport w))))
               (read (connstate (transport w))) (write (connstate (transport w)))))
         (headers w) (goroutines w) (trace w ++ [EvReaderReset p])).
Proof.
  intros Hconn Hv Hfull.
  cbv [put bind getConn getTransport updConnState setConn
         setTransport emit ret panic block putConn addInt32].
  rewrite Hconn. simpl. rewrite Hv. simpl.
  destruct (Nat.ltb_spec (length (connPool (transport w))) (connPoolCap (transport w)))
    as [? | _]; [lia | done].
Qed.

(** [put] is what it does up to the send, and then the send. *)
Lemma put_send_eq (p : nat) :
  put p =
    (let* conn := getConn p in
     emit [EvReaderReset p];;
     setConn p (mkConn (index conn) (iface conn) 0 0);;
     updConnState (fun s => putConn s (index conn));;
     put_send p).
Proof. reflexivity. Qed.

(** The send proceeds as soon as the pool has room. *)
Lemma put_send_room (p : nat) (w : World) :
  (length (connPool (transport w)) < connPoolCap (transport w))%nat ->
  exists w',
    put_send p w = Returns tt w' /\
    connPool (transport w') = connPool (transport w) ++ [p] /\
    connList (transport w') = connList (transport w) /\
    connstate (transport w') = connstate (transport w).
Proof.
  intros Hroom. cbv [put_send bind getTransport setTransport emit ret block].
  destruct (Nat.ltb_spec (length (connPool (transport w))) (connPoolCap (transport w)))
    as [_ | ?]; [|lia].
  simpl. destruct (connReleasedWaiting (transport w)); simpl; by eexists.
Qed.

(** X13. [Close] of a drained response body is not idempotent. The first
    call gives the connection back and keeps the invariant. A second call
    gives it back again. When it was the only connection in use the pool is
    full by then, and the second call waits in its send to the pool, having
    lowered the connection's allocation count once more; it stays there
    while the pool is full. As soon as another request has taken a
    connection from the pool the send proceeds, and the connection given
    back twice is then twice among the connection that request holds and
    the idle ones. Otherwise the second call returns nil at once with the
    connection twice in the pool: the invariant is lost and two connections
    fewer count as in use. *)
Theorem Close_twice (wrap : usbResponseBodyWrapper) (w : World) :
  transport_wf (transport w) ->
  (rsw_conn wrap < connPoolCap (transport w))%nat ->
  rsw_conn wrap ∉ connPool (transport w) ->
  rsw_drained wrap = true ->
  let p := rsw_conn wrap in
  exists wrap1 w1,
    usbResponseBodyWrapper_Close wrap w = Returns (None, wrap1) w1 /\
    transport_wf (transport w1) /\
    connPool (transport w1) = connPool (transport w) ++ [p] /\
    (connInUse (transport w) = 1 ->
       exists w2,
         usbResponseBodyWrapper_Close wrap1 w1 = Blocks w2 /\
         put_send p w2 = Blocks w2 /\
         connPool (transport w2) = connPool (transport w1) /\
         length (connPool (transport w2)) = connPoolCap (transport w2) /\
         (forall v, alloc (connstate (transport w)) !! p = Some v ->
            alloc (connstate (transport w2)) !! p = Some (wrap32 (wrap32 (v + -1) + -1))) /\
         forall pick c q w3,
           usbConnGet pick c w2 = Returns (Ok q) w3 ->
           exists w4,
             put_send p w3 = Returns tt w4 /\
             q :: connPool (transport w4) = connPool (transport w) ++ [p; p]) /\
    (connInUse (transport w) <> 1 ->
       exists wrap2 w2,
         usbResponseBodyWrapper_Close wrap1 w1 = Returns (None, wrap2) w2 /\
         connPool (transport w2) = connPool (transport w) ++ [p; p] /\
         connInUse (transport w2) = connInUse (transport w) - 2 /\
         ~ transport_wf (transport w2)).
Proof.
  intros Hwf Hp Hnin Hdrained p.
  pose proof (wf_pool_room _ p Hwf Hp Hnin) as Hroom.
  destruct (wf_lookup_conn _ p Hwf Hp) as (conn & v & _ & _ & Hconn & Hi & Hv & _).
  pose proof Hv as Hvp. rewrite <- Hi in Hv.
  cbv [usbResponseBodyWrapper_Close ReadCloser_Close]. rewrite Hdrained. fold p.
  cbv [bind emit ret].
  set (w0 := mkWorld (transport w) (headers w) (goroutines w)
               (trace w ++ [EvRespBodyClose p])).
  rewrite (put_exact p w0 conn v Hconn Hv Hroom). simpl.
  eexists _, _. split; [reflexivity|]. simpl.
  split_and!.
  - by apply wf_give.
  - done.
  - intros Hnone. cbv [usbResponseBodyWrapper_Close ReadCloser_Close bind emit ret]. simpl.
    set (w1 := mkWorld _ _ _ (_ ++ [EvRespBodyClose p])).
    assert (connPoolCap (transport w) = length (connPool (transport w) ++ [p])) as Hfull.
    { unfold connInUse in Hnone. rewrite length_app. simpl. lia. }
    rewrite (put_full p w1 (mkConn (index conn) (iface conn) 0 0) (wrap32 (v + -1))).
    + eexists. split; [reflexivity|]. simpl. split_and!.
      * cbv [put_send bind getTransport block]. simpl.
        destruct (Nat.ltb_spec (length (connPool (transport w) ++ [p]))
                    (connPoolCap (transport w))) as [? | _]; [lia | done].
      * done.
      * done.
      * intros v' Hv'. rewrite Hvp in Hv'. injection Hv' as <-. rewrite Hi.
        rewrite list_insert_insert_eq.
        apply list_lookup_insert_eq. by eapply lookup_lt_Some.
      * intros pick c q w3 Hget.
        destruct (usbConnGet_Ok_inv _ _ _ _ _ Hget)
          as (pool' & _ & _ & Hpool2 & _ & _ & Hpool3 & Hcap3 & _).
        simpl in Hpool2, Hcap3.
        destruct (put_send_room p w3) as (w4 & Hsend & Hpool4 & _).
        { rewrite Hpool3, Hcap3, Hfull, Hpool2. simpl. lia. }
        exists w4. split; [done|].
        rewrite Hpool4, Hpool3. rewrite app_comm_cons, <- Hpool2.
        by rewrite <- app_assoc.
    + simpl. apply list_lookup_insert_eq. by eapply lookup_lt_Some.
    + simpl. apply list_lookup_insert_eq. by eapply lookup_lt_Some.
    + simpl. lia.
  - intros Hsome. cbv [usbResponseBodyWrapper_Close ReadCloser_Close bind emit ret]. simpl.
    set (w1 := mkWorld _ _ _ (_ ++ [EvRespBodyClose p])).
    rewrite (put_exact p w1 (mkConn (index conn) (iface conn) 0 0) (wrap32 (v + -1))).
    + eexists _, _. split; [reflexivity|]. simpl. split_and!.
      * by rewrite <- app_assoc.
      * unfold connInUse. simpl. rewrite !length_app. simpl. lia.
      * intros (_ & _ & _ & _ & _ & Hnd & _). simpl in Hnd.
        rewrite <- app_assoc in Hnd. apply NoDup_app in Hnd as (_ & _ & Hnd).
        apply NoDup_cons in Hnd as [Hnd _]. apply Hnd. by left.
    + simpl. apply list_lookup_insert_eq. by eapply lookup_lt_Some.
    + simpl. apply list_lookup_insert_eq. by eapply lookup_lt_Some.
    + unfold connInUse in Hsome. simpl in *.
      pose proof (wf_give (transport w) p conn false (wrap32 (v + -1)) Hwf Hp Hnin Hconn)
        as Hwf1.
      assert (length (connPool (transport w) ++ [p]) <= connPoolCap (transport w))%nat.
      { destruct Hwf1 as (_ & _ & _ & _ & _ & Hnd & Hlt). simpl in *.
        assert (connPool (transport w) ++ [p] ⊆+ seq 0 (connPoolCap (transport w))) as Hsub.
        { apply NoDup_submseteq; [done|]. intros q Hq. apply elem_of_seq.
          apply Hlt in Hq. lia. }
        apply submseteq_length in Hsub. by rewrite length_seq in Hsub. }
      rewrite length_app in *. simpl in *. lia.
Qed.

Lemma Close_twice_witness :
  exists wrap1 w1 w2,
    usbResponseBodyWrapper_Close Demo.wrap_drained Demo.world_in_flight
      = Returns (None, wrap1) w1 /\
    usbResponseBodyWrapper_Close wrap1 w1 = Blocks w2 /\
    put_send 0 w2 = Blocks w2 /\
    connPool (transport w2) = [1; 0]%nat /\
    alloc (connstate (transport w2)) !! 0%nat = Some (-1).
Proof.
  destruct (Close_twice Demo.wrap_drained Demo.world_in_flight)
    as (wrap1 & w1 & HClose & _ & Hpool & Hfull & _).
  - exact Demo_world_in_flight_wf.
  - simpl. lia.
  - simpl. intros Hin. apply list_elem_of_singleton in Hin. lia.
  - reflexivity.
  - destruct Hfull as (w2 & HClose2 & Hsend & Hpool2 & _ & Halloc & _); [reflexivity|].
    exists wrap1, w1, w2.
    split; [exact HClose|]. split; [exact HClose2|]. split; [exact Hsend|].
    split; [by rewrite Hpool2, Hpool | exact (Halloc 1 eq_refl)].
Defined.

(** ** A round trip from acquire to release *)

Lemma exchange_Ok_inv (env : Env) (session : Z) (c : Context) (outreq : Request outBody)
    (w w2 : World) (resp : Response usbResponseBodyWrapper) :
  exchange env session c outreq w = Returns (Ok resp) w2 ->
  exists p w1 w1' r,
    usbConnGet (pick env) c w = Returns (Ok p) w1 /\
    Request_Write env outreq p w1 = Returns None w1' /\
    ReadResponse env p w1' = Returns (Ok r) w2 /\
    resp = mkResponse (StatusCode r) (mkResponseBodyWrapper session (RespBody r) p 0 false).
Proof.
  unfold exchange, bind, ret.
  destruct (usbConnGet (pick env) c w) as [[p | e] w1 | |] eqn:Hget; try done.
  destruct (Request_Write env outreq p w1) as [[e |] w1' | |] eqn:Hw; try done.
  { by destruct (put p w1'). }
  destruct (ReadResponse env p w1') as [[r | e] w2' | |] eqn:Hr; try done.
  { intros [= <- <-]. by exists p, w1, w1', r. }
  by destruct (put p w2').
Qed.

(** X14. A successful round trip holds its connection until the response
    body is closed. When [exchange] returns a response, the body wrapper is
    not drained and refers to the connection that was the oldest idle one;
    that connection is out of the pool and has been neither released nor
    destroyed. Whatever I/O is done on connections afterwards, [Close] of
    the drained wrapper then returns nil with the connection at the end of
    the pool, as many connections in use as before the round trip, and the
    tracker's allocation counts as before it. *)
Theorem round_trip_then_Close (env : Env) (session : Z) (c : Context)
    (outreq : Request outBody) (w w2 w3 : World)
    (resp : Response usbResponseBodyWrapper) (wrap : usbResponseBodyWrapper) :
  transport_wf (transport w) ->
  Forall int32_range (alloc (connstate (transport w))) ->
  exchange env session c outreq w = Returns (Ok resp) w2 ->
  conn_frame holds_conn w2 w3 ->
  rsw_conn wrap = rsw_conn (RespBody resp) ->
  rsw_drained wrap = true ->
  exists p pool evs wrap' w4,
    connPool (transport w) = p :: pool /\
    rsw_conn (RespBody resp) = p /\
    rsw_drained (RespBody resp) = false /\
    rsw_count (RespBody resp) = 0 /\
    connPool (transport w2) = pool /\
    connInUse (transport w2) = connInUse (transport w) + 1 /\
    trace w2 = trace w ++ EvAllocated p :: evs /\
    Forall holds_conn evs /\
    usbResponseBodyWrapper_Close wrap w3 = Returns (None, wrap') w4 /\
    closed (rsw_body wrap') = true /\
    connPool (transport w4) = pool ++ [p] /\
    connInUse (transport w4) = connInUse (transport w) /\
    alloc (connstate (transport w4)) = alloc (connstate (transport w)).
Proof.
  intros Hwf Hrange Hex Hio Hconnw Hdrained.
  destruct (exchange_Ok_inv _ _ _ _ _ _ _ Hex) as (p & w1 & w1' & r & Hget & Hw & Hr & ->).
  simpl in Hconnw.
  destruct (usbConnGet_Ok_inv _ _ _ _ _ Hget)
    as (pool & conn & v & Hpool & Hconn & Hv & Hpool1 & Hcap1 & Hlist1 & Halloc1 & Htrace1).
  assert (conn_frame holds_conn w1 w2) as Hfr.
  { pose proof (Request_Write_frame env outreq p w1) as Hfr. rewrite Hw in Hfr.
    pose proof (ReadResponse_frame env p w1') as Hfr'. rewrite Hr in Hfr'.
    etrans.
    - eapply conn_frame_weaken; [|exact Hfr]. by intros ev [_ ?].
    - eapply conn_frame_weaken; [|exact Hfr']. by intros []. }
  pose proof Hfr as (_ & _ & Hpool2 & Hcap2 & _ & _ & Halloc2 & _ & evs & Htrace2 & Hevs).
  assert (conn_frame holds_conn w1 w3) as Hfr3 by (by etrans).
  destruct Hfr3 as (_ & _ & Hpool3 & Hcap3 & _ & _ & Halloc3 & Hid3 & _).
  destruct (wf_take _ p pool (index conn) (wrap32 (v + 1)) Hwf Hpool) as (Hp & Hnin & _).
  assert (index conn = p) as Hi.
  { destruct Hwf as (_ & Hidx & _). by apply Hidx. }
  assert (exists conn3, connList (transport w3) !! p = Some conn3 /\
                        index conn3 = index conn) as (conn3 & Hconn3 & Hidx3).
  { specialize (Hid3 p). rewrite Hlist1, Hconn in Hid3. simpl in Hid3.
    destruct (connList (transport w3) !! p) as [conn3|]; [|done].
    exists conn3. split; [done|]. by injection Hid3. }
  assert (length (connPool (transport w)) <= connPoolCap (transport w))%nat as Hcap.
  { destruct Hwf as (_ & _ & _ & _ & _ & Hnd & Hlt).
    assert (connPool (transport w) ⊆+ seq 0 (connPoolCap (transport w))) as Hsub.
    { apply NoDup_submseteq; [done|]. intros q Hq. apply elem_of_seq.
      apply Hlt in Hq. lia. }
    apply submseteq_length in Hsub. by rewrite length_seq in Hsub. }
  rewrite Hpool in Hcap. simpl in Hcap.
  assert (alloc (connstate (transport w3)) !! index conn3 = Some (wrap32 (v + 1))) as Hv3.
  { rewrite Halloc3, Halloc1, Hidx3.
    apply list_lookup_insert_eq. by eapply lookup_lt_Some. }
  assert (length (connPool (transport w3)) < connPoolCap (transport w3))%nat as Hroom.
  { rewrite Hpool3, Hcap3, Hpool1, Hcap1. lia. }
  cbv [usbResponseBodyWrapper_Close ReadCloser_Close]. rewrite Hdrained, Hconnw.
  cbv [bind emit ret].
  set (w3' := mkWorld (transport w3) (headers w3) (goroutines w3)
                (trace w3 ++ [EvRespBodyClose p])).
  rewrite (put_exact p w3' conn3 (wrap32 (v + 1)) Hconn3 Hv3 Hroom).
  exists p, pool, evs. eexists _, _. simpl.
  split_and!; try done.
  - by rewrite Hpool2.
  - unfold connInUse. rewrite Hpool2, Hcap2, Hpool1, Hcap1, Hpool. simpl. lia.
  - rewrite Htrace2, Htrace1. by rewrite <- app_assoc.
  - by rewrite Hpool3, Hpool1.
  - unfold connInUse. simpl. rewrite length_app, Hpool3, Hcap3, Hpool1, Hcap1, Hpool.
    simpl. lia.
  - rewrite Halloc3, Halloc1, Hidx3, list_insert_insert_eq.
    rewrite wrap32_inc_dec.
    + by apply list_insert_id.
    + rewrite Forall_forall in Hrange. apply Hrange. by eapply list_elem_of_lookup_2.
Qed.

Lemma round_trip_then_Close_witness :
  exists wrap' w4,
    usbResponseBodyWrapper_Close Demo.wrap_drained
      (world_of (exchange Demo.env 1 None (prepared 1 Demo.rq3) Demo.world))
      = Returns (None, wrap') w4 /\
    connPool (transport w4) = [1; 0]%nat /\
    alloc (connstate (transport w4)) = [0; 0].
Proof.
  pose (w2 := world_of (exchange Demo.env 1 None (prepared 1 Demo.rq3) Demo.world)).
  destruct (round_trip_then_Close Demo.env 1 None (prepared 1 Demo.rq3) Demo.world w2 w2
              (mkResponse 200
                 (mkResponseBodyWrapper 1
                    (mkReadCloser [([Byte.x6f; Byte.x6b], None)] false None) 0 0 false))
              Demo.wrap_drained)
    as (p & pool & evs & wrap' & w4 & Hpool & _ & _ & _ & _ & _ & _ & _ & HClose & _
        & Hpool4 & _ & Halloc4).
  - exact Demo_world_wf.
  - simpl. repeat constructor; unfold int32_range; lia.
  - vm_compute. reflexivity.
  - reflexivity.
  - reflexivity.
  - reflexivity.
  - injection Hpool as <- <-. exists wrap', w4.
    split; [exact HClose|]. split; [exact Hpool4 | exact Halloc4].
Defined.

(** * The logger: proofs *)

(** ** Log levels *)

Lemma land_lor_nonzero (a b c : Z) : Z.land a c <> 0 -> Z.land (Z.lor a b) c <> 0.
Proof.
  intros Ha Hz. rewrite Z.land_lor_distr_l in Hz.
  apply Z.lor_eq_0_iff in Hz as [? _]. done.
Qed.

Lemma land_lor_nonzero_r (a b c : Z) : Z.land b c <> 0 -> Z.land (Z.lor a b) c <> 0.
Proof. rewrite Z.lor_comm. apply land_lor_nonzero. Qed.

(** The cases of [Adjust]. *)
Lemma Adjust_cases (lv : Z) :
  (Z.land lv LogTraceAll <> 0 /\ LogLevel_Adjust lv = Z.lor lv 7) \/
  (Z.land lv LogTraceAll = 0 /\ Z.land lv LogDebug <> 0 /\
   LogLevel_Adjust lv = Z.lor lv 3) \/
  (Z.land lv LogTraceAll = 0 /\ Z.land lv LogDebug = 0 /\ Z.land lv LogInfo <> 0 /\
   LogLevel_Adjust lv = Z.lor lv 1) \/
  (Z.land lv LogTraceAll = 0 /\ Z.land lv LogDebug = 0 /\ Z.land lv LogInfo = 0 /\
   LogLevel_Adjust lv = lv).
Proof.
  unfold LogLevel_Adjust.
  destruct (Z.eqb_spec (Z.land lv LogTraceAll) 0) as [Ht | Ht]; simpl; [|by left].
  destruct (Z.eqb_spec (Z.land lv LogDebug) 0) as [Hd | Hd]; simpl; [|right; by left].
  destruct (Z.eqb_spec (Z.land lv LogInfo) 0) as [Hi | Hi]; simpl;
    [|right; right; by left].
  by do 3 right.
Qed.

Lemma Adjust_Adjust (lv : Z) : LogLevel_Adjust (LogLevel_Adjust lv) = LogLevel_Adjust lv.
Proof.
  destruct (Adjust_cases lv)
    as [(Ht & ->) | [(Ht & Hd & ->) | [(Ht & Hd & Hi & ->) | (Ht & Hd & Hi & ->)]]].
  - destruct (Adjust_cases (Z.lor lv 7))
      as [(_ & ->) | [(Ht' & _) | [(Ht' & _) | (Ht' & _)]]];
      [by rewrite <- Z.lor_assoc | | |];
      by apply (land_lor_nonzero lv 7) in Ht.
  - destruct (Adjust_cases (Z.lor lv 3))
      as [(Ht' & _) | [(_ & _ & ->) | [(_ & Hd' & _) | (_ & Hd' & _)]]].
    + rewrite Z.land_lor_distr_l, Ht in Ht'. done.
    + by rewrite <- Z.lor_assoc.
    + by apply (land_lor_nonzero lv 3) in Hd.
    + by apply (land_lor_nonzero lv 3) in Hd.
  - destruct (Adjust_cases (Z.lor lv 1))
      as [(Ht' & _) | [(_ & Hd' & _) | [(_ & _ & _ & ->) | (_ & _ & Hi' & _)]]].
    + rewrite Z.land_lor_distr_l, Ht in Ht'. done.
    + rewrite Z.land_lor_distr_l, Hd in Hd'. done.
    + by rewrite <- Z.lor_assoc.
    + by apply (land_lor_nonzero lv 1) in Hi.
  - destruct (Adjust_cases lv)
      as [(? & _) | [(_ & ? & _) | [(_ & _ & ? & _) | (_ & _ & _ & ->)]]]; done.
Qed.

(** X15. [SetLevels] keeps every level asked for and adds the less detailed
    ones: any trace level brings debug, info and error; debug brings info
    and error; info brings error. So with a more detailed level set, the
    logger's own output also gets the lines of the less detailed levels.
    Adjusting twice changes nothing more, and a mask with error alone, or
    with nothing, is left as it is. *)
Theorem SetLevels_adds_lower_levels (l : Logger) (lv : Z) :
  let l' := Logger_SetLevels l lv in
  (forall level, Z.land lv level <> 0 ->
     generates l' level = true /\ writes l' level = true) /\
  (Z.land lv LogTraceAll <> 0 ->
     writes l' LogDebug = true /\ writes l' LogInfo = true /\ writes l' LogError = true) /\
  (Z.land lv LogDebug <> 0 -> writes l' LogInfo = true /\ writes l' LogError = true) /\
  (Z.land lv LogInfo <> 0 -> writes l' LogError = true) /\
  LogLevel_Adjust (LogLevel_Adjust lv) = LogLevel_Adjust lv /\
  Z.land (LogLevel_Adjust lv) LogTraceAll = Z.land lv LogTraceAll /\
  (Z.land lv (Z.lor (Z.lor LogInfo LogDebug) LogTraceAll) = 0 -> LogLevel_Adjust lv = lv) /\
  ccLevels l' = ccLevels l.
Proof.
  intros l'. unfold l', Logger_SetLevels, generates, writes. simpl.
  assert (forall a, a <> 0 -> negb (a =? 0) = true) as Hneg.
  { intros a Ha. by destruct (Z.eqb_spec a 0). }
  assert (exists k, LogLevel_Adjust lv = Z.lor lv k /\
                    (k = 0 \/ k = 1 \/ k = 3 \/ k = 7) /\
                    (Z.land lv LogTraceAll <> 0 -> k = 7) /\
                    (Z.land lv LogDebug <> 0 -> k = 3 \/ k = 7) /\
                    (Z.land lv LogInfo <> 0 -> k = 1 \/ k = 3 \/ k = 7))
    as (k & Hk & Hcases & Ht & Hd & Hi).
  { destruct (Adjust_cases lv)
      as [(Ht & ->) | [(Ht & Hd & ->) | [(Ht & Hd & Hi & ->) | (Ht & Hd & Hi & ->)]]].
    - exists 7. split_and!; tauto.
    - exists 3. split_and!; tauto.
    - exists 1. split_and!; tauto.
    - exists 0. rewrite Z.lor_0_r. split_and!; tauto. }
  split_and!.
  - intros level Hlevel. split; apply Hneg.
    + rewrite Hk. by do 2 apply land_lor_nonzero.
    + rewrite Z.land_comm, Hk. by apply land_lor_nonzero.
  - intros Hlv. rewrite Hk, (Ht Hlv).
    split_and!; apply Hneg; rewrite Z.land_comm; by apply land_lor_nonzero_r.
  - intros Hlv. rewrite Hk.
    split_and!; apply Hneg; rewrite Z.land_comm; apply land_lor_nonzero_r;
      by destruct (Hd Hlv) as [-> | ->].
  - intros Hlv. rewrite Hk.
    apply Hneg; rewrite Z.land_comm; apply land_lor_nonzero_r;
      by destruct (Hi Hlv) as [-> | [-> | ->]].
  - apply Adjust_Adjust.
  - rewrite Hk, Z.land_lor_distr_l.
    destruct Hcases as [-> | [-> | [-> | ->]]]; simpl; by rewrite Z.lor_0_r.
  - intros Hz. rewrite !Z.land_lor_distr_r in Hz.
    apply Z.lor_eq_0_iff in Hz as [Hz Ht0]. apply Z.lor_eq_0_iff in Hz as [Hi0 Hd0].
    unfold LogLevel_Adjust. by rewrite Ht0, Hd0, Hi0.
  - done.
Qed.

Lemma SetLevels_adds_lower_levels_witness :
  levels (Logger_SetLevels NewLogger LogTraceHTTP) = 39 /\
  writes (Logger_SetLevels NewLogger LogTraceHTTP) LogError = true.
Proof.
  destruct (SetLevels_adds_lower_levels NewLogger LogTraceHTTP) as (_ & H & _).
  split; [reflexivity|]. apply H. discriminate.
Defined.

(** ** Line buffers *)

Lemma trim_loop_le (bytes : list Byte.byte) (i : nat) : (trim_loop bytes i <= i)%nat.
Proof.
  induction i as [|j IH]; simpl; [done|].
  destruct (bytes !! j); [|done]. destruct (isSpace b); lia.
Qed.

(** Where the loop stops: everything from there to [i] is space, and the
    byte before is not. *)
Lemma trim_loop_spec (bytes : list Byte.byte) (i : nat) :
  (i <= length bytes)%nat ->
  (forall q c, (trim_loop bytes i <= q < i)%nat -> bytes !! q = Some c -> isSpace c = true) /\
  (forall j c, trim_loop bytes i = S j -> bytes !! j = Some c -> isSpace c = false).
Proof.
  induction i as [|j IH]; intros Hi; simpl.
  - split; [intros; lia | done].
  - destruct (lookup_lt_is_Some_2 bytes j) as [c Hc]; [lia|]. rewrite Hc.
    destruct (isSpace c) eqn:Hsp.
    + destruct IH as [IH1 IH2]; [lia|]. split; [|done].
      intros q c' Hq Hc'. destruct (decide (q = j)) as [-> | ?]; [congruence|].
      apply (IH1 q); [lia | done].
    + split; [intros; lia|]. intros j' c' [= <-]. congruence.
Qed.

(** The loop does not look beyond [i]. *)
Lemma trim_loop_app (bytes tail : list Byte.byte) (i : nat) :
  (i <= length bytes)%nat -> trim_loop (bytes ++ tail) i = trim_loop bytes i.
Proof.
  induction i as [|j IH]; intros Hi; simpl; [done|].
  rewrite lookup_app_l by lia. rewrite IH by lia. done.
Qed.

Lemma trim_loop_spaces (bytes tail : list Byte.byte) :
  Forall (fun c => isSpace c = true) tail ->
  trim_loop (bytes ++ tail) (length (bytes ++ tail)) = trim_loop bytes (length bytes).
Proof.
  induction tail as [|c tail IH] using rev_ind; intros Hsp.
  - by rewrite app_nil_r.
  - apply Forall_app in Hsp as [Hsp Hc]. rewrite Forall_singleton in Hc.
    rewrite app_assoc, length_app. simpl. rewrite Nat.add_1_r. simpl.
    rewrite lookup_app_r by lia. rewrite Nat.sub_diag. simpl. rewrite Hc.
    rewrite trim_loop_app by lia. by apply IH.
Qed.

Lemma trim_loop_stop (bytes : list Byte.byte) (c : Byte.byte) :
  isSpace c = false ->
  trim_loop (bytes ++ [c]) (length (bytes ++ [c])) = length (bytes ++ [c]).
Proof.
  intros Hc. rewrite length_app. simpl. rewrite Nat.add_1_r. simpl.
  rewrite lookup_app_r by lia. rewrite Nat.sub_diag. simpl. by rewrite Hc.
Qed.

(** X16. [trim] removes exactly the trailing space: the buffer is the
    trimmed buffer followed by bytes that all count as space, and the
    trimmed buffer is empty or ends in a byte that does not. Hence trimming
    again changes nothing, space appended to a buffer goes away, and a
    buffer of nothing but space becomes empty. *)
Theorem trim_removes_trailing_space (buf : list Byte.byte) :
  (exists tail, buf = logLineBuf_trim buf ++ tail /\
                Forall (fun c => isSpace c = true) tail) /\
  (forall c, last (logLineBuf_trim buf) = Some c -> isSpace c = false) /\
  logLineBuf_trim (logLineBuf_trim buf) = logLineBuf_trim buf /\
  (forall tail, Forall (fun c => isSpace c = true) tail ->
     logLineBuf_trim (buf ++ tail) = logLineBuf_trim buf) /\
  (Forall (fun c => isSpace c = true) buf <-> logLineBuf_empty (logLineBuf_trim buf) = true).
Proof.
  unfold logLineBuf_trim.
  pose proof (trim_loop_le buf (length buf)) as Hle.
  destruct (trim_loop_spec buf (length buf)) as [Hsp Hlast]; [done|].
  set (n := trim_loop buf (length buf)) in *.
  assert (Forall (fun c => isSpace c = true) (drop n buf)) as Htail.
  { apply Forall_lookup. intros q c Hq. rewrite lookup_drop in Hq.
    apply (Hsp (n + q)%nat); [|done]. apply lookup_lt_Some in Hq. lia. }
  assert (forall c, last (take n buf) = Some c -> isSpace c = false) as Hl.
  { intros c Hc. rewrite last_lookup, length_take, Nat.min_l in Hc by lia.
    destruct n as [|j]; [done|]. simpl in Hc.
    rewrite lookup_take_lt in Hc by lia. by apply (Hlast j). }
  assert (forall l, (forall c, last l = Some c -> isSpace c = false) ->
                    trim_loop l (length l) = length l) as Hfix.
  { intros l. destruct l as [|c l _] using rev_ind; [done|]. intros Hc.
    apply trim_loop_stop. apply Hc. by rewrite last_snoc. }
  split_and!.
  - exists (drop n buf). by rewrite take_drop.
  - done.
  - rewrite (Hfix _ Hl). by rewrite firstn_all.
  - intros tail Hsptail.
    rewrite <- (take_drop n buf) at 1 2 3. rewrite <- app_assoc.
    rewrite trim_loop_spaces by (by apply Forall_app).
    rewrite (Hfix _ Hl). by rewrite take_app_length.
  - unfold logLineBuf_empty. rewrite length_take, Nat.min_l by lia. split.
    + intros Hall. apply Nat.eqb_eq. destruct n as [|j]; [done|].
      destruct (lookup_lt_is_Some_2 buf j) as [c Hc]; [lia|].
      pose proof (Hlast j c eq_refl Hc). rewrite Forall_lookup in Hall.
      pose proof (Hall j c Hc). congruence.
    + intros Hn%Nat.eqb_eq. rewrite Hn in Htail. by rewrite drop_0 in Htail.
Qed.

(** X17. [trim] works on bytes, and 0x85 and 0xA0 are also the last bytes
    of multi-byte UTF-8 characters: a line that ends in such a character
    (U+00E0 is C3 A0, U+00C5 is C3 85) loses that byte and keeps the lead
    byte, so that the line written no longer ends in a whole character. *)
Theorem trim_cuts_utf8 (buf : list Byte.byte) (lead last : Byte.byte) :
  isSpace lead = false ->
  last = Byte.x85 \/ last = Byte.xa0 ->
  logLineBuf_trim (buf ++ [lead; last]) = buf ++ [lead].
Proof.
  intros Hlead Hlast. unfold logLineBuf_trim.
  replace (buf ++ [lead; last]) with ((buf ++ [lead]) ++ [last])
    by (by rewrite <- app_assoc).
  rewrite trim_loop_spaces
    by (rewrite Forall_singleton; by destruct Hlast as [-> | ->]).
  rewrite trim_loop_stop by done.
  by rewrite take_app_length.
Qed.

Lemma trim_cuts_utf8_witness :
  logLineBuf_trim [Byte.x76; Byte.x6f; Byte.x69; Byte.x6c; Byte.xc3; Byte.xa0] =
    [Byte.x76; Byte.x6f; Byte.x69; Byte.x6c; Byte.xc3].
Proof.
  apply (trim_cuts_utf8 [Byte.x76; Byte.x6f; Byte.x69; Byte.x6c] Byte.xc3 Byte.xa0).
  - reflexivity.
  - right. reflexivity.
Defined.

Lemma trim_removes_trailing_space_witness :
  logLineBuf_trim [Byte.x2d; Byte.x20; Byte.x6f; Byte.x6b; Byte.x20; Byte.x0a] =
    [Byte.x2d; Byte.x20; Byte.x6f; Byte.x6b].
Proof.
  destruct (trim_removes_trailing_space [Byte.x2d; Byte.x20; Byte.x6f; Byte.x6b])
    as (_ & _ & _ & Happ & _).
  etrans; [|reflexivity].
  apply (Happ [Byte.x20; Byte.x0a]). by repeat constructor.
Defined.

(** ** Rotation of the log file *)

Lemma list_ascii_of_string_app (s1 s2 : string) :
  String.list_ascii_of_string (s1 +:+ s2) =
    String.list_ascii_of_string s1 ++ String.list_ascii_of_string s2.
Proof.
  induction s1 as [|c s1 IH]; [done|].
  rewrite string_app_cons. simpl. by rewrite IH.
Qed.

Lemma string_app_inj_tail (s1 s2 s : string) : s1 +:+ s = s2 +:+ s -> s1 = s2.
Proof.
  intros Heq. apply (f_equal String.list_ascii_of_string) in Heq.
  rewrite !list_ascii_of_string_app in Heq. apply app_inv_tail in Heq.
  apply (f_equal String.string_of_list_ascii) in Heq.
  by rewrite !String.string_of_list_ascii_of_string in Heq.
Qed.

Lemma fmt_d_inj (i j : nat) : fmt_d i = fmt_d j -> i = j.
Proof.
  unfold fmt_d. intros Heq.
  apply (f_equal NilEmpty.uint_of_string) in Heq. rewrite !NilEmpty.usu in Heq.
  injection Heq as Heq. apply (f_equal Nat.of_uint) in Heq.
  by rewrite !DecimalNat.Unsigned.of_to in Heq.
Qed.

Lemma backupPath_inj (path : string) (i j : nat) :
  backupPath path i = backupPath path j -> i = j.
Proof.
  unfold backupPath. intros Heq.
  apply String.app_inj in Heq. apply String.app_inj in Heq.
  apply string_app_inj_tail in Heq. by apply fmt_d_inj.
Qed.

Lemma backupPath_ne_path (path : string) (i : nat) : backupPath path i <> path.
Proof.
  unfold backupPath. intros Heq.
  rewrite <- (string_app_nil_r path) in Heq at 2.
  apply String.app_inj in Heq. discriminate.
Qed.

(** What a rename does to the files. *)
Lemma os_Rename_lookup (old new : string) (fs : gmap string (list Byte.byte)) (p : string) :
  fs !! new = None -> old <> new ->
  os_Rename old new fs !! p =
    if decide (p = new) then fs !! old
    else if decide (p = old) then None
    else fs !! p.
Proof.
  intros Hnew Hne. unfold os_Rename.
  destruct (fs !! old) as [data|] eqn:Hold.
  - destruct (decide (p = new)) as [-> | ?]; [by rewrite lookup_insert_eq|].
    rewrite lookup_insert_ne by done.
    destruct (decide (p = old)) as [-> | ?]; [by rewrite lookup_delete_eq|].
    by rewrite lookup_delete_ne.
  - destruct (decide (p = new)) as [-> | ?]; [done|].
    destruct (decide (p = old)) as [-> | ?]; done.
Qed.

(** The loop shifts the backups below [i] up by one and leaves the place of
    the newest free. *)
Lemma rotate_loop_spec (path : string) (N : nat) :
  forall (i : nat) (prev : string) (fs : gmap string (list Byte.byte)),
    (i <= N)%nat ->
    ((i < N)%nat -> prev = backupPath path i /\ fs !! backupPath path i = None) ->
    let out := rotate_loop path N i prev fs in
    ((0 < i)%nat -> out.1 = backupPath path 0 /\ out.2 !! backupPath path 0 = None) /\
    (forall k, (0 < k <= i)%nat -> (k < N)%nat ->
       out.2 !! backupPath path k = fs !! backupPath path (k - 1)) /\
    (forall p, (forall k, (k <= i)%nat -> (k < N)%nat -> p <> backupPath path k) ->
       out.2 !! p = fs !! p).
Proof.
  induction i as [|j IH]; intros prev fs Hi Hprev; simpl.
  - split_and!; [lia | intros; lia | done].
  - set (fs1 := if (S j =? N)%nat then os_Remove (backupPath path j) fs
                else os_Rename (backupPath path j) prev fs).
    assert (forall p, fs1 !! p =
              if decide (p = backupPath path j) then None
              else if decide (p = backupPath path (S j)) then
                     (if decide (S j < N)%nat then fs !! backupPath path j else fs !! p)
              else fs !! p) as Hfs1.
    { intros p. unfold fs1. destruct (Nat.eqb_spec (S j) N) as [HN | HN].
      - unfold os_Remove. destruct (decide (p = backupPath path j)) as [-> | ?].
        + by rewrite lookup_delete_eq.
        + rewrite lookup_delete_ne by done.
          destruct (decide (p = backupPath path (S j))); [|done].
          destruct (decide (S j < N)%nat); [lia | done].
      - destruct Hprev as [-> Hnone]; [lia|].
        rewrite os_Rename_lookup; [|done|].
        2: { intros Heq%backupPath_inj. lia. }
        destruct (decide (p = backupPath path (S j))) as [-> | ?].
        + rewrite decide_False by (intros Heq%backupPath_inj; lia).
          by rewrite decide_True by lia.
        + by destruct (decide _). }
    destruct (IH (backupPath path j) fs1) as (H0 & Hshift & Hother); [lia | |].
    { intros _. split; [done|]. rewrite Hfs1. by rewrite decide_True. }
    split_and!.
    + intros _. destruct j as [|j'].
      * simpl. split; [done|]. rewrite Hfs1. by rewrite decide_True.
      * apply H0. lia.
    + intros k Hk HkN. destruct (decide (k = S j)) as [-> | Hne].
      * rewrite Hother.
        -- rewrite Hfs1. rewrite decide_False by (intros Heq%backupPath_inj; lia).
           rewrite decide_True by done. rewrite decide_True by done.
           by rewrite Nat.sub_1_r.
        -- intros k' Hk' _ Heq%backupPath_inj. lia.
      * rewrite Hshift by lia. rewrite Hfs1.
        rewrite decide_False by (intros Heq%backupPath_inj; lia).
        by rewrite decide_False by (intros Heq%backupPath_inj; lia).
    + intros p Hp. rewrite Hother.
      * rewrite Hfs1. rewrite decide_False by (apply Hp; lia).
        destruct (decide (p = backupPath path (S j))) as [-> | ?]; [|done].
        destruct (decide (S j < N)%nat) as [HN | ?]; [|done].
        by destruct (Hp (S j)).
      * intros k Hk HkN. apply Hp; lia.
Qed.

(** [gzip] all or nothing. *)
Lemma Logger_gzip_spec (env : GzipEnv) (ipath opath : string) (fs : gmap string (list Byte.byte))
    (data : list Byte.byte) :
  fs !! ipath = Some data -> fs !! opath = None -> ipath <> opath ->
  if gzip_fails env then
    exists e, Logger_gzip env ipath opath fs = (Some e, fs)
  else Logger_gzip env ipath opath fs = (None, <[opath := compress env data]> fs).
Proof.
  intros Hin Hout Hne. unfold Logger_gzip, gzip_fails. rewrite Hin.
  assert (os_Remove opath (<[opath := compress env data]> fs) = fs) as Hrm.
  { unfold os_Remove. rewrite delete_insert_eq. by apply delete_id. }
  destruct (gz_open env) as [e|]; simpl; [by eexists|].
  destruct (gz_create env) as [e|]; simpl; [by eexists|].
  destruct (gz_copy env) as [e|]; simpl; [rewrite Hrm; by eexists|].
  destruct (gz_wclose env) as [e|]; simpl; [rewrite Hrm; by eexists|].
  destruct (gz_fclose env) as [e|]; simpl; [rewrite Hrm; by eexists|].
  done.
Qed.

(** One rotation that is due, with backups kept. *)
Lemma rotate_due (LogMaxFileSize : Z) (N : nat) (env : GzipEnv) (path : string)
    (fs : gmap string (list Byte.byte)) (data : list Byte.byte) :
  fs !! path = Some data -> LogMaxFileSize < Z.of_nat (length data) -> (0 < N)%nat ->
  let fs' := Logger_rotate LogMaxFileSize N env true None path fs in
  (forall k, (0 < k < N)%nat -> fs' !! backupPath path k = fs !! backupPath path (k - 1)) /\
  (forall p, p <> path -> (forall k, (k < N)%nat -> p <> backupPath path k) ->
     fs' !! p = fs !! p) /\
  fs' !! path = (if gzip_fails env then Some data else Some []) /\
  fs' !! backupPath path 0 =
    (if gzip_fails env then None else Some (compress env data)).
Proof.
  intros Hdata Hsize HN. unfold Logger_rotate. simpl. rewrite Hdata.
  destruct (Z.leb_spec (Z.of_nat (length data)) LogMaxFileSize) as [? | _]; [lia|].
  destruct (Nat.ltb_spec 0 N) as [_ | ?]; [|lia].
  destruct (rotate_loop_spec path N N EmptyString fs) as (H0 & Hshift & Hother);
    [lia | lia |].
  destruct (rotate_loop path N N EmptyString fs) as [prev fs1]. simpl in *.
  destruct (H0 HN) as [-> Hnone].
  assert (fs1 !! path = Some data) as Hdata1.
  { rewrite Hother; [done|]. intros k _ _ Heq. by eapply backupPath_ne_path. }
  pose proof (Logger_gzip_spec env path (backupPath path 0) fs1 data Hdata1 Hnone) as Hgz.
  destruct (gzip_fails env).
  - destruct Hgz as [e ->]; [intros Heq; by eapply backupPath_ne_path|].
    split_and!; try done.
    + intros k Hk. apply Hshift; lia.
    + intros p _ Hp. apply Hother. intros k _ HkN. by apply Hp.
  - rewrite Hgz by (intros Heq; by eapply backupPath_ne_path).
    unfold file_Truncate. split_and!.
    + intros k Hk. rewrite lookup_insert_ne by (apply not_eq_sym, backupPath_ne_path).
      rewrite lookup_insert_ne by (intros Heq%backupPath_inj; lia).
      apply Hshift; lia.
    + intros p Hpath Hp. rewrite lookup_insert_ne by done.
      rewrite lookup_insert_ne by (apply not_eq_sym, Hp; lia).
      apply Hother. intros k _ HkN. by apply Hp.
    + by rewrite lookup_insert_eq.
    + rewrite lookup_insert_ne by (apply not_eq_sym, backupPath_ne_path).
      by rewrite lookup_insert_eq.
Qed.

(** X18. A rotation that is due (the log file is larger than the limit) and
    keeps [N > 0] backups moves every backup up by one place, whether it was
    there or not, which drops the oldest; files that are neither the log nor
    one of the [N] backups are left alone. When the compression succeeds the
    newest backup is the compressed log and the log is emptied; when it
    fails there is no newest backup and the log keeps its content. *)
Theorem rotate_shifts_backups (LogMaxFileSize : Z) (N : nat) (env : GzipEnv)
    (path : string) (fs : gmap string (list Byte.byte)) (data : list Byte.byte) :
  fs !! path = Some data -> LogMaxFileSize < Z.of_nat (length data) -> (0 < N)%nat ->
  let fs' := Logger_rotate LogMaxFileSize N env true None path fs in
  (forall k, (0 < k < N)%nat -> fs' !! backupPath path k = fs !! backupPath path (k - 1)) /\
  (forall p, p <> path -> (forall k, (k < N)%nat -> p <> backupPath path k) ->
     fs' !! p = fs !! p) /\
  (gzip_fails env = false ->
     fs' !! path = Some [] /\ fs' !! backupPath path 0 = Some (compress env data)) /\
  (gzip_fails env = true ->
     fs' !! path = Some data /\ fs' !! backupPath path 0 = None).
Proof.
  intros Hdata Hsize HN fs'.
  destruct (rotate_due LogMaxFileSize N env path fs data Hdata Hsize HN)
    as (Hshift & Hother & Hlog & Hnew).
  fold fs' in Hshift, Hother, Hlog, Hnew.
  split_and!; [done | done | |]; intros Hgz; rewrite Hgz in Hlog, Hnew; done.
Qed.

(** X19. The log is not emptied when the compression fails, so it is still
    over the limit at the next rotation. While the compression keeps
    failing, every such rotation drops one more backup: after [N] of them
    none of the [N] backups is left, and the log still has its content. *)
Theorem rotate_failing_loses_backups (LogMaxFileSize : Z) (N : nat) (env : GzipEnv)
    (path : string) (fs : gmap string (list Byte.byte)) (data : list Byte.byte) :
  fs !! path = Some data -> LogMaxFileSize < Z.of_nat (length data) -> (0 < N)%nat ->
  gzip_fails env = true ->
  let fs' := Nat.iter N (Logger_rotate LogMaxFileSize N env true None path) fs in
  fs' !! path = Some data /\
  forall k, (k < N)%nat -> fs' !! backupPath path k = None.
Proof.
  intros Hdata Hsize HN Hgz.
  assert (forall m, let fs' := Nat.iter m (Logger_rotate LogMaxFileSize N env true None path) fs in
            fs' !! path = Some data /\
            forall k, (k < m)%nat -> (k < N)%nat -> fs' !! backupPath path k = None) as Hiter.
  { induction m as [|m [IHlog IHnone]]; [split; [done | intros; lia]|].
    simpl.
    destruct (rotate_due LogMaxFileSize N env path _ data IHlog Hsize HN)
      as (Hshift & _ & Hlog & Hnew).
    rewrite Hgz in Hlog, Hnew. split; [done|].
    intros k Hk HkN. destruct k as [|k]; [done|].
    rewrite Hshift by lia. simpl. rewrite Nat.sub_0_r. apply IHnone; lia. }
  destruct (Hiter N) as [Hlog Hnone]. split; [done|]. intros k Hk. by apply Hnone.
Qed.

Lemma rotate_shifts_backups_witness :
  let env := mkGzipEnv None None None None None (fun data => Byte.x1f :: data) in
  let fs : gmap string (list Byte.byte) :=
    {[ "log" := [Byte.x61; Byte.x62]; "log.0.gz" := [Byte.x01] ]} in
  Logger_rotate 1 2 env true None "log" fs !! "log.1.gz" = Some [Byte.x01] /\
  Logger_rotate 1 2 env true None "log" fs !! "log.0.gz" =
    Some [Byte.x1f; Byte.x61; Byte.x62] /\
  Logger_rotate 1 2 env true None "log" fs !! "log" = Some [].
Proof.
  intros env fs.
  destruct (rotate_shifts_backups 1 2 env "log" fs [Byte.x61; Byte.x62])
    as (Hshift & _ & Hok & _).
  - reflexivity.
  - simpl. lia.
  - lia.
  - destruct (Hok eq_refl) as [Hlog Hnew]. split_and!.
    + exact (Hshift 1%nat ltac:(lia)).
    + exact Hnew.
    + exact Hlog.
Defined.

Lemma rotate_failing_loses_backups_witness :
  let env := mkGzipEnv None None (Some (ErrIO 28)) None None (fun data => data) in
  let fs : gmap string (list Byte.byte) :=
    {[ "log" := [Byte.x61; Byte.x62]; "log.0.gz" := [Byte.x01]; "log.1.gz" := [Byte.x02] ]} in
  let fs' := Logger_rotate 1 2 env true None "log"
               (Logger_rotate 1 2 env true None "log" fs) in
  fs' !! "log" = Some [Byte.x61; Byte.x62] /\
  fs' !! "log.0.gz" = None /\ fs' !! "log.1.gz" = None.
Proof.
  intros env fs fs'.
  destruct (rotate_failing_loses_backups 1 2 env "log" fs [Byte.x61; Byte.x62])
    as (Hlog & Hnone).
  - reflexivity.
  - simpl. lia.
  - lia.
  - reflexivity.
  - split_and!.
    + exact Hlog.
    + exact (Hnone 0%nat ltac:(lia)).
    + exact (Hnone 1%nat ltac:(lia)).
Defined.
